(** * Mini-Adapton: a demand-driven incremental computation engine

    A shallow embedding of [src/index.ts].  The JavaScript heap of
    [Adapton] objects becomes an arena: a node is named by a handle (a
    natural number) and the state maps every handle to the node's fields.
    The global [currentlyAdapting] slot is a field of the state.

    A node's [thunk] is client code.  What client code can do to the
    engine is call its functions, so a computation is a tree of engine
    calls whose continuations are ordinary functions of the values the
    calls return, with [try]/[catch] blocks around parts of it
    ([Prog]).  [adaptonCompute] may recurse without bound
    (the source documents it), so the recursive functions take a fuel
    argument that bounds the depth of the call stack. *)

From Stdlib Require Import ZArith List Bool Arith Lia.
Import ListNotations.

(** ** Values and handles *)

(** [result: any].  The engine only stores and returns values; numbers
    and [undefined] are all the scenarios of the source use. *)
Inductive value : Type :=
| VUndefined
| VNum (z : Z).

(** A reference to an [Adapton] object. *)
Definition Adapton := nat.

(** ** The JavaScript [Set<Adapton>]: insertion-ordered, no duplicates *)

Definition set_has (x : Adapton) (s : list Adapton) : bool :=
  existsb (Nat.eqb x) s.

(** [s.add(x)] *)
Definition set_add (x : Adapton) (s : list Adapton) : list Adapton :=
  if set_has x s then s else s ++ [x].

(** [s.delete(x)] *)
Definition set_delete (x : Adapton) (s : list Adapton) : list Adapton :=
  filter (fun y => negb (Nat.eqb x y)) s.

(** ** Client computations *)

(** The body of a thunk: returns, throws, calls into the engine and
    goes on with the outcome, or runs a part of itself under an
    exception handler and goes on with the value of the part or of the
    handler.  A computation does not allocate: it calls neither
    [makeAthunk] nor [adaptonRef]; the nodes exist when it runs. *)
Inductive Prog : Type :=
| Ret (v : value)                                   (* return v *)
| Throw (e : value)                                 (* throw e *)
| GetResult (a : Adapton) (k : value -> Prog)       (* a.result *)
| Compute (a : Adapton) (k : value -> Prog)         (* adaptonCompute(a) *)
| Force (a : Adapton) (k : value -> Prog)           (* adaptonForce(a) *)
| AddEdge (a b : Adapton) (k : Prog)                (* addEdge(a, b) *)
| DeleteEdge (a b : Adapton) (k : Prog)             (* deleteEdge(a, b) *)
| Dirty (a : Adapton) (k : Prog)                    (* adaptonDirty(a) *)
| RefSet (a : Adapton) (v : value) (k : Prog)       (* adaptonRefSet(a, v) *)
| Try (body : Prog) (handler : value -> Prog) (k : value -> Prog).
                                      (* try { body } catch (e) { handler } *)

(** ** Nodes and the state *)

(** [interface Adapton].  [thunk] holds the body of [() => thunk(a)],
    the client function already applied to the node itself. *)
Record Node : Type := mkNode {
  thunk : Prog;
  result : value;
  sub : list Adapton;
  super : list Adapton;
  clean : bool
}.

(** The object [makeAthunk] starts from: [thunk: () => {}],
    [result: undefined], both sets empty, [clean: false].  A handle that
    has not been allocated yet denotes this node. *)
Definition blank : Node :=
  mkNode (Ret VUndefined) VUndefined [] [] false.

(** [heap] is the arena, [next] the first handle not yet allocated,
    [currentlyAdapting] the global slot.  [calls] is a ghost log: the
    handles of the nodes whose thunk was invoked, most recent first.  The
    engine never reads it; it is the call counter of the spec's
    memoization test. *)
Record State : Type := mkState {
  heap : Adapton -> Node;
  next : nat;
  currentlyAdapting : option Adapton;
  calls : list Adapton
}.

Definition init : State := mkState (fun _ => blank) 0 None [].

Definition node (st : State) (a : Adapton) : Node := heap st a.

(** Field update of one object. *)
Definition upd (a : Adapton) (f : Node -> Node) (st : State) : State :=
  mkState (fun x => if Nat.eqb x a then f (heap st x) else heap st x)
          (next st) (currentlyAdapting st) (calls st).

Definition with_result (v : value) (n : Node) : Node :=
  mkNode (thunk n) v (sub n) (super n) (clean n).
Definition with_sub (s : list Adapton) (n : Node) : Node :=
  mkNode (thunk n) (result n) s (super n) (clean n).
Definition with_super (s : list Adapton) (n : Node) : Node :=
  mkNode (thunk n) (result n) (sub n) s (clean n).
Definition with_clean (b : bool) (n : Node) : Node :=
  mkNode (thunk n) (result n) (sub n) (super n) b.

Definition set_result (a : Adapton) (v : value) : State -> State :=
  upd a (with_result v).
Definition set_clean (a : Adapton) (b : bool) : State -> State :=
  upd a (with_clean b).
Definition set_context (c : option Adapton) (st : State) : State :=
  mkState (heap st) (next st) c (calls st).
Definition log_call (a : Adapton) (st : State) : State :=
  mkState (heap st) (next st) (currentlyAdapting st) (a :: calls st).

(** ** Micro-Adapton *)

(** [makeAthunk]: a new object, dirty and without edges, whose thunk is
    the client function applied to the object itself. *)
Definition makeAthunk (thunk : Adapton -> Prog) (st : State)
  : Adapton * State :=
  let a := next st in
  (a, mkState (fun x => if Nat.eqb x a
                        then mkNode (thunk a) VUndefined [] [] false
                        else heap st x)
              (S a) (currentlyAdapting st) (calls st)).

Definition addEdge (superComp subComp : Adapton) (st : State) : State :=
  let st1 := upd superComp
                 (fun n => with_sub (set_add subComp (sub n)) n) st in
  upd subComp (fun n => with_super (set_add superComp (super n)) n) st1.

Definition deleteEdge (superComp subComp : Adapton) (st : State) : State :=
  let st1 := upd superComp
                 (fun n => with_sub (set_delete subComp (sub n)) n) st in
  upd subComp (fun n => with_super (set_delete superComp (super n)) n) st1.

(** [adaptonDirty].  [None]: the fuel did not cover the recursion. *)
Fixpoint adaptonDirty (fuel : nat) (a : Adapton) (st : State)
  : option State :=
  if negb (clean (node st a)) then Some st
  else
    match fuel with
    | O => None
    | S fuel' =>
      let st1 := set_clean a false st in
      fold_left (fun acc x =>
                   match acc with
                   | Some s => adaptonDirty fuel' x s
                   | None => None
                   end)
                (super (node st1 a)) (Some st1)
    end.

Definition adaptonRefSet (fuel : nat) (a : Adapton) (val : value)
  (st : State) : option State :=
  adaptonDirty fuel a (set_result a val st).

(** How a call ends: it returns a value, it throws, or the fuel did not
    cover the recursion. *)
Inductive Outcome : Type :=
| Done (v : value) (st : State)
| Threw (e : value) (st : State)
| OutOfFuel.

(** [adaptonForce], over the [adaptonCompute] it calls.  When the
    computation throws, nothing after the call runs. *)
Definition adaptonForce (compute : Adapton -> State -> Outcome)
  (a : Adapton) (st : State) : Outcome :=
  let prevAdapting := currentlyAdapting st in
  match compute a (set_context (Some a) st) with
  | Done result st1 =>
    let st2 := set_context prevAdapting st1 in
    match currentlyAdapting st2 with
    | Some c => Done result (addEdge c a st2)
    | None => Done result st2
    end
  | Threw e st1 => Threw e st1
  | OutOfFuel => OutOfFuel
  end.

Section Run.

Variable compute : Adapton -> State -> Outcome.
Variable dirty : Adapton -> State -> option State.

(** Running the body of a thunk. *)
Fixpoint run (p : Prog) (st : State) : Outcome :=
  match p with
  | Ret v => Done v st
  | Throw e => Threw e st
  | GetResult a k => run (k (result (node st a))) st
  | Compute a k =>
    match compute a st with
    | Done v st' => run (k v) st'
    | o => o
    end
  | Force a k =>
    match adaptonForce compute a st with
    | Done v st' => run (k v) st'
    | o => o
    end
  | AddEdge a b k => run k (addEdge a b st)
  | DeleteEdge a b k => run k (deleteEdge a b st)
  | Dirty a k =>
    match dirty a st with
    | Some st' => run k st'
    | None => OutOfFuel
    end
  | RefSet a v k =>
    match dirty a (set_result a v st) with
    | Some st' => run k st'
    | None => OutOfFuel
    end
  | Try body handler k =>
    match run body st with
    | Done v st' => run (k v) st'
    | Threw e st' =>
      match run (handler e) st' with
      | Done v st'' => run (k v) st''
      | o => o
      end
    | OutOfFuel => OutOfFuel
    end
  end.

End Run.

(** The loop [for (const x of a.sub) deleteEdge(a, x)].  Each step
    deletes the entry the iterator stands on, so the iteration visits
    the entries the set had when the loop started, in order. *)
Definition clear_sub (a : Adapton) (st : State) : State :=
  fold_left (fun s x => deleteEdge a x s) (sub (node st a)) st.

(** [adaptonCompute] *)
Fixpoint adaptonCompute (fuel : nat) (a : Adapton) (st : State)
  : Outcome :=
  if clean (node st a) then Done (result (node st a)) st
  else
    match fuel with
    | O => OutOfFuel
    | S fuel' =>
      let st1 := clear_sub a st in
      let st2 := set_clean a true st1 in
      match run (adaptonCompute fuel') (adaptonDirty fuel')
                (thunk (node st2 a)) (log_call a st2) with
      | Done v st3 => adaptonCompute fuel' a (set_result a v st3)
      | o => o
      end
    end.

(** [adaptonRef] *)
Definition ref_thunk (self : Adapton) : Prog := GetResult self Ret.

Definition adaptonRef (val : value) (st : State) : Adapton * State :=
  let (a, st1) := makeAthunk ref_thunk st in
  (a, set_clean a true (set_result a val st1)).

(** ** Mini-Adapton *)

(** [const adapt = makeAthunk] *)
Definition adapt : (Adapton -> Prog) -> State -> Adapton * State :=
  makeAthunk.

(** [adaptonForce] with the [adaptonCompute] of the source, and the
    run of a thunk's body with the functions of the source. *)
Definition force (fuel : nat) : Adapton -> State -> Outcome :=
  adaptonForce (adaptonCompute fuel).

Definition exec (fuel : nat) : Prog -> State -> Outcome :=
  run (adaptonCompute fuel) (adaptonDirty fuel).

(** The loop that clears the dependencies of [a]. *)

Definition delete_all (l s : list Adapton) : list Adapton :=
  fold_left (fun acc y => set_delete y acc) l s.

(** The state in which the thunk of a dirty node starts to run. *)
Definition before_thunk (a : Adapton) (st : State) : State :=
  log_call a (set_clean a true (clear_sub a st)).

(** ** Vocabulary of the properties *)

(** [y] is reached from [n] along dependent edges ([super]). *)
Inductive super_path (st : State) (n : Adapton) : Adapton -> Prop :=
| sp_here : super_path st n n
| sp_step x y :
    super_path st n x -> In y (super (node st x)) -> super_path st n y.

(** The same, along a chain on which every node, [n] included, is
    clean. *)
Inductive clean_path (st : State) (n : Adapton) : Adapton -> Prop :=
| cp_here : clean (node st n) = true -> clean_path st n n
| cp_step x y :
    clean_path st n x -> In y (super (node st x)) ->
    clean (node st y) = true -> clean_path st n y.

(** Two states that differ at most in the [clean] flags. *)
Definition same_but_clean (st st' : State) : Prop :=
  next st' = next st /\
  currentlyAdapting st' = currentlyAdapting st /\
  calls st' = calls st /\
  forall x, thunk (node st' x) = thunk (node st x) /\
            result (node st' x) = result (node st x) /\
            sub (node st' x) = sub (node st x) /\
            super (node st' x) = super (node st x).

(** What a wave of [adaptonDirty] started at [roots] does. *)
Definition dirtied (st st' : State) (roots : list Adapton) : Prop :=
  same_but_clean st st' /\
  (forall x, clean (node st' x) = true -> clean (node st x) = true) /\
  (forall x, clean (node st x) = true -> clean (node st' x) = false ->
             exists r, In r roots /\ clean_path st r x) /\
  (forall r, In r roots -> clean (node st' r) = false) /\
  (forall x y, clean (node st x) = true -> clean (node st' x) = false ->
               In y (super (node st x)) -> clean (node st' y) = false).

(** Every clean node has a handle below [N]. *)
Definition clean_below (N : nat) (st : State) : Prop :=
  forall x, clean (node st x) = true -> x < N.

Definition count_clean (N : nat) (st : State) : nat :=
  length (filter (fun x => clean (node st x)) (seq 0 N)).

(** Every dependent of a dirty node is dirty. *)
Definition dirty_upward (st : State) : Prop :=
  forall x y, In y (super (node st x)) ->
              clean (node st x) = false -> clean (node st y) = false.

(** The loop [for (const x of a.super) adaptonDirty(x)]. *)
Definition dirty_each (fuel : nat) (l : list Adapton) (st : option State)
  : option State :=
  fold_left (fun acc x =>
               match acc with
               | Some s => adaptonDirty fuel x s
               | None => None
               end) l st.

(** The kinds of call a computation can make, and the computations that
    make only calls of the kinds [A] allows. *)
Inductive OpKind : Type :=
| KThrow | KGetResult | KCompute | KForce
| KAddEdge | KDeleteEdge | KDirty | KRefSet | KTry.

Inductive only (A : OpKind -> bool) : Prog -> Prop :=
| only_Ret v : only A (Ret v)
| only_Throw e : A KThrow = true -> only A (Throw e)
| only_GetResult a k :
    A KGetResult = true -> (forall v, only A (k v)) -> only A (GetResult a k)
| only_Compute a k :
    A KCompute = true -> (forall v, only A (k v)) -> only A (Compute a k)
| only_Force a k :
    A KForce = true -> (forall v, only A (k v)) -> only A (Force a k)
| only_AddEdge a b k :
    A KAddEdge = true -> only A k -> only A (AddEdge a b k)
| only_DeleteEdge a b k :
    A KDeleteEdge = true -> only A k -> only A (DeleteEdge a b k)
| only_Dirty a k : A KDirty = true -> only A k -> only A (Dirty a k)
| only_RefSet a v k : A KRefSet = true -> only A k -> only A (RefSet a v k)
| only_Try body handler k :
    A KTry = true -> only A body -> (forall e, only A (handler e)) ->
    (forall v, only A (k v)) -> only A (Try body handler k).

(** What every call of the engine leaves alone when it returns: the
    allocation pointer, the context, the thunks; the call log only
    grows. *)
Definition frame_done (s s' : State) : Prop :=
  next s' = next s /\
  currentlyAdapting s' = currentlyAdapting s /\
  (forall x, thunk (node s' x) = thunk (node s x)) /\
  exists l, calls s' = l ++ calls s.

(** The same when it throws, but for the context. *)
Definition frame_threw (s s' : State) : Prop :=
  next s' = next s /\
  (forall x, thunk (node s' x) = thunk (node s x)) /\
  (exists l, calls s' = l ++ calls s) /\
  (currentlyAdapting s' = currentlyAdapting s \/
   exists b, currentlyAdapting s' = Some b).

Definition related (RD RT : State -> State -> Prop) (s : State)
  (o : Outcome) : Prop :=
  match o with
  | Done _ s' => RD s s'
  | Threw _ s' => RT s s'
  | OutOfFuel => True
  end.

Definition force_exit (s : State) (a : Adapton) (s1 : State) : State :=
  match currentlyAdapting s with
  | Some c => addEdge c a (set_context (Some c) s1)
  | None => set_context None s1
  end.

(** What the proof rule for the engine asks of a class [ok] of
    computations, of the handles they may compute ([valid]) and force
    ([forcible]), of an invariant [I] and of the relations [RD] (a call
    returned) and [RT] (a call threw).  Where the class has exception
    handlers ([r_Try]), a computation goes on after a throw: the
    invariant must then survive [RT], and what follows a throw must
    compose with it. *)
Record engine_rule (ok : Prog -> Prop) (valid forcible : Adapton -> Prop)
       (I : State -> Prop) (RD RT : State -> State -> Prop) : Prop :=
  mk_engine_rule {
  r_RD_refl : forall s, I s -> RD s s;
  r_RT_refl : forall s, I s -> RT s s;
  r_RD_trans : forall s1 s2 s3, I s1 -> RD s1 s2 -> RD s2 s3 -> RD s1 s3;
  r_RT_trans : forall s1 s2 s3, I s1 -> RD s1 s2 -> RT s2 s3 -> RT s1 s3;
  r_I_RD : forall s1 s2, I s1 -> RD s1 s2 -> I s2;
  r_I_ok : forall s a, I s -> ok (thunk (node s a));
  r_GetResult : forall a k, ok (GetResult a k) -> forall v, ok (k v);
  r_Compute :
    forall a k, ok (Compute a k) -> valid a /\ forall v, ok (k v);
  r_Force :
    forall a k, ok (Force a k) -> forcible a /\ forall v, ok (k v);
  r_forcible_valid : forall a, forcible a -> valid a;
  r_AddEdge :
    forall a b k, ok (AddEdge a b k) ->
                  ok k /\ forall s, I s -> RD s (addEdge a b s);
  r_DeleteEdge :
    forall a b k, ok (DeleteEdge a b k) ->
                  ok k /\ forall s, I s -> RD s (deleteEdge a b s);
  r_Dirty :
    forall a k, ok (Dirty a k) ->
                ok k /\ forall fuel s s', I s ->
                                          adaptonDirty fuel a s = Some s' ->
                                          RD s s';
  r_RefSet :
    forall a v k, ok (RefSet a v k) ->
                  ok k /\ forall fuel s s',
                    I s -> adaptonDirty fuel a (set_result a v s) = Some s' ->
                    RD s s';
  r_C_enter :
    forall s a, valid a -> I s -> clean (node s a) = false ->
                I (before_thunk a s);
  r_C_store :
    forall s a s3 v, valid a -> I s -> clean (node s a) = false ->
                     RD (before_thunk a s) s3 -> RD s (set_result a v s3);
  r_C_raise :
    forall s a s3, valid a -> I s -> clean (node s a) = false ->
                   RT (before_thunk a s) s3 -> RT s s3;
  r_F_enter :
    forall s a, forcible a -> I s -> I (set_context (Some a) s);
  r_F_exit :
    forall s a s1, forcible a -> I s -> RD (set_context (Some a) s) s1 ->
                   (clean (node s a) = true -> s1 = set_context (Some a) s) ->
                   RD s (force_exit s a s1);
  r_F_raise :
    forall s a s1, forcible a -> I s -> RT (set_context (Some a) s) s1 ->
                   RT s s1;
  r_Try :
    forall body handler k,
      ok (Try body handler k) ->
      ok body /\ (forall e, ok (handler e)) /\ (forall v, ok (k v)) /\
      (forall s1 s2, I s1 -> RT s1 s2 -> I s2) /\
      (forall s1 s2 s3, I s1 -> RT s1 s2 -> RD s2 s3 -> RD s1 s3) /\
      (forall s1 s2 s3, I s1 -> RT s1 s2 -> RT s2 s3 -> RT s1 s3)
}.

Definition any_prog (p : Prog) : Prop := True.
Definition any_node (a : Adapton) : Prop := True.
Definition any_state (s : State) : Prop := True.

(** Edge symmetry: [y] is a dependency of [x] exactly when [x] is a
    dependent of [y]. *)
Definition symmetric (s : State) : Prop :=
  forall x y, In y (sub (node s x)) <-> In x (super (node s y)).

(** References point to allocated objects: a computation that names
    only handles below [N]. *)
Inductive handles_below (N : nat) : Prog -> Prop :=
| hb_Ret v : handles_below N (Ret v)
| hb_Throw e : handles_below N (Throw e)
| hb_GetResult a k :
    a < N -> (forall v, handles_below N (k v)) ->
    handles_below N (GetResult a k)
| hb_Compute a k :
    a < N -> (forall v, handles_below N (k v)) ->
    handles_below N (Compute a k)
| hb_Force a k :
    a < N -> (forall v, handles_below N (k v)) ->
    handles_below N (Force a k)
| hb_AddEdge a b k :
    a < N -> b < N -> handles_below N k -> handles_below N (AddEdge a b k)
| hb_DeleteEdge a b k :
    a < N -> b < N -> handles_below N k ->
    handles_below N (DeleteEdge a b k)
| hb_Dirty a k : a < N -> handles_below N k -> handles_below N (Dirty a k)
| hb_RefSet a v k :
    a < N -> handles_below N k -> handles_below N (RefSet a v k)
| hb_Try body handler k :
    handles_below N body -> (forall e, handles_below N (handler e)) ->
    (forall v, handles_below N (k v)) -> handles_below N (Try body handler k).

Definition edges_below (N : nat) (s : State) : Prop :=
  forall x y, In y (sub (node s x)) -> x < N /\ y < N.

(** A heap as JavaScript builds it: the edges are symmetric, and the
    sets and the context refer to objects that exist. *)
Definition well_formed (s : State) : Prop :=
  symmetric s /\
  edges_below (next s) s /\
  (forall c, currentlyAdapting s = Some c -> c < next s).

(** Every reference a thunk holds is to an object that exists. *)
Definition closed_heap (s : State) : Prop :=
  forall x, handles_below (next s) (thunk (node s x)).

(** The calls a client can make. *)
Inductive Op : Type :=
| OMakeAthunk (thunk : Adapton -> Prog)
| OAdaptonRef (val : value)
| OAddEdge (superComp subComp : Adapton)
| ODeleteEdge (superComp subComp : Adapton)
| OCompute (a : Adapton)
| ODirty (a : Adapton)
| ORefSet (a : Adapton) (val : value)
| OForce (a : Adapton).

(** The call passes references to existing objects, and when it may
    run thunks, the references the thunks hold are to existing objects
    by then. *)
Definition op_ok (s : State) (op : Op) : Prop :=
  match op with
  | OMakeAthunk _ | OAdaptonRef _ => True
  | OAddEdge a b | ODeleteEdge a b => a < next s /\ b < next s
  | ODirty a | ORefSet a _ => a < next s
  | OCompute a | OForce a => a < next s /\ closed_heap s
  end.

(** The state a call leaves, whether it returned or threw. *)
Definition final (o : Outcome) : option State :=
  match o with
  | Done _ s | Threw _ s => Some s
  | OutOfFuel => None
  end.

Definition apply_op (fuel : nat) (op : Op) (s : State) : option State :=
  match op with
  | OMakeAthunk thunk => Some (snd (makeAthunk thunk s))
  | OAdaptonRef val => Some (snd (adaptonRef val s))
  | OAddEdge a b => Some (addEdge a b s)
  | ODeleteEdge a b => Some (deleteEdge a b s)
  | OCompute a => final (adaptonCompute fuel a s)
  | ODirty a => adaptonDirty fuel a s
  | ORefSet a val => adaptonRefSet fuel a val s
  | OForce a => final (force fuel a s)
  end.

(** The states between two calls of a client. *)
Inductive reachable : State -> Prop :=
| reach_init : reachable init
| reach_step s op fuel s' :
    reachable s -> op_ok s op -> apply_op fuel op s = Some s' ->
    reachable s'.

Definition well_formed_at (N : nat) (s : State) : Prop :=
  next s = N /\ well_formed s /\
  forall x, handles_below N (thunk (node s x)).

(** Every thunk of the heap makes only calls of the kinds [A] allows. *)
Definition heap_only (A : OpKind -> bool) (s : State) : Prop :=
  forall x, only A (thunk (node s x)).

(** No computation calls [adaptonForce]. *)
Definition no_force (k : OpKind) : bool :=
  match k with KForce => false | _ => true end.

(** No computation calls [adaptonForce] or [addEdge]. *)
Definition no_force_no_addEdge (k : OpKind) : bool :=
  match k with KForce | KAddEdge => false | _ => true end.

(** No computation calls [adaptonDirty] or [adaptonRefSet]. *)
Definition no_dirtying (k : OpKind) : bool :=
  match k with KDirty | KRefSet => false | _ => true end.

(** No computation has an exception handler. *)
Definition no_catch (k : OpKind) : bool :=
  match k with KTry => false | _ => true end.

(** No edge appears between [s] and [s']. *)
Definition no_new_edge (s s' : State) : Prop :=
  forall x y, (In y (sub (node s' x)) -> In y (sub (node s x))) /\
              (In y (super (node s' x)) -> In y (super (node s x))).

(** The context is untouched and the thunks are the same; when no
    computation calls [addEdge] either, no edge appears. *)
Definition context_kept (A : OpKind -> bool) (s s' : State) : Prop :=
  (forall x, thunk (node s' x) = thunk (node s x)) /\
  currentlyAdapting s' = currentlyAdapting s /\
  (A KAddEdge = false -> no_new_edge s s').

(** Clean nodes keep their flag and their cached result. *)
Definition clean_kept (s s' : State) : Prop :=
  (forall x, thunk (node s' x) = thunk (node s x)) /\
  forall y, clean (node s y) = true ->
            clean (node s' y) = true /\
            result (node s' y) = result (node s y).

(** ** The node being forced when an exception is raised *)

Section Innermost.

Variable compute : Adapton -> State -> Outcome.
Variable dirty : Adapton -> State -> option State.

(** For a call of [adaptonCompute] that throws: the innermost node
    being forced inside the call when the exception was raised, if
    any. *)
Variable inside : Adapton -> State -> option Adapton.

(** The same for the run of a thunk's body.  A call of [adaptonForce]
    that throws was forcing its argument, or a node further in.  An
    exception that a handler caught is over: what counts is where the
    exception that leaves the body was raised, in the handler or after
    it. *)
Fixpoint forcing_at_throw (p : Prog) (st : State) : option Adapton :=
  match p with
  | Ret _ | Throw _ => None
  | GetResult a k => forcing_at_throw (k (result (node st a))) st
  | Compute a k =>
    match compute a st with
    | Done v st' => forcing_at_throw (k v) st'
    | Threw _ _ => inside a st
    | OutOfFuel => None
    end
  | Force a k =>
    match adaptonForce compute a st with
    | Done v st' => forcing_at_throw (k v) st'
    | Threw _ _ =>
      match inside a (set_context (Some a) st) with
      | Some b => Some b
      | None => Some a
      end
    | OutOfFuel => None
    end
  | AddEdge a b k => forcing_at_throw k (addEdge a b st)
  | DeleteEdge a b k => forcing_at_throw k (deleteEdge a b st)
  | Dirty a k =>
    match dirty a st with
    | Some st' => forcing_at_throw k st'
    | None => None
    end
  | RefSet a v k =>
    match dirty a (set_result a v st) with
    | Some st' => forcing_at_throw k st'
    | None => None
    end
  | Try body handler k =>
    match run compute dirty body st with
    | Done v st' => forcing_at_throw (k v) st'
    | Threw e st' =>
      match run compute dirty (handler e) st' with
      | Done v st'' => forcing_at_throw (k v) st''
      | _ => forcing_at_throw (handler e) st'
      end
    | OutOfFuel => None
    end
  end.

End Innermost.

Fixpoint forcing_inside (fuel : nat) (a : Adapton) (st : State)
  : option Adapton :=
  if clean (node st a) then None
  else
    match fuel with
    | O => None
    | S fuel' =>
      match exec fuel' (thunk (node st a)) (before_thunk a st) with
      | Done v st3 => forcing_inside fuel' a (set_result a v st3)
      | Threw _ _ =>
        forcing_at_throw (adaptonCompute fuel') (adaptonDirty fuel')
                         (forcing_inside fuel')
                         (thunk (node st a)) (before_thunk a st)
      | OutOfFuel => None
      end
    end.

(** For a call of [adaptonForce] on [a] that throws: the innermost node
    being forced when the exception was raised, [a] itself when the
    exception was raised outside any nested call of [adaptonForce]. *)
Definition innermost_forced (fuel : nat) (a : Adapton) (st : State)
  : Adapton :=
  match forcing_inside fuel a (set_context (Some a) st) with
  | Some b => b
  | None => a
  end.

(** The context in which an exception leaves a call started in context
    [c]. *)
Definition context_at_throw (who : option Adapton) (c : option Adapton)
  : option Adapton :=
  match who with
  | Some b => Some b
  | None => c
  end.

(** ** Tracked computations *)

(** A computation that reads other nodes through [adaptonForce] and
    does nothing else. *)
Definition just_force (k : OpKind) : bool :=
  match k with KForce => true | _ => false end.

(** The thunk of a node is that of a ref cell, or a tracked
    computation. *)
Definition tracked_prog (p : Prog) : Prop :=
  only just_force p \/ exists x, p = ref_thunk x.

Definition tracked_heap (s : State) : Prop :=
  forall x, tracked_prog (thunk (node s x)).

(** What a call leaves alone in a tracked heap: the thunks and the
    context; a clean node stays clean, keeps its cached result, loses
    no dependency, and keeps exactly its dependencies unless it is the
    context. *)
Definition tracked_kept (s s' : State) : Prop :=
  (forall x, thunk (node s' x) = thunk (node s x)) /\
  currentlyAdapting s' = currentlyAdapting s /\
  forall y, clean (node s y) = true ->
            clean (node s' y) = true /\
            result (node s' y) = result (node s y) /\
            (forall b, In b (sub (node s y)) -> In b (sub (node s' y))) /\
            (currentlyAdapting s <> Some y ->
             sub (node s' y) = sub (node s y)).

Definition anything (s s' : State) : Prop := True.

Section Forced.

Variable compute : Adapton -> State -> Outcome.
Variable dirty : Adapton -> State -> option State.

(** The nodes on which the run of a thunk's body calls [adaptonForce],
    in the order of the calls. *)
Fixpoint forced_by (p : Prog) (st : State) : list Adapton :=
  match p with
  | Ret _ | Throw _ => []
  | GetResult a k => forced_by (k (result (node st a))) st
  | Compute a k =>
    match compute a st with
    | Done v st' => forced_by (k v) st'
    | _ => []
    end
  | Force a k =>
    match adaptonForce compute a st with
    | Done v st' => a :: forced_by (k v) st'
    | _ => [a]
    end
  | AddEdge a b k => forced_by k (addEdge a b st)
  | DeleteEdge a b k => forced_by k (deleteEdge a b st)
  | Dirty a k =>
    match dirty a st with
    | Some st' => forced_by k st'
    | None => []
    end
  | RefSet a v k =>
    match dirty a (set_result a v st) with
    | Some st' => forced_by k st'
    | None => []
    end
  | Try body handler k =>
    forced_by body st ++
    match run compute dirty body st with
    | Done v st' => forced_by (k v) st'
    | Threw e st' =>
      forced_by (handler e) st' ++
      match run compute dirty (handler e) st' with
      | Done v st'' => forced_by (k v) st''
      | _ => []
      end
    | OutOfFuel => []
    end
  end.

End Forced.

(** The nodes forced by the thunk of [a] in the run that
    [adaptonCompute] starts on the dirty node [a] in state [st]. *)
Definition forced_in_run (fuel : nat) (a : Adapton) (st : State)
  : list Adapton :=
  forced_by (adaptonCompute fuel) (adaptonDirty fuel)
            (thunk (node st a)) (before_thunk a st).

(** The set that results from adding the elements of [l] to [s]. *)
(** A computation that forces different nodes on different runs. *)
Definition forces_conditionally (p : Prog) : Prop :=
  exists fuel s1 s2,
    forced_by (adaptonCompute fuel) (adaptonDirty fuel) p s1 <>
    forced_by (adaptonCompute fuel) (adaptonDirty fuel) p s2.

Definition add_all (l s : list Adapton) : list Adapton :=
  fold_left (fun acc b => set_add b acc) l s.

(** ** From-scratch evaluation *)

Section Fresh.

Variable eval : Adapton -> option value.
Variable st : State.

(** The value of a thunk's body when every read evaluates the node
    read from scratch ([eval]) and nothing is cached.  Edge bookkeeping
    does not bear on the value; a body that throws, writes to a cell
    or handles an exception has no value. *)
Fixpoint fresh_run (p : Prog) : option value :=
  match p with
  | Ret v => Some v
  | GetResult a k => fresh_run (k (result (node st a)))
  | Compute a k | Force a k =>
    match eval a with
    | Some v => fresh_run (k v)
    | None => None
    end
  | AddEdge _ _ k | DeleteEdge _ _ k => fresh_run k
  | Throw _ | Dirty _ _ | RefSet _ _ _ | Try _ _ _ => None
  end.

End Fresh.

(** The fresh, non-memoized evaluation of a node from the current
    values of the ref cells: the node's thunk is run, and so is the
    thunk of every node it reads, to depth [fuel].  A ref cell's thunk
    returns the value stored in the cell. *)
Fixpoint fresh (fuel : nat) (st : State) (a : Adapton) : option value :=
  match fuel with
  | O => None
  | S fuel' => fresh_run (fresh fuel' st) st (thunk (node st a))
  end.

(** A tracked computation that forces only nodes of rank below [n]. *)
Inductive forces_below (rank : Adapton -> nat) (n : nat) : Prog -> Prop :=
| fb_Ret v : forces_below rank n (Ret v)
| fb_Force b k :
    rank b < n -> (forall v, forces_below rank n (k v)) ->
    forces_below rank n (Force b k).

(** An acyclic graph of tracked computations: every node is a ref cell
    or a thunk that forces only nodes of lower rank. *)
Definition layered (rank : Adapton -> nat) (s : State) : Prop :=
  forall x, thunk (node s x) = ref_thunk x \/
            forces_below rank (rank x) (thunk (node s x)).

(** Rerunning the body [p] of node [x] against the caches of the nodes
    it forces yields [v], and each of these nodes is clean and is a
    registered dependency of [x]. *)
Inductive reads_ok (s : State) (x : Adapton) : Prog -> value -> Prop :=
| ro_Ret v : reads_ok s x (Ret v) v
| ro_Force b k v :
    clean (node s b) = true -> In b (sub (node s x)) ->
    reads_ok s x (k (result (node s b))) v ->
    reads_ok s x (Force b k) v.

(** The cache of [x] agrees with the caches it was computed from. *)
Definition good (s : State) (x : Adapton) : Prop :=
  thunk (node s x) = ref_thunk x \/
  reads_ok s x (thunk (node s x)) (result (node s x)).

(** Every clean node of rank below [n] is good. *)
Definition consistent_below (rank : Adapton -> nat) (n : nat) (s : State)
  : Prop :=
  forall y, rank y < n -> clean (node s y) = true -> good s y.

(** What holds between two calls of a client that reads through
    [adaptonForce]. *)
Definition settled (rank : Adapton -> nat) (s : State) : Prop :=
  layered rank s /\
  currentlyAdapting s = None /\
  symmetric s /\
  forall y, clean (node s y) = true -> good s y.

(** A dependency graph built from [adaptonRef] and [makeAthunk]. *)
Inductive built (rank : Adapton -> nat) : State -> Prop :=
| built_init : built rank init
| built_ref s val : built rank s -> built rank (snd (adaptonRef val s))
| built_thunk s thunk :
    built rank s ->
    forces_below rank (rank (next s)) (thunk (next s)) ->
    built rank (snd (makeAthunk thunk s)).

(** The states a client reaches from such a graph by writing ref cells
    with [adaptonRefSet] and reading nodes with [adaptonForce]. *)
Inductive served (rank : Adapton -> nat) : State -> Prop :=
| served_built s : built rank s -> served rank s
| served_set s r val fuel s' :
    served rank s -> thunk (node s r) = ref_thunk r ->
    adaptonRefSet fuel r val s = Some s' -> served rank s'
| served_force s a fuel v s' :
    served rank s -> force fuel a s = Done v s' -> served rank s'.

(** Ref cells keep their value. *)
Definition refs_kept (s s' : State) : Prop :=
  forall r, thunk (node s r) = ref_thunk r ->
            result (node s' r) = result (node s r).

(** [adaptonCompute] on [x] answered [v], the value of the from-scratch
    evaluation, and cached it.  Every node it cleaned has rank at most
    that of [x] and a cache that agrees with the caches it was computed
    from, except [x] itself when [x] was not the context: the edges of
    its reads were then registered against another node, or dropped. *)
Definition computed (rank : Adapton -> nat) (x : Adapton) (s : State)
  (v : value) (s' : State) : Prop :=
  fresh (S (rank x)) s x = Some v /\
  clean (node s' x) = true /\ result (node s' x) = v /\
  tracked_kept s s' /\ refs_kept s s' /\
  forall y, clean (node s y) = false -> clean (node s' y) = true ->
            rank y <= rank x /\
            (y <> x \/ currentlyAdapting s = Some x -> good s' y).

(** [adaptonForce] on [x] answered [v], the value of the from-scratch
    evaluation; every node it cleaned is good, and [x] is registered
    as a dependency of the context. *)
Definition forced_ok (rank : Adapton -> nat) (x : Adapton) (s : State)
  (v : value) (s' : State) : Prop :=
  fresh (S (rank x)) s x = Some v /\
  clean (node s' x) = true /\ result (node s' x) = v /\
  tracked_kept s s' /\ refs_kept s s' /\
  (forall y, clean (node s y) = false -> clean (node s' y) = true ->
             rank y <= rank x /\ good s' y) /\
  (forall c, currentlyAdapting s = Some c -> In x (sub (node s' c))).

(** The run of a body [p] that forces nodes of rank below [n] returned
    [v], the value of its from-scratch evaluation. *)
Definition ran (rank : Adapton -> nat) (n : nat) (p : Prog) (s : State)
  (v : value) (s' : State) : Prop :=
  fresh_run (fresh n s) s p = Some v /\
  tracked_kept s s' /\ refs_kept s s' /\
  (forall y, clean (node s y) = false -> clean (node s' y) = true ->
             rank y < n /\ good s' y) /\
  (forall x, currentlyAdapting s = Some x -> clean (node s x) = true ->
             reads_ok s' x p v).

(** A graph as built, before any read: no edge, every thunk dirty,
    every ref cell clean. *)
Definition pristine (rank : Adapton -> nat) (s : State) : Prop :=
  layered rank s /\
  currentlyAdapting s = None /\
  (forall x, sub (node s x) = [] /\ super (node s x) = []) /\
  forall y, clean (node s y) = true -> thunk (node s y) = ref_thunk y.

(** The states a client reaches when it also reads with
    [adaptonCompute] from the top level. *)
Inductive used (rank : Adapton -> nat) : State -> Prop :=
| used_built s : built rank s -> used rank s
| used_set s r val fuel s' :
    used rank s -> thunk (node s r) = ref_thunk r ->
    adaptonRefSet fuel r val s = Some s' -> used rank s'
| used_force s a fuel v s' :
    used rank s -> force fuel a s = Done v s' -> used rank s'
| used_compute s a fuel v s' :
    used rank s -> adaptonCompute fuel a s = Done v s' -> used rank s'.

(** ** Graphs whose reads are registered, by force or by hand *)

(** The body of a thunk of node [x] that reads nodes of lower rank and
    has every read registered as a dependency of [x].  A read made with
    [adaptonForce] is registered by [adaptonForce] itself when [x] is
    the context, that is, when [x] is itself recomputed under
    [adaptonForce]; a read is registered by hand when the body calls
    [addEdge(x, b)] before it, as the first demonstration of the source
    does.  [reg] lists the reads registered by hand so far.  [manual]
    tells the nodes that register all their reads by hand: they can be
    recomputed by [adaptonCompute] from any context, and only they are
    read with [adaptonCompute]. *)
Inductive reads_below (rank : Adapton -> nat) (manual : Adapton -> bool)
  (x : Adapton) : list Adapton -> Prog -> Prop :=
| rb_Ret reg v : reads_below rank manual x reg (Ret v)
| rb_Force reg b k :
    rank b < rank x -> (manual x = true -> In b reg) ->
    (forall v, reads_below rank manual x reg (k v)) ->
    reads_below rank manual x reg (Force b k)
| rb_Compute reg b k :
    rank b < rank x -> manual b = true -> In b reg ->
    (forall v, reads_below rank manual x reg (k v)) ->
    reads_below rank manual x reg (Compute b k)
| rb_AddEdge reg b k :
    reads_below rank manual x (b :: reg) k ->
    reads_below rank manual x reg (AddEdge x b k).

(** An acyclic graph: every node is a ref cell, or a thunk whose reads
    are of lower rank and registered. *)
Definition stratified (rank : Adapton -> nat) (manual : Adapton -> bool)
  (s : State) : Prop :=
  forall x, (thunk (node s x) = ref_thunk x /\ manual x = true) \/
            reads_below rank manual x [] (thunk (node s x)).

(** Rerunning the body [p] of node [x] against the caches of the nodes
    it reads yields [v], and each of these nodes is clean and is a
    registered dependency of [x]. *)
Inductive reads_agree (s : State) (x : Adapton) : Prog -> value -> Prop :=
| ra_Ret v : reads_agree s x (Ret v) v
| ra_Force b k v :
    clean (node s b) = true -> In b (sub (node s x)) ->
    reads_agree s x (k (result (node s b))) v ->
    reads_agree s x (Force b k) v
| ra_Compute b k v :
    clean (node s b) = true -> In b (sub (node s x)) ->
    reads_agree s x (k (result (node s b))) v ->
    reads_agree s x (Compute b k) v
| ra_AddEdge a b k v :
    reads_agree s x k v -> reads_agree s x (AddEdge a b k) v.

(** The cache of [x] agrees with the caches it was computed from. *)
Definition sound (s : State) (x : Adapton) : Prop :=
  thunk (node s x) = ref_thunk x \/
  reads_agree s x (thunk (node s x)) (result (node s x)).

Definition sound_below (rank : Adapton -> nat) (n : nat) (s : State)
  : Prop :=
  forall y, rank y < n -> clean (node s y) = true -> sound s y.

(** What a read leaves alone: the thunks and the context; a clean node
    stays clean, keeps its cached result and loses no dependency. *)
Definition cache_kept (s s' : State) : Prop :=
  (forall x, thunk (node s' x) = thunk (node s x)) /\
  currentlyAdapting s' = currentlyAdapting s /\
  forall y, clean (node s y) = true ->
            clean (node s' y) = true /\
            result (node s' y) = result (node s y) /\
            forall b, In b (sub (node s y)) -> In b (sub (node s' y)).

(** What holds between two calls of a client. *)
Definition coherent (rank : Adapton -> nat) (manual : Adapton -> bool)
  (s : State) : Prop :=
  stratified rank manual s /\
  currentlyAdapting s = None /\
  symmetric s /\
  forall y, clean (node s y) = true -> sound s y.

(** The states a client reaches by allocating ref cells and thunks of
    such a graph, writing with [adaptonRefSet] and reading with
    [adaptonForce], in any order; it also reads with [adaptonCompute]
    the nodes that are clean or register their reads by hand.  A read
    is made when the references held by the thunks are to objects that
    exist. *)
Inductive session (rank : Adapton -> nat) (manual : Adapton -> bool)
  : State -> Prop :=
| session_init : session rank manual init
| session_ref s val :
    session rank manual s -> manual (next s) = true ->
    session rank manual (snd (adaptonRef val s))
| session_thunk s thunk :
    session rank manual s ->
    reads_below rank manual (next s) [] (thunk (next s)) ->
    session rank manual (snd (makeAthunk thunk s))
| session_set s r val fuel s' :
    session rank manual s -> r < next s ->
    adaptonRefSet fuel r val s = Some s' ->
    session rank manual s'
| session_force s a fuel v s' :
    session rank manual s -> a < next s -> closed_heap s ->
    force fuel a s = Done v s' ->
    session rank manual s'
| session_compute s a fuel v s' :
    session rank manual s -> a < next s -> closed_heap s ->
    manual a = true \/ clean (node s a) = true ->
    adaptonCompute fuel a s = Done v s' ->
    session rank manual s'.

(** [adaptonCompute] on [x] answered [v], the value of the from-scratch
    evaluation, and cached it.  Every node it cleaned has rank at most
    that of [x] and a sound cache, except [x] itself when [x] relies on
    [adaptonForce] to register its reads and was not the context. *)
Definition compute_sound (rank : Adapton -> nat) (manual : Adapton -> bool)
  (x : Adapton) (s : State) (v : value) (s' : State) : Prop :=
  fresh (S (rank x)) s x = Some v /\
  clean (node s' x) = true /\ result (node s' x) = v /\
  cache_kept s s' /\ refs_kept s s' /\
  forall y, clean (node s y) = false -> clean (node s' y) = true ->
            rank y <= rank x /\
            (y <> x \/ currentlyAdapting s = Some x \/ manual x = true ->
             sound s' y).

(** [adaptonForce] on [x] answered [v], the value of the from-scratch
    evaluation; every node it cleaned is sound, and [x] is registered
    as a dependency of the context. *)
Definition force_sound (rank : Adapton -> nat) (x : Adapton) (s : State)
  (v : value) (s' : State) : Prop :=
  fresh (S (rank x)) s x = Some v /\
  clean (node s' x) = true /\ result (node s' x) = v /\
  cache_kept s s' /\ refs_kept s s' /\
  (forall y, clean (node s y) = false -> clean (node s' y) = true ->
             rank y <= rank x /\ sound s' y) /\
  (forall c, currentlyAdapting s = Some c -> In x (sub (node s' c))).

(** The run of a part [p] of the body of [x] returned [v], the value of
    its from-scratch evaluation. *)
Definition run_sound (rank : Adapton -> nat) (manual : Adapton -> bool)
  (x : Adapton) (reg : list Adapton) (p : Prog) (s : State)
  (v : value) (s' : State) : Prop :=
  fresh_run (fresh (rank x) s) s p = Some v /\
  cache_kept s s' /\ refs_kept s s' /\
  (forall y, clean (node s y) = false -> clean (node s' y) = true ->
             rank y < rank x /\ sound s' y) /\
  (clean (node s x) = true ->
   (forall b, In b reg -> In b (sub (node s x))) ->
   currentlyAdapting s = Some x \/ manual x = true ->
   reads_agree s' x p v).

(** ** States used as examples *)

(** The state a call leaves, or [d] when the fuel ran out. *)
Definition state_of (o : Outcome) (d : State) : State :=
  match o with
  | Done _ s | Threw _ s => s
  | OutOfFuel => d
  end.

(** The state a call of [adaptonDirty] or [adaptonRefSet] leaves, or
    [d] when the fuel ran out. *)
Definition state_or (o : option State) (d : State) : State :=
  match o with
  | Some s => s
  | None => d
  end.

(** The value a call returned, if it returned. *)
Definition answer (o : Outcome) : option value :=
  match o with
  | Done v _ => Some v
  | _ => None
  end.

(** The call returned. *)
Definition returned (o : Outcome) : bool :=
  match o with
  | Done _ _ => true
  | _ => false
  end.

(** The call came to an end. *)
Definition returned_or_threw (o : Outcome) : bool :=
  match o with
  | OutOfFuel => false
  | _ => true
  end.

(** Client arithmetic on numbers. *)
Definition num2 (f : Z -> Z -> Z) (x y : value) : value :=
  match x, y with
  | VNum a, VNum b => VNum (f a b)
  | _, _ => VUndefined
  end.

(** Node 0 is a thunk never computed; node 1 has registered itself as
    its dependent and is clean. *)
Definition ex_blocked : State :=
  let s1 := snd (makeAthunk (fun _ => Ret (VNum 1)) init) in
  let s2 := snd (makeAthunk (fun self => AddEdge self 0 (Ret (VNum 1))) s1) in
  state_of (adaptonCompute 1 1 s2) s2.

(** Node 0 is a ref cell; node 1 reads it with [adaptonForce], writes
    it with [adaptonRefSet], then throws. *)
Definition ex_writes_input : State :=
  let s1 := snd (adaptonRef (VNum 5) init) in
  snd (makeAthunk
         (fun _ => Force 0 (fun _ => RefSet 0 (VNum 1) (Throw (VNum 99)))) s1).

(** Node 0 is a ref cell; node 1 is a dirty thunk with an edge to it. *)
Definition ex_stale_edge : State :=
  let s1 := snd (adaptonRef (VNum 5) init) in
  let s2 := snd (makeAthunk (fun _ => Ret (VNum 1)) s1) in
  addEdge 1 0 s2.

(** Node 0 forces node 1, whose thunk throws. *)
Definition ex_nested_throw : State :=
  let s1 := snd (makeAthunk (fun _ => Force 1 Ret) init) in
  snd (makeAthunk (fun _ => Throw (VNum 99)) s1).

(** Node 0 throws; node 1 forces it under a handler that drops the
    exception, then returns 1:
    [try { adaptonForce(B) } catch (e) {}; return 1]. *)
Definition ex_caught : State :=
  let s1 := snd (makeAthunk (fun _ => Throw (VNum 2)) init) in
  snd (makeAthunk
         (fun _ => Try (Force 0 Ret) (fun _ => Ret VUndefined)
                       (fun _ => Ret (VNum 1))) s1).

(** The same, but node 1 throws after the handler:
    [try { adaptonForce(B) } catch (e) {}; throw 1]. *)
Definition ex_caught_then_throws : State :=
  let s1 := snd (makeAthunk (fun _ => Throw (VNum 2)) init) in
  snd (makeAthunk
         (fun _ => Try (Force 0 Ret) (fun _ => Ret VUndefined)
                       (fun _ => Throw (VNum 1))) s1).

(** The second demonstration of the source: node 0 is a ref cell
    holding 5, node 1 computes [adaptonForce(r) + 3]. *)
Definition ex_plus3 : State :=
  let s1 := snd (adaptonRef (VNum 5) init) in
  snd (makeAthunk
         (fun _ => Force 0 (fun x => Ret (num2 Z.add x (VNum 3)))) s1).

(** Node 0 forces node 1, node 1 forces node 2, a ref cell holding 5. *)
Definition ex_chain : State :=
  let s1 := snd (makeAthunk (fun _ => Force 1 Ret) init) in
  let s2 := snd (makeAthunk (fun _ => Force 2 Ret) s1) in
  snd (adaptonRef (VNum 5) s2).

(** [ex_plus3] after [adaptonForce] on its thunk. *)
Definition ex_plus3_forced : State :=
  state_of (force 3 1 ex_plus3) init.

(** Nodes 0, 1, 2 are ref cells holding 1, 10 and 20; node 3 forces
    node 0 and then node 2 if it read 0, node 1 otherwise. *)
Definition ex_switch : State :=
  let s1 := snd (adaptonRef (VNum 1) init) in
  let s2 := snd (adaptonRef (VNum 10) s1) in
  let s3 := snd (adaptonRef (VNum 20) s2) in
  snd (makeAthunk
         (fun _ => Force 0 (fun c => match c with
                                     | VNum 0 => Force 2 Ret
                                     | _ => Force 1 Ret
                                     end)) s3).

(** [ex_switch] after node 3 was forced and node 0 was then set to 0. *)
Definition ex_switched : State :=
  let s1 := state_of (force 3 3 ex_switch) init in
  state_or (adaptonRefSet 5 0 (VNum 0) s1) init.

(** The same, later: the thunk was forced, then the ref cell was set
    to 2. *)
Definition ex_plus3_reset : State :=
  state_or (adaptonRefSet 5 0 (VNum 2) ex_plus3_forced) init.

(** [ex_plus3] with the read made by [adaptonCompute] from the top
    level instead, and the ref cell then set to 2. *)
Definition ex_plus3_computed : State :=
  state_of (adaptonCompute 2 1 ex_plus3) init.

Definition ex_plus3_stale : State :=
  state_or (adaptonRefSet 5 0 (VNum 2) ex_plus3_computed) init.

(** The first demonstration of the source: ref cells 8 and 10, and a
    thunk that registers its two edges by hand and subtracts what
    [adaptonCompute] returns for the cells. *)
Definition ex_minus : State :=
  let s1 := snd (adaptonRef (VNum 8) init) in
  let s2 := snd (adaptonRef (VNum 10) s1) in
  snd (makeAthunk
         (fun a => AddEdge a 0
                     (AddEdge a 1
                        (Compute 0 (fun x =>
                           Compute 1 (fun y => Ret (num2 Z.sub x y))))))
         s2).

(** The last demonstration of the source, started from [ex_plus3_reset]
    forced again: a ref cell holding 4 and a thunk adding it to the
    first thunk. *)
Definition ex_sum : State :=
  let s1 := state_of (force 3 1 ex_plus3_reset) init in
  let s2 := snd (adaptonRef (VNum 4) s1) in
  snd (makeAthunk
         (fun _ => Force 1 (fun x => Force 2 (fun y =>
                                                Ret (num2 Z.add x y)))) s2).

Definition ex_sum_reset : State :=
  let s1 := state_of (force 4 3 ex_sum) init in
  let s2 := state_or (adaptonRefSet 5 0 (VNum 4) s1) init in
  state_or (adaptonRefSet 5 2 (VNum 5) s2) init.

(** The first demonstration of the source after its first read, made
    with [adaptonCompute], and the write that follows. *)
Definition ex_minus_reset : State :=
  let s1 := state_of (adaptonCompute 2 2 ex_minus) init in
  state_or (adaptonRefSet 3 0 (VNum 2) s1) init.

(** Node 0 is a ref cell holding 5; node 1 reads it with
    [adaptonCompute] and registers nothing.  The state is the one
    after node 1 was forced and node 0 was then set to 2. *)
Definition ex_unregistered : State :=
  let s1 := snd (adaptonRef (VNum 5) init) in
  let s2 := snd (makeAthunk
                   (fun _ => Compute 0 (fun x => Ret (num2 Z.add x (VNum 3))))
                   s1) in
  let s3 := state_of (force 3 1 s2) init in
  state_or (adaptonRefSet 5 0 (VNum 2) s3) init.

(** The ref cells of the second demonstration. *)
Definition refs_0_2 (x : Adapton) : bool := Nat.eqb x 0 || Nat.eqb x 2.

(** ** Further vocabulary *)

(** Two states with the same objects, the same context and the same
    call log. *)
Definition same_state (s s' : State) : Prop :=
  next s' = next s /\
  currentlyAdapting s' = currentlyAdapting s /\
  calls s' = calls s /\
  forall x, node s' x = node s x.

(** Between [s] and [s'] no clean node was dirtied or lost its cached
    result, and the thunks invoked are those of [l], most recent first:
    each once, each on a node that was dirty in [s] and is clean in
    [s']. *)
Definition ran_once (s s' : State) : Prop :=
  clean_kept s s' /\
  exists l, calls s' = l ++ calls s /\
            NoDup l /\
            forall x, In x l -> clean (node s x) = false /\
                                clean (node s' x) = true.

(** Every clean node has a handle below [N], and so has every object a
    thunk refers to. *)
Definition allocated_at (N : nat) (s : State) : Prop :=
  clean_below N s /\ forall x, handles_below N (thunk (node s x)).

(** The number of dirty nodes among the handles below [N]. *)
Definition count_dirty (N : nat) (s : State) : nat :=
  length (filter (fun x => negb (clean (node s x))) (seq 0 N)).

(** The thunks refer to handles below [N] only, and none calls
    [adaptonDirty] or [adaptonRefSet]. *)
Definition quiet_at (N : nat) (s : State) : Prop :=
  (forall x, handles_below N (thunk (node s x))) /\
  heap_only no_dirtying s.

(** ** Further examples *)

(** A thunk that reads its own node: [self => adaptonCompute(self)]. *)
Definition self_thunk (self : Adapton) : Prog := Compute self Ret.

(** The program of [src/index.ts], statement by statement, and the
    values it prints.  [None]: a call threw, or the fuel did not cover
    the recursion. *)
Definition main (fuel : nat) : option (list value) :=
  (* const r1 = adaptonRef(8); const r2 = adaptonRef(10) *)
  let (r1, s1) := adaptonRef (VNum 8) init in
  let (r2, s2) := adaptonRef (VNum 10) s1 in
  (* let a = makeAthunk(a => {
       addEdge(a, r1); addEdge(a, r2)
       return adaptonCompute(r1) - adaptonCompute(r2) }) *)
  let (a, s3) :=
    makeAthunk
      (fun a => AddEdge a r1
                  (AddEdge a r2
                     (Compute r1 (fun x =>
                        Compute r2 (fun y => Ret (num2 Z.sub x y))))))
      s2 in
  (* console.log(adaptonCompute(a)) *)
  match adaptonCompute fuel a s3 with
  | Done v1 s4 =>
  (* adaptonRefSet(r1, 2) *)
  match adaptonRefSet fuel r1 (VNum 2) s4 with
  | Some s5 =>
  (* console.log(adaptonCompute(a)) *)
  match adaptonCompute fuel a s5 with
  | Done v2 s6 =>
  (* let r = adaptonRef(5); a = makeAthunk(() => adaptonForce(r) + 3) *)
  let (r, s7) := adaptonRef (VNum 5) s6 in
  let (a', s8) :=
    makeAthunk (fun _ => Force r (fun x => Ret (num2 Z.add x (VNum 3))))
               s7 in
  (* console.log(adaptonForce(a)) *)
  match force fuel a' s8 with
  | Done v3 s9 =>
  (* adaptonRefSet(r, 2) *)
  match adaptonRefSet fuel r (VNum 2) s9 with
  | Some s10 =>
  (* console.log(adaptonForce(a)) *)
  match force fuel a' s10 with
  | Done v4 s11 =>
  (* let s = adaptonRef(4);
     let b = makeAthunk(() => adaptonForce(a) + adaptonForce(s)) *)
  let (s, s12) := adaptonRef (VNum 4) s11 in
  let (b, s13) :=
    makeAthunk (fun _ => Force a' (fun x =>
                           Force s (fun y => Ret (num2 Z.add x y))))
               s12 in
  (* console.log(adaptonForce(b)) *)
  match force fuel b s13 with
  | Done v5 s14 =>
  (* adaptonRefSet(r, 4); adaptonRefSet(s, 5) *)
  match adaptonRefSet fuel r (VNum 4) s14 with
  | Some s15 =>
  match adaptonRefSet fuel s (VNum 5) s15 with
  | Some s16 =>
  (* console.log(adaptonForce(b)) *)
  match force fuel b s16 with
  | Done v6 _ => Some [v1; v2; v3; v4; v5; v6]
  | _ => None
  end
  | None => None
  end
  | None => None
  end
  | _ => None
  end
  | _ => None
  end
  | None => None
  end
  | _ => None
  end
  | _ => None
  end
  | None => None
  end
  | _ => None
  end.

(** * Properties *)

(** ** Sets *)

Lemma set_has_In (x : Adapton) (s : list Adapton) :
  set_has x s = true <-> In x s.
Proof.
  unfold set_has. rewrite existsb_exists. split.
  - intros [y [Hy Heq]]. apply Nat.eqb_eq in Heq. now subst.
  - intros H. exists x. split; [assumption | apply Nat.eqb_refl].
Qed.

Lemma set_add_In (x y : Adapton) (s : list Adapton) :
  In y (set_add x s) <-> y = x \/ In y s.
Proof.
  unfold set_add. destruct (set_has x s) eqn:E.
  - apply set_has_In in E. split; [auto | intros [-> | H]; assumption].
  - rewrite in_app_iff. simpl. intuition.
Qed.

Lemma set_delete_In (x y : Adapton) (s : list Adapton) :
  In y (set_delete x s) <-> y <> x /\ In y s.
Proof.
  unfold set_delete. rewrite filter_In, negb_true_iff, Nat.eqb_neq.
  intuition.
Qed.

Lemma set_delete_absent (x : Adapton) (s : list Adapton) :
  ~ In x s -> set_delete x s = s.
Proof.
  unfold set_delete. induction s as [|y s IH]; simpl; intros H; [reflexivity|].
  destruct (Nat.eqb_spec x y) as [->|Hne]; simpl.
  - exfalso. apply H. now left.
  - f_equal. apply IH. intros Hin. apply H. now right.
Qed.

(** ** Field access after an update *)

Lemma node_upd (a : Adapton) (f : Node -> Node) (st : State) (x : Adapton) :
  node (upd a f st) x = if Nat.eqb x a then f (node st x) else node st x.
Proof. reflexivity. Qed.

Lemma node_addEdge (a b : Adapton) (st : State) (x : Adapton) :
  node (addEdge a b st) x =
  mkNode (thunk (node st x)) (result (node st x))
         (if Nat.eqb x a then set_add b (sub (node st x)) else sub (node st x))
         (if Nat.eqb x b then set_add a (super (node st x))
          else super (node st x))
         (clean (node st x)).
Proof.
  unfold addEdge. rewrite !node_upd.
  destruct (Nat.eqb x a), (Nat.eqb x b), (node st x); reflexivity.
Qed.

Lemma node_deleteEdge (a b : Adapton) (st : State) (x : Adapton) :
  node (deleteEdge a b st) x =
  mkNode (thunk (node st x)) (result (node st x))
         (if Nat.eqb x a then set_delete b (sub (node st x))
          else sub (node st x))
         (if Nat.eqb x b then set_delete a (super (node st x))
          else super (node st x))
         (clean (node st x)).
Proof.
  unfold deleteEdge. rewrite !node_upd.
  destruct (Nat.eqb x a), (Nat.eqb x b), (node st x); reflexivity.
Qed.

Lemma node_set_clean (a : Adapton) (b : bool) (st : State) (x : Adapton) :
  node (set_clean a b st) x =
  if Nat.eqb x a then with_clean b (node st x) else node st x.
Proof. reflexivity. Qed.

Lemma node_makeAthunk (f : Adapton -> Prog) (s : State) (x : Adapton) :
  node (snd (makeAthunk f s)) x =
  if Nat.eqb x (next s) then mkNode (f (next s)) VUndefined [] [] false
  else node s x.
Proof. reflexivity. Qed.

Lemma node_set_result (a : Adapton) (v : value) (st : State) (x : Adapton) :
  node (set_result a v st) x =
  if Nat.eqb x a then with_result v (node st x) else node st x.
Proof. reflexivity. Qed.

Lemma delete_all_In (l s : list Adapton) (y : Adapton) :
  In y (delete_all l s) <-> In y s /\ ~ In y l.
Proof.
  unfold delete_all. revert s. induction l as [|x l IH]; simpl; intros s.
  - tauto.
  - rewrite IH, set_delete_In. intuition.
Qed.

Lemma delete_all_self (s : list Adapton) : delete_all s s = [].
Proof.
  destruct (delete_all s s) as [|y r] eqn:E; [reflexivity|].
  assert (H : In y (delete_all s s)) by (rewrite E; now left).
  apply delete_all_In in H. tauto.
Qed.

Lemma node_fold_deleteEdge (a : Adapton) (l : list Adapton) (st : State)
  (x : Adapton) :
  node (fold_left (fun s y => deleteEdge a y s) l st) x =
  mkNode (thunk (node st x)) (result (node st x))
         (if Nat.eqb x a then delete_all l (sub (node st x))
          else sub (node st x))
         (if set_has x l then set_delete a (super (node st x))
          else super (node st x))
         (clean (node st x)).
Proof.
  revert st. induction l as [|y l IH]; intros st.
  - simpl. destruct (Nat.eqb x a), (node st x); reflexivity.
  - cbn [fold_left]. rewrite IH, node_deleteEdge.
    cbn [thunk result sub super clean].
    unfold delete_all. cbn [fold_left set_has existsb].
    fold (set_has x l).
    rewrite (Nat.eqb_sym x y).
    destruct (Nat.eqb_spec y x) as [->|Hne]; cbn [orb].
    + destruct (Nat.eqb x a); f_equal;
        (destruct (set_has x l); [|reflexivity]);
        apply set_delete_absent; rewrite set_delete_In; tauto.
    + destruct (Nat.eqb x a); reflexivity.
Qed.

Lemma node_clear_sub (a : Adapton) (st : State) (x : Adapton) :
  node (clear_sub a st) x =
  mkNode (thunk (node st x)) (result (node st x))
         (if Nat.eqb x a then [] else sub (node st x))
         (if set_has x (sub (node st a)) then set_delete a (super (node st x))
          else super (node st x))
         (clean (node st x)).
Proof.
  unfold clear_sub. rewrite node_fold_deleteEdge.
  destruct (Nat.eqb_spec x a) as [->|_]; [|reflexivity].
  now rewrite delete_all_self.
Qed.

Lemma fold_deleteEdge_frame (a : Adapton) (l : list Adapton) (st : State) :
  let st' := fold_left (fun s y => deleteEdge a y s) l st in
  next st' = next st /\ currentlyAdapting st' = currentlyAdapting st /\
  calls st' = calls st.
Proof.
  revert st. induction l as [|y l IH]; intros st; simpl; [auto|].
  destruct (IH (deleteEdge a y st)) as (H1 & H2 & H3).
  rewrite H1, H2, H3. auto.
Qed.

Lemma clear_sub_frame (a : Adapton) (st : State) :
  next (clear_sub a st) = next st /\
  currentlyAdapting (clear_sub a st) = currentlyAdapting st /\
  calls (clear_sub a st) = calls st.
Proof. apply fold_deleteEdge_frame. Qed.

(** ** The two branches of [adaptonCompute] *)

Lemma adaptonCompute_clean (fuel : nat) (a : Adapton) (st : State) :
  clean (node st a) = true ->
  adaptonCompute fuel a st = Done (result (node st a)) st.
Proof. intros H. destruct fuel; simpl; now rewrite H. Qed.

Lemma node_before_thunk (a : Adapton) (st : State) (x : Adapton) :
  node (before_thunk a st) x =
  mkNode (thunk (node st x)) (result (node st x))
         (if Nat.eqb x a then [] else sub (node st x))
         (if set_has x (sub (node st a)) then set_delete a (super (node st x))
          else super (node st x))
         (if Nat.eqb x a then true else clean (node st x)).
Proof.
  unfold before_thunk, log_call, node. cbn [heap].
  change (node (set_clean a true (clear_sub a st)) x = 
          mkNode (thunk (node st x)) (result (node st x))
         (if Nat.eqb x a then [] else sub (node st x))
         (if set_has x (sub (node st a)) then set_delete a (super (node st x))
          else super (node st x))
         (if Nat.eqb x a then true else clean (node st x))).
  rewrite node_set_clean, node_clear_sub.
  destruct (Nat.eqb x a); reflexivity.
Qed.

Lemma adaptonCompute_dirty (fuel : nat) (a : Adapton) (st : State) :
  clean (node st a) = false ->
  adaptonCompute (S fuel) a st =
  match exec fuel (thunk (node st a)) (before_thunk a st) with
  | Done v st3 => adaptonCompute fuel a (set_result a v st3)
  | Threw e st3 => Threw e st3
  | OutOfFuel => OutOfFuel
  end.
Proof.
  intros H. cbn [adaptonCompute]. rewrite H.
  change (log_call a (set_clean a true (clear_sub a st)))
    with (before_thunk a st).
  replace (thunk (node (set_clean a true (clear_sub a st)) a))
    with (thunk (node st a)).
  - unfold exec. now destruct (run _ _ _ _).
  - rewrite node_set_clean, node_clear_sub, Nat.eqb_refl. reflexivity.
Qed.

(** ** The demonstrations of the source *)

Lemma demo_8_minus_10 : answer (adaptonCompute 2 2 ex_minus) = Some (VNum (-2)).
Proof. vm_compute. reflexivity. Qed.

Lemma demo_2_minus_10 :
  answer (adaptonCompute 2 2
            (state_or (adaptonRefSet 5 0 (VNum 2)
                         (state_of (adaptonCompute 2 2 ex_minus) init))
                      init))
  = Some (VNum (-8)).
Proof. vm_compute. reflexivity. Qed.

Lemma demo_a_expected_8 : answer (force 3 1 ex_plus3) = Some (VNum 8).
Proof. vm_compute. reflexivity. Qed.

Lemma demo_a_expected_5 : answer (force 3 1 ex_plus3_reset) = Some (VNum 5).
Proof. vm_compute. reflexivity. Qed.

Lemma demo_b_expected_9 : answer (force 4 3 ex_sum) = Some (VNum 9).
Proof. vm_compute. reflexivity. Qed.

Lemma demo_b_expected_12 : answer (force 4 3 ex_sum_reset) = Some (VNum 12).
Proof. vm_compute. reflexivity. Qed.

(** ** Memoization *)

(** C2.  A clean node is answered from its cache: [adaptonCompute]
    returns [result] and the state it was called in, whatever the fuel.
    The state carries the log of thunk invocations, so the thunk is not
    invoked. *)
Theorem compute_clean_is_cached (fuel : nat) (a : Adapton) (st : State) :
  clean (node st a) = true ->
  exists st',
    adaptonCompute fuel a st = Done (result (node st a)) st' /\
    st' = st /\ calls st' = calls st.
Proof.
  intros H. exists st. rewrite adaptonCompute_clean by assumption. auto.
Qed.

Lemma compute_clean_is_cached_witness :
  let st := snd (adaptonRef (VNum 8) init) in
  clean (node st 0) = true /\
  exists st',
    adaptonCompute 0 0 st = Done (result (node st 0)) st' /\
    st' = st /\ calls st' = calls st.
Proof.
  split; [reflexivity|].
  apply (compute_clean_is_cached 0 0 (snd (adaptonRef (VNum 8) init))).
  reflexivity.
Defined.

(** ** Recomputation of a dirty node *)

(** C5.  On a dirty node [adaptonCompute] runs the thunk in a state
    [st2] where the node has no dependency left, no former dependency
    lists it as a dependent, its flag is already [true], and nothing
    else has moved; then it stores the value the thunk returned and
    answers with [adaptonCompute] on the same node.  The store writes
    the value [v] the thunk returned into the node's [result] and
    nothing else; the recursive call then returns that value from the
    cache when the thunk left the node clean. *)
Theorem compute_dirty_steps (fuel : nat) (a : Adapton) (st : State) :
  clean (node st a) = false ->
  exists st2,
    sub (node st2 a) = [] /\
    (forall x, In x (sub (node st a)) -> ~ In a (super (node st2 x))) /\
    clean (node st2 a) = true /\
    calls st2 = a :: calls st /\
    result (node st2 a) = result (node st a) /\
    currentlyAdapting st2 = currentlyAdapting st /\
    (forall x, x <> a -> sub (node st2 x) = sub (node st x) /\
                         clean (node st2 x) = clean (node st x) /\
                         result (node st2 x) = result (node st x)) /\
    (forall x y, y <> a ->
                 (In y (super (node st2 x)) <-> In y (super (node st x)))) /\
    adaptonCompute (S fuel) a st =
    match exec fuel (thunk (node st a)) st2 with
    | Done v st3 => adaptonCompute fuel a (set_result a v st3)
    | Threw e st3 => Threw e st3
    | OutOfFuel => OutOfFuel
    end /\
    forall v st3,
      exec fuel (thunk (node st a)) st2 = Done v st3 ->
      result (node (set_result a v st3) a) = v /\
      thunk (node (set_result a v st3) a) = thunk (node st3 a) /\
      sub (node (set_result a v st3) a) = sub (node st3 a) /\
      super (node (set_result a v st3) a) = super (node st3 a) /\
      clean (node (set_result a v st3) a) = clean (node st3 a) /\
      (forall x, x <> a -> node (set_result a v st3) x = node st3 x) /\
      next (set_result a v st3) = next st3 /\
      currentlyAdapting (set_result a v st3) = currentlyAdapting st3 /\
      calls (set_result a v st3) = calls st3 /\
      (clean (node st3 a) = true ->
       adaptonCompute (S fuel) a st = Done v (set_result a v st3)).
Proof.
  intros H. exists (before_thunk a st).
  assert (Hn := node_before_thunk a st).
  split; [rewrite Hn; cbn [sub]; now rewrite Nat.eqb_refl|].
  split.
  { intros x Hx. rewrite Hn. cbn [super].
    apply set_has_In in Hx. rewrite Hx, set_delete_In. tauto. }
  split; [rewrite Hn; cbn [clean]; now rewrite Nat.eqb_refl|].
  split; [unfold before_thunk; cbn; f_equal; apply clear_sub_frame|].
  split; [now rewrite Hn|].
  split; [unfold before_thunk; cbn; apply clear_sub_frame|].
  split.
  { intros x Hx. apply Nat.eqb_neq in Hx. rewrite Hn.
    cbn [sub clean result]. now rewrite Hx. }
  split.
  { intros x y Hy. rewrite Hn. cbn [super].
    destruct (set_has x (sub (node st a))); [|tauto].
    rewrite set_delete_In. tauto. }
  split; [now apply adaptonCompute_dirty|].
  intros v st3 E. rewrite node_set_result, Nat.eqb_refl.
  cbn [with_result result thunk sub super clean].
  repeat (split; [reflexivity|]).
  split.
  { intros x Hx. apply Nat.eqb_neq in Hx.
    now rewrite node_set_result, Hx. }
  repeat (split; [reflexivity|]).
  intros Hc. rewrite adaptonCompute_dirty by exact H. rewrite E.
  rewrite adaptonCompute_clean
    by (rewrite node_set_result, Nat.eqb_refl; exact Hc).
  now rewrite node_set_result, Nat.eqb_refl.
Qed.

Lemma compute_dirty_steps_witness :
  let st := snd (makeAthunk (fun _ => Ret (VNum 1)) init) in
  clean (node st 0) = false /\
  exists st2,
    sub (node st2 0) = [] /\ clean (node st2 0) = true /\
    calls st2 = [0] /\
    exec 0 (thunk (node st 0)) st2 = Done (VNum 1) st2 /\
    result (node (set_result 0 (VNum 1) st2) 0) = VNum 1 /\
    adaptonCompute 1 0 st = Done (VNum 1) (set_result 0 (VNum 1) st2).
Proof.
  split; [reflexivity|].
  destruct (compute_dirty_steps 0 0
              (snd (makeAthunk (fun _ => Ret (VNum 1)) init)) eq_refl)
    as (st2 & H1 & _ & H3 & H4 & _ & _ & _ & _ & _ & H10).
  exists st2.
  destruct (H10 (VNum 1) st2 eq_refl)
    as (K1 & _ & _ & _ & _ & _ & _ & _ & _ & K2).
  auto 8.
Defined.

(** ** Forcing *)

Lemma force_unfold (fuel : nat) (a : Adapton) (st : State) :
  force fuel a st =
  match adaptonCompute fuel a (set_context (Some a) st) with
  | Done v st1 =>
    match currentlyAdapting st with
    | Some c => Done v (addEdge c a (set_context (Some c) st1))
    | None => Done v (set_context None st1)
    end
  | Threw e st1 => Threw e st1
  | OutOfFuel => OutOfFuel
  end.
Proof.
  unfold force, adaptonForce.
  destruct (adaptonCompute fuel a (set_context (Some a) st)); try reflexivity.
  cbn. now destruct (currentlyAdapting st).
Qed.

(** C6.  [force] computes the node with the context set to the node,
    puts the saved context back, and adds the edge from the outer
    context to the node exactly when that context is a node.  A dirty
    node's thunk runs with the node as context.  When [A] forces [B]
    and [B] forces [C] from the top level, [B] ends up as the one
    dependency of [A] and [C] as the one of [B], with the matching
    entries on the dependents' side, and the context is back to null. *)
Theorem force_threads_context :
  (forall fuel a st v st1,
      adaptonCompute fuel a (set_context (Some a) st) = Done v st1 ->
      exists st',
        force fuel a st = Done v st' /\
        currentlyAdapting st' = currentlyAdapting st /\
        (forall c, currentlyAdapting st = Some c ->
                   st' = addEdge c a (set_context (Some c) st1) /\
                   In a (sub (node st' c)) /\ In c (super (node st' a))) /\
        (currentlyAdapting st = None -> st' = set_context None st1)) /\
  (forall a st,
      currentlyAdapting (before_thunk a (set_context (Some a) st)) = Some a) /\
  (forall fuel A B C st,
      A <> B -> B <> C -> A <> C ->
      currentlyAdapting st = None ->
      clean (node st A) = false -> thunk (node st A) = Force B Ret ->
      clean (node st B) = false -> thunk (node st B) = Force C Ret ->
      clean (node st C) = true ->
      exists st',
        force (S (S fuel)) A st = Done (result (node st C)) st' /\
        currentlyAdapting st' = None /\
        sub (node st' A) = [B] /\ sub (node st' B) = [C] /\
        In A (super (node st' B)) /\ In B (super (node st' C))).
Proof.
  split; [|split].
  - intros fuel a st v st1 H. rewrite force_unfold, H.
    destruct (currentlyAdapting st) as [c|] eqn:Ec.
    + eexists. split; [reflexivity|]. split; [reflexivity|]. split.
      * intros c' [= <-]. split; [reflexivity|].
        rewrite !node_addEdge. cbn [sub super]. rewrite !Nat.eqb_refl.
        split.
        -- destruct (Nat.eqb c a); apply set_add_In; auto.
        -- apply set_add_In; auto.
      * discriminate.
    + eexists. split; [reflexivity|]. split; [reflexivity|]. split.
      * discriminate.
      * reflexivity.
  - intros a st. unfold before_thunk. cbn.
    apply (clear_sub_frame a (set_context (Some a) st)).
  - intros fuel A B C st HAB HBC HAC Hctx HA HtA HB HtB HC.
    assert (EAB : Nat.eqb A B = false) by now apply Nat.eqb_neq.
    assert (EBA : Nat.eqb B A = false) by (apply Nat.eqb_neq; congruence).
    assert (EBC : Nat.eqb B C = false) by now apply Nat.eqb_neq.
    assert (ECB : Nat.eqb C B = false) by (apply Nat.eqb_neq; congruence).
    assert (EAC : Nat.eqb A C = false) by now apply Nat.eqb_neq.
    assert (ECA : Nat.eqb C A = false) by (apply Nat.eqb_neq; congruence).
    rewrite force_unfold, Hctx.
    rewrite adaptonCompute_dirty by exact HA.
    change (thunk (node (set_context (Some A) st) A)) with (thunk (node st A)).
    rewrite HtA. unfold exec. cbn [run]. fold (force (S fuel)).
    set (s1 := before_thunk A (set_context (Some A) st)).
    assert (Hs1 : forall x, node s1 x = _) by
      (intros x; exact (node_before_thunk A (set_context (Some A) st) x)).
    assert (Hc1 : currentlyAdapting s1 = Some A) by
      (unfold s1, before_thunk; cbn;
       apply (clear_sub_frame A (set_context (Some A) st))).
    rewrite force_unfold, Hc1.
    assert (HB1 : clean (node (set_context (Some B) s1) B) = false).
    { change (clean (node s1 B) = false). rewrite Hs1. cbn [clean].
      now rewrite EBA. }
    rewrite adaptonCompute_dirty by exact HB1.
    change (thunk (node (set_context (Some B) s1) B)) with (thunk (node s1 B)).
    rewrite Hs1. cbn [thunk].
    change (thunk (node (set_context (Some A) st) B)) with (thunk (node st B)).
    rewrite HtB. unfold exec. cbn [run]. fold (force fuel).
    set (s2 := before_thunk B (set_context (Some B) s1)).
    assert (Hs2 : forall x, node s2 x = _) by
      (intros x; exact (node_before_thunk B (set_context (Some B) s1) x)).
    assert (Hc2 : currentlyAdapting s2 = Some B) by
      (unfold s2, before_thunk; cbn;
       apply (clear_sub_frame B (set_context (Some B) s1))).
    rewrite force_unfold, Hc2.
    assert (HC2 : clean (node (set_context (Some C) s2) C) = true).
    { change (clean (node s2 C) = true). rewrite Hs2. cbn [clean].
      rewrite ECB. change (clean (node s1 C) = true). rewrite Hs1.
      cbn [clean]. now rewrite ECA. }
    rewrite adaptonCompute_clean by exact HC2.
    set (v := result (node (set_context (Some C) s2) C)).
    assert (Hv : v = result (node st C)).
    { unfold v. change (result (node s2 C) = result (node st C)).
      rewrite Hs2. cbn [result].
      change (result (node s1 C) = result (node st C)).
      now rewrite Hs1. }
    set (s3 := addEdge B C (set_context (Some B) (set_context (Some C) s2))).
    assert (Hs3 : forall x, node s3 x = _) by
      (intros x; exact (node_addEdge B C _ x)).
    assert (HB3 : clean (node (set_result B v s3) B) = true).
    { rewrite node_set_result, Nat.eqb_refl. cbn [with_result clean].
      rewrite Hs3. cbn [clean].
      change (clean (node s2 B) = true). rewrite Hs2. cbn [clean].
      now rewrite Nat.eqb_refl. }
    rewrite adaptonCompute_clean by exact HB3.
    set (s4 := set_result B v s3).
    set (w := result (node s4 B)).
    assert (Hw : w = v).
    { unfold w, s4. rewrite node_set_result, Nat.eqb_refl. reflexivity. }
    set (s5 := addEdge A B (set_context (Some A) s4)).
    assert (Hs5 : forall x, node s5 x = _) by
      (intros x; exact (node_addEdge A B _ x)).
    assert (HA5 : clean (node (set_result A w s5) A) = true).
    { rewrite node_set_result, Nat.eqb_refl. cbn [with_result clean].
      rewrite Hs5. cbn [clean]. change (clean (node s4 A) = true).
      unfold s4. rewrite node_set_result, EAB. rewrite Hs3. cbn [clean].
      change (clean (node s2 A) = true). rewrite Hs2. cbn [clean].
      rewrite EAB. change (clean (node s1 A) = true). rewrite Hs1.
      cbn [clean]. now rewrite Nat.eqb_refl. }
    rewrite adaptonCompute_clean by exact HA5.
    set (s6 := set_result A w s5).
    assert (HsubA : sub (node s4 A) = []).
    { unfold s4. rewrite node_set_result, EAB, Hs3. cbn [sub].
      rewrite EAB. change (sub (node s2 A) = []). rewrite Hs2. cbn [sub].
      rewrite EAB. change (sub (node s1 A) = []). rewrite Hs1. cbn [sub].
      now rewrite Nat.eqb_refl. }
    assert (HsubB : sub (node s4 B) = [C]).
    { unfold s4. rewrite node_set_result, Nat.eqb_refl.
      cbn [with_result sub]. rewrite Hs3. cbn [sub].
      rewrite Nat.eqb_refl. change (set_add C (sub (node s2 B)) = [C]).
      rewrite Hs2. cbn [sub]. now rewrite Nat.eqb_refl. }
    assert (HsupC : In B (super (node s4 C))).
    { unfold s4. rewrite node_set_result, ECB, Hs3. cbn [super].
      rewrite Nat.eqb_refl. apply set_add_In. now left. }
    exists (set_context None s6).
    split.
    { f_equal. unfold s6. rewrite node_set_result, Nat.eqb_refl.
      cbn [with_result result]. now rewrite Hw, Hv. }
    split; [reflexivity|].
    change (node (set_context None s6)) with (node s6). unfold s6.
    rewrite !node_set_result, Nat.eqb_refl, EBA, ECA.
    cbn [with_result sub super]. rewrite !Hs5. cbn [sub super].
    change (node (set_context (Some A) s4)) with (node s4).
    rewrite !Nat.eqb_refl, EBA, ECB, HsubA, HsubB.
    split; [reflexivity|]. split; [reflexivity|].
    split; [apply set_add_In; now left | exact HsupC].
Qed.

(** ** A proof rule for the engine

    [adaptonCompute], [adaptonForce] and the run of a thunk call one
    another.  The rule below does the induction over them once: given
    an invariant [I] of the state, a relation [RD] between the state a
    call starts in and the state it returns in, and a relation [RT]
    between the state a call starts in and the state it throws in, it
    asks for what each write of the engine does to them. *)

Section Engine_rule.

Variable ok : Prog -> Prop.
Variables valid forcible : Adapton -> Prop.
Variable I : State -> Prop.
Variables RD RT : State -> State -> Prop.

Hypothesis rule : engine_rule ok valid forcible I RD RT.

Let RD_refl := r_RD_refl _ _ _ _ _ _ rule.
Let RT_refl := r_RT_refl _ _ _ _ _ _ rule.
Let RD_trans := r_RD_trans _ _ _ _ _ _ rule.
Let RT_trans := r_RT_trans _ _ _ _ _ _ rule.
Let I_RD := r_I_RD _ _ _ _ _ _ rule.
Let I_ok := r_I_ok _ _ _ _ _ _ rule.
Let ok_GetResult := r_GetResult _ _ _ _ _ _ rule.
Let ok_Compute := r_Compute _ _ _ _ _ _ rule.
Let ok_Force := r_Force _ _ _ _ _ _ rule.
Let forcible_valid := r_forcible_valid _ _ _ _ _ _ rule.
Let ok_AddEdge := r_AddEdge _ _ _ _ _ _ rule.
Let ok_DeleteEdge := r_DeleteEdge _ _ _ _ _ _ rule.
Let ok_Dirty := r_Dirty _ _ _ _ _ _ rule.
Let ok_RefSet := r_RefSet _ _ _ _ _ _ rule.
Let C_enter := r_C_enter _ _ _ _ _ _ rule.
Let C_store := r_C_store _ _ _ _ _ _ rule.
Let C_raise := r_C_raise _ _ _ _ _ _ rule.
Let F_enter := r_F_enter _ _ _ _ _ _ rule.
Let F_exit := r_F_exit _ _ _ _ _ _ rule.
Let F_raise := r_F_raise _ _ _ _ _ _ rule.
Let ok_Try := r_Try _ _ _ _ _ _ rule.

Lemma force_rule (compute : Adapton -> State -> Outcome) :
  (forall a s, valid a -> I s -> related RD RT s (compute a s)) ->
  (forall a s v s', clean (node s a) = true ->
                    compute a s = Done v s' -> s' = s) ->
  forall a s, forcible a -> I s ->
              related RD RT s (adaptonForce compute a s).
Proof.
  intros Hc Hclean a s Ha Hs. unfold adaptonForce.
  assert (H := Hc a _ (forcible_valid a Ha) (F_enter s a Ha Hs)).
  destruct (compute a (set_context (Some a) s)) as [v s1|e s1|] eqn:E;
    cbn in *.
  - assert (Hx : RD s (force_exit s a s1)).
    { apply F_exit; auto. intros Hcl. eapply Hclean; eauto. }
    unfold force_exit in Hx. now destruct (currentlyAdapting s).
  - now apply F_raise with a.
  - exact Logic.I.
Qed.

Lemma run_rule (compute : Adapton -> State -> Outcome)
      (dirty : Adapton -> State -> option State) :
  (forall a s, valid a -> I s -> related RD RT s (compute a s)) ->
  (forall a s v s', clean (node s a) = true ->
                    compute a s = Done v s' -> s' = s) ->
  (exists fuel, dirty = adaptonDirty fuel) ->
  forall p s, ok p -> I s -> related RD RT s (run compute dirty p s).
Proof.
  intros Hc Hclean [fuel ->] p.
  induction p as [v|e|a k IH|a k IH|a k IH|a b k IH|a b k IH|a k IH|a v k IH
                  |body IHb h IHh k IH];
    intros s Hok Hs; cbn [run].
  - now apply RD_refl.
  - now apply RT_refl.
  - apply IH; eauto.
  - destruct (ok_Compute a k Hok) as [Ha Hk].
    assert (H := Hc a s Ha Hs).
    destruct (compute a s) as [v s1|e s1|]; cbn in *; auto.
    assert (H1 := IH v s1 (Hk v) (I_RD s s1 Hs H)).
    destruct (run _ _ (k v) s1); cbn in *; eauto.
  - destruct (ok_Force a k Hok) as [Ha Hk].
    assert (H := force_rule compute Hc Hclean a s Ha Hs).
    destruct (adaptonForce compute a s) as [v s1|e s1|]; cbn in *; auto.
    assert (H1 := IH v s1 (Hk v) (I_RD s s1 Hs H)).
    destruct (run _ _ (k v) s1); cbn in *; eauto.
  - destruct (ok_AddEdge a b k Hok) as [Hk Hr].
    assert (H := Hr s Hs).
    assert (H1 := IH _ Hk (I_RD _ _ Hs H)).
    destruct (run _ _ k (addEdge a b s)); cbn in *; eauto.
  - destruct (ok_DeleteEdge a b k Hok) as [Hk Hr].
    assert (H := Hr s Hs).
    assert (H1 := IH _ Hk (I_RD _ _ Hs H)).
    destruct (run _ _ k (deleteEdge a b s)); cbn in *; eauto.
  - destruct (ok_Dirty a k Hok) as [Hk Hr].
    destruct (adaptonDirty fuel a s) as [s1|] eqn:E; cbn; auto.
    assert (H := Hr _ _ _ Hs E).
    assert (H1 := IH _ Hk (I_RD _ _ Hs H)).
    destruct (run _ _ k s1); cbn in *; eauto.
  - destruct (ok_RefSet a v k Hok) as [Hk Hr].
    destruct (adaptonDirty fuel a (set_result a v s)) as [s1|] eqn:E;
      cbn; auto.
    assert (H := Hr _ _ _ Hs E).
    assert (H1 := IH _ Hk (I_RD _ _ Hs H)).
    destruct (run _ _ k s1); cbn in *; eauto.
  - destruct (ok_Try body h k Hok) as (Hb & Hh & Hk & IRT & CD & CT).
    assert (H := IHb s Hb Hs).
    destruct (run _ _ body s) as [v s1|e s1|]; cbn in *; auto.
    + assert (H1 := IH v s1 (Hk v) (I_RD s s1 Hs H)).
      destruct (run _ _ (k v) s1); cbn in *; eauto.
    + assert (H1 := IHh e s1 (Hh e) (IRT s s1 Hs H)).
      destruct (run _ _ (h e) s1) as [v s2|e2 s2|]; cbn in *; eauto.
      assert (H2 := CD s s1 s2 Hs H H1).
      assert (H3 := IH v s2 (Hk v) (I_RD s s2 Hs H2)).
      destruct (run _ _ (k v) s2); cbn in *; eauto.
Qed.

Lemma compute_rule (fuel : nat) :
  forall a s, valid a -> I s -> related RD RT s (adaptonCompute fuel a s).
Proof.
  induction fuel as [|fuel IH]; intros a s Ha Hs.
  - cbn. destruct (clean (node s a)); cbn; auto.
  - destruct (clean (node s a)) eqn:Ecl.
    + rewrite adaptonCompute_clean by assumption. cbn. auto.
    + rewrite adaptonCompute_dirty by assumption.
      assert (Hrun := run_rule (adaptonCompute fuel) (adaptonDirty fuel) IH).
      assert (H := Hrun
                     (fun a s v s' Hcl Heq =>
                        let E := adaptonCompute_clean fuel a s Hcl in
                        eq_sym (f_equal (fun o => match o with
                                                  | Done _ x => x
                                                  | _ => s end)
                                        (eq_trans (eq_sym E) Heq)))
                     (ex_intro _ fuel eq_refl)
                     (thunk (node s a)) (before_thunk a s)
                     (I_ok s a Hs) (C_enter s a Ha Hs Ecl)).
      unfold exec.
      destruct (run _ _ (thunk (node s a)) (before_thunk a s))
        as [v s3|e s3|]; cbn in *; auto.
      * assert (H1 := C_store s a s3 v Ha Hs Ecl H).
        assert (H2 := IH a _ Ha (I_RD _ _ Hs H1)).
        destruct (adaptonCompute fuel a (set_result a v s3)); cbn in *; eauto.
      * eapply C_raise; eauto.
Qed.

Lemma exec_rule (fuel : nat) (p : Prog) (s : State) :
  ok p -> I s -> related RD RT s (exec fuel p s).
Proof.
  intros Hp Hs. unfold exec. apply run_rule; auto.
  - intros a s0. apply compute_rule.
  - intros a s0 v s' Hcl Heq.
    rewrite adaptonCompute_clean in Heq by assumption. congruence.
  - now exists fuel.
Qed.

Lemma forcing_rule (fuel : nat) (a : Adapton) (s : State) :
  forcible a -> I s -> related RD RT s (force fuel a s).
Proof.
  intros Ha Hs. unfold force. apply force_rule; auto.
  - intros a0 s0. apply compute_rule.
  - intros a0 s0 v s' Hcl Heq.
    rewrite adaptonCompute_clean in Heq by assumption. congruence.
Qed.

End Engine_rule.

Arguments compute_rule {ok valid forcible I RD RT} rule fuel a s _ _.
Arguments forcing_rule {ok valid forcible I RD RT} rule fuel a s _ _.
Arguments exec_rule {ok valid forcible I RD RT} rule fuel p s _ _.

(** ** Dirtying *)

Lemma same_but_clean_refl (st : State) : same_but_clean st st.
Proof. unfold same_but_clean. repeat split. Qed.

Lemma same_but_clean_trans (s1 s2 s3 : State) :
  same_but_clean s1 s2 -> same_but_clean s2 s3 -> same_but_clean s1 s3.
Proof.
  intros (A1 & A2 & A3 & A4) (B1 & B2 & B3 & B4).
  unfold same_but_clean. rewrite B1, B2, B3. repeat split; auto;
    destruct (A4 x) as (? & ? & ? & ?), (B4 x) as (? & ? & ? & ?); congruence.
Qed.

Lemma same_but_clean_set_clean (a : Adapton) (b : bool) (st : State) :
  same_but_clean st (set_clean a b st).
Proof.
  unfold same_but_clean. repeat split; rewrite node_set_clean;
    destruct (Nat.eqb x a); reflexivity.
Qed.

Lemma clean_path_clean (st : State) (n x : Adapton) :
  clean_path st n x -> clean (node st x) = true.
Proof. now destruct 1. Qed.

Lemma clean_path_root (st : State) (n x : Adapton) :
  clean_path st n x -> clean (node st n) = true.
Proof. induction 1; assumption. Qed.

Lemma clean_path_lift (st st' : State) (n x : Adapton) :
  (forall y, super (node st' y) = super (node st y)) ->
  (forall y, clean (node st' y) = true -> clean (node st y) = true) ->
  clean_path st' n x -> clean_path st n x.
Proof.
  intros Hs Hc. induction 1 as [H|x y _ IH Hin Hy].
  - apply cp_here. auto.
  - apply cp_step with x; auto. now rewrite <- Hs.
Qed.

Lemma clean_path_trans (st : State) (n x y : Adapton) :
  clean_path st n x -> clean_path st x y -> clean_path st n y.
Proof.
  intros Hnx. induction 1 as [H|y z _ IH Hin Hz]; [assumption|].
  now apply cp_step with y.
Qed.

Lemma dirtied_nil (st : State) : dirtied st st [].
Proof.
  unfold dirtied. split; [apply same_but_clean_refl|].
  repeat split; try tauto; intros; try congruence. contradiction.
Qed.

Lemma dirtied_skip (st : State) (a : Adapton) :
  clean (node st a) = false -> dirtied st st [a].
Proof.
  intros H. unfold dirtied. split; [apply same_but_clean_refl|].
  repeat split; try tauto; intros; try congruence.
  destruct H0 as [<-|[]]. assumption.
Qed.

Lemma dirtied_cons (st st1 st' : State) (y : Adapton) (l : list Adapton) :
  dirtied st st1 [y] -> dirtied st1 st' l -> dirtied st st' (y :: l).
Proof.
  intros (A0 & A1 & A2 & A3 & A4) (B0 & B1 & B2 & B3 & B4).
  assert (Hsup : forall x, super (node st1 x) = super (node st x))
    by (intros x; apply A0).
  unfold dirtied. split; [eapply same_but_clean_trans; eauto|].
  repeat split.
  - auto.
  - intros x Hx Hx'. destruct (clean (node st1 x)) eqn:E.
    + destruct (B2 x E Hx') as (r & Hr & Hp). exists r. split; [now right|].
      eapply clean_path_lift; eauto.
    + destruct (A2 x Hx E) as (r & [Heq|[]] & Hp). subst r.
      exists y. split; [now left | assumption].
  - intros r [<-|Hr]; [|auto].
    destruct (clean (node st' y)) eqn:E; [|reflexivity].
    apply B1 in E. rewrite A3 in E; [discriminate | now left].
  - intros x z Hx Hx' Hin. destruct (clean (node st1 x)) eqn:E.
    + apply B4 with x; auto. now rewrite Hsup.
    + assert (Hz := A4 x z Hx E Hin).
      destruct (clean (node st' z)) eqn:E'; [|reflexivity].
      apply B1 in E'. congruence.
Qed.

Lemma dirtied_root (st st' : State) (a : Adapton) :
  clean (node st a) = true ->
  dirtied (set_clean a false st) st' (super (node st a)) ->
  dirtied st st' [a].
Proof.
  intros Ha (B0 & B1 & B2 & B3 & B4).
  assert (Hn : forall x, node (set_clean a false st) x =
                         if Nat.eqb x a then with_clean false (node st x)
                         else node st x)
    by (intros x; apply node_set_clean).
  assert (Hcl : forall x, clean (node (set_clean a false st) x) = true ->
                          clean (node st x) = true).
  { intros x. rewrite Hn. destruct (Nat.eqb x a); [discriminate|auto]. }
  assert (Hsup : forall x, super (node (set_clean a false st) x) =
                           super (node st x)).
  { intros x. rewrite Hn. now destruct (Nat.eqb x a). }
  assert (Ha' : clean (node st' a) = false).
  { destruct (clean (node st' a)) eqn:E; [|reflexivity].
    apply B1 in E. rewrite Hn, Nat.eqb_refl in E. discriminate. }
  unfold dirtied. split.
  { eapply same_but_clean_trans; [apply same_but_clean_set_clean|eassumption]. }
  repeat split.
  - auto.
  - intros x Hx Hx'. exists a. split; [now left|].
    destruct (Nat.eqb_spec x a) as [->|Hne]; [now apply cp_here|].
    assert (E : clean (node (set_clean a false st) x) = true).
    { rewrite Hn. apply Nat.eqb_neq in Hne. now rewrite Hne. }
    destruct (B2 x E Hx') as (r & Hr & Hp).
    apply clean_path_trans with r.
    + apply cp_step with a; [now apply cp_here|assumption|].
      apply Hcl. eapply clean_path_root; eassumption.
    + eapply clean_path_lift; eauto.
  - intros r [<-|[]]. assumption.
  - intros x z Hx Hx' Hin.
    destruct (Nat.eqb_spec x a) as [->|Hne].
    + apply B3. assumption.
    + apply B4 with x; auto.
      * rewrite Hn. apply Nat.eqb_neq in Hne. now rewrite Hne.
      * now rewrite Hsup.
Qed.

Lemma adaptonDirty_unfold (fuel : nat) (a : Adapton) (st : State) :
  adaptonDirty (S fuel) a st =
  if negb (clean (node st a)) then Some st
  else dirty_each fuel (super (node st a)) (Some (set_clean a false st)).
Proof.
  cbn [adaptonDirty]. destruct (clean (node st a)); [|reflexivity].
  cbn [negb]. unfold dirty_each.
  rewrite node_set_clean, Nat.eqb_refl. reflexivity.
Qed.

Lemma dirty_each_none (fuel : nat) (l : list Adapton) :
  dirty_each fuel l None = None.
Proof. induction l; [reflexivity | assumption]. Qed.

Lemma dirty_each_cons (fuel : nat) (x : Adapton) (l : list Adapton)
  (st : State) :
  dirty_each fuel (x :: l) (Some st) =
  dirty_each fuel l (adaptonDirty fuel x st).
Proof. reflexivity. Qed.

Lemma adaptonDirty_dirtied (fuel : nat) :
  forall a st st', adaptonDirty fuel a st = Some st' -> dirtied st st' [a].
Proof.
  induction fuel as [|fuel IH]; intros a st st' H.
  - cbn in H. destruct (clean (node st a)) eqn:E; [discriminate|].
    injection H as <-. now apply dirtied_skip.
  - rewrite adaptonDirty_unfold in H.
    destruct (clean (node st a)) eqn:E; cbn [negb] in H.
    + apply dirtied_root; [assumption|].
      revert H. generalize (set_clean a false st).
      induction (super (node st a)) as [|y l IHl]; intros s H.
      * injection H as <-. apply dirtied_nil.
      * rewrite dirty_each_cons in H.
        destruct (adaptonDirty fuel y s) as [s1|] eqn:E1.
        -- apply dirtied_cons with s1; auto.
        -- now rewrite dirty_each_none in H.
    + injection H as <-. now apply dirtied_skip.
Qed.

(** Termination: the wave flips a clean node at each level. *)

Lemma filter_mono_le (f g : Adapton -> bool) (l : list Adapton) :
  (forall x, g x = true -> f x = true) ->
  length (filter g l) <= length (filter f l).
Proof.
  intros H. induction l as [|x l IH]; simpl; [lia|].
  destruct (g x) eqn:E.
  - rewrite (H x E). simpl. lia.
  - destruct (f x); simpl; lia.
Qed.

Lemma filter_mono_lt (f g : Adapton -> bool) (l : list Adapton)
  (a : Adapton) :
  (forall x, g x = true -> f x = true) ->
  In a l -> f a = true -> g a = false ->
  length (filter g l) < length (filter f l).
Proof.
  intros H. induction l as [|x l IH]; simpl; [tauto|].
  intros [->|Hin] Hf Hg.
  - rewrite Hf, Hg. simpl.
    assert (Hle := filter_mono_le f g l H). lia.
  - specialize (IH Hin Hf Hg). destruct (g x) eqn:E.
    + rewrite (H x E). simpl. lia.
    + destruct (f x); simpl; lia.
Qed.

Lemma count_clean_le (N : nat) (st st' : State) :
  (forall x, clean (node st' x) = true -> clean (node st x) = true) ->
  count_clean N st' <= count_clean N st.
Proof. intros H. unfold count_clean. now apply filter_mono_le. Qed.

Lemma count_clean_bound (N : nat) (st : State) : count_clean N st <= N.
Proof.
  unfold count_clean.
  rewrite <- (length_seq N 0) at 2. apply List.filter_length_le.
Qed.

Lemma adaptonDirty_total (N : nat) (fuel : nat) :
  forall a st, clean_below N st -> count_clean N st <= fuel ->
               exists st', adaptonDirty fuel a st = Some st'.
Proof.
  induction fuel as [|fuel IH]; intros a st Hb Hc.
  - cbn [adaptonDirty]. destruct (clean (node st a)) eqn:E; cbn [negb];
      [|eauto].
    exfalso. assert (Ha := Hb a E).
    assert (Hlt : count_clean N (set_clean a false st) < count_clean N st).
    { unfold count_clean.
      apply filter_mono_lt with a; auto.
      - intros x. rewrite node_set_clean.
        destruct (Nat.eqb x a); [discriminate|auto].
      - apply in_seq. lia.
      - rewrite node_set_clean, Nat.eqb_refl. reflexivity. }
    lia.
  - rewrite adaptonDirty_unfold.
    destruct (clean (node st a)) eqn:E; cbn [negb]; [|eauto].
    assert (Ha := Hb a E).
    assert (Hlt : count_clean N (set_clean a false st) <= fuel).
    { assert (count_clean N (set_clean a false st) < count_clean N st);
        [|lia].
      unfold count_clean. apply filter_mono_lt with a; auto.
      - intros x. rewrite node_set_clean.
        destruct (Nat.eqb x a); [discriminate|auto].
      - apply in_seq. lia.
      - rewrite node_set_clean, Nat.eqb_refl. reflexivity. }
    assert (Hb1 : clean_below N (set_clean a false st)).
    { intros x. rewrite node_set_clean.
      destruct (Nat.eqb x a); [discriminate|apply Hb]. }
    revert Hlt Hb1. generalize (set_clean a false st).
    induction (super (node st a)) as [|y l IHl]; intros s Hlt Hb1.
    + exists s. reflexivity.
    + rewrite dirty_each_cons.
      destruct (IH y s Hb1 Hlt) as [s1 Hs1]. rewrite Hs1.
      destruct (adaptonDirty_dirtied _ _ _ _ Hs1) as (_ & Hmono & _).
      apply IHl.
      * assert (Hle := count_clean_le N s s1 Hmono). lia.
      * intros x Hx. auto.
Qed.

Lemma super_path_dirty (st st' : State) (n x : Adapton) :
  dirty_upward st' ->
  super_path st' n x -> clean (node st' n) = false ->
  clean (node st' x) = false.
Proof.
  intros Hup. induction 1 as [|x y _ IH Hin]; intros Hn; [assumption|].
  apply Hup with x; auto.
Qed.

Lemma dirtied_upward (st st' : State) (l : list Adapton) :
  dirty_upward st -> dirtied st st' l -> dirty_upward st'.
Proof.
  intros Hup (A0 & A1 & A2 & A3 & A4) x y Hin Hx.
  assert (Hsup : super (node st' x) = super (node st x)) by apply A0.
  rewrite Hsup in Hin.
  destruct (clean (node st x)) eqn:E.
  - now apply A4 with x.
  - assert (Hy := Hup x y Hin E).
    destruct (clean (node st' y)) eqn:E'; [|reflexivity].
    apply A1 in E'. congruence.
Qed.

(** C4, as the code has it.  [adaptonDirty] returns (fuel [N] is
    enough when every clean node has a handle below [N]).  It clears
    the flag of exactly the nodes reached from [n] along dependent
    edges through clean nodes only: the wave stops at a node that is
    already dirty.  Every other flag and every other field stays, and
    the call log does not grow, so no thunk is invoked.  When every
    dependent of a dirty node is dirty to begin with, every node
    reached from [n] along dependent edges is dirty at the end. *)
Theorem dirty_clears_clean_chains (N : nat) (n : Adapton) (st : State) :
  clean_below N st ->
  exists st',
    adaptonDirty N n st = Some st' /\
    (forall x, clean_path st n x -> clean (node st' x) = false) /\
    (forall x, ~ clean_path st n x ->
               clean (node st' x) = clean (node st x)) /\
    same_but_clean st st' /\
    calls st' = calls st /\
    (dirty_upward st ->
     forall x, super_path st n x -> clean (node st' x) = false).
Proof.
  intros Hb.
  destruct (adaptonDirty_total N N n st Hb (count_clean_bound N st)) as [st' H].
  exists st'. split; [assumption|].
  assert (Hd := adaptonDirty_dirtied _ _ _ _ H).
  destruct Hd as (A0 & A1 & A2 & A3 & A4).
  assert (P1 : forall x, clean_path st n x -> clean (node st' x) = false).
  { induction 1 as [Hn|x y Hp IH Hin Hy].
    - apply A3. now left.
    - apply A4 with x; auto. eapply clean_path_clean; eauto. }
  split; [exact P1|]. split.
  { intros x Hx. destruct (clean (node st x)) eqn:E.
    - destruct (clean (node st' x)) eqn:E'; [reflexivity|].
      destruct (A2 x E E') as (r & [<-|[]] & Hp). contradiction.
    - destruct (clean (node st' x)) eqn:E'; [|reflexivity].
      apply A1 in E'. congruence. }
  split; [assumption|]. split; [apply A0|].
  intros Hup x Hp.
  assert (Hup' : dirty_upward st').
  { eapply dirtied_upward; eauto.
    unfold dirtied. repeat split; eauto; apply A0. }
  apply super_path_dirty with (st := st) (n := n); auto.
  - clear -Hp A0. induction Hp as [|x y _ IH Hin]; [constructor|].
    apply sp_step with x; auto.
    destruct A0 as (_ & _ & _ & A0). destruct (A0 x) as (_ & _ & _ & ->).
    assumption.
  - apply A3. now left.
Qed.

(** The statement of the spec fails when the wave starts at a node that is
    already dirty: its clean dependent is not reached. *)
Lemma dirty_stops_at_dirty_node :
  ~ (forall fuel n st st',
        adaptonDirty fuel n st = Some st' ->
        forall x, super_path st n x -> clean (node st' x) = false).
Proof.
  intros H.
  assert (E : match adaptonDirty 5 0 ex_blocked with
              | Some s => clean (node s 1)
              | None => false
              end = true) by (vm_compute; reflexivity).
  destruct (adaptonDirty 5 0 ex_blocked) as [s|] eqn:F; try discriminate.
  rewrite (H _ _ _ _ F 1) in E; [discriminate|].
  apply sp_step with 0; [apply sp_here|].
  vm_compute. now left.
Qed.

(** ** What every call leaves alone *)

Lemma frame_done_refl (s : State) : frame_done s s.
Proof. unfold frame_done. repeat split. now exists []. Qed.

Lemma frame_done_trans (s1 s2 s3 : State) :
  frame_done s1 s2 -> frame_done s2 s3 -> frame_done s1 s3.
Proof.
  intros (A1 & A2 & A3 & l1 & A4) (B1 & B2 & B3 & l2 & B4).
  unfold frame_done. rewrite B1, B2, B4, A4.
  repeat split; auto.
  - intros x. now rewrite B3.
  - exists (l2 ++ l1). now rewrite app_assoc.
Qed.

Lemma frame_done_heap (s s' : State) :
  next s' = next s -> currentlyAdapting s' = currentlyAdapting s ->
  calls s' = calls s ->
  (forall x, thunk (node s' x) = thunk (node s x)) ->
  frame_done s s'.
Proof.
  intros H1 H2 H3 H4. unfold frame_done. repeat split; auto.
  exists []. assumption.
Qed.

Lemma frame_done_addEdge (a b : Adapton) (s : State) :
  frame_done s (addEdge a b s).
Proof.
  apply frame_done_heap; try reflexivity.
  intros x. now rewrite node_addEdge.
Qed.

Lemma frame_done_deleteEdge (a b : Adapton) (s : State) :
  frame_done s (deleteEdge a b s).
Proof.
  apply frame_done_heap; try reflexivity.
  intros x. now rewrite node_deleteEdge.
Qed.

Lemma frame_done_set_result (a : Adapton) (v : value) (s : State) :
  frame_done s (set_result a v s).
Proof.
  apply frame_done_heap; try reflexivity.
  intros x. rewrite node_set_result. now destruct (Nat.eqb x a).
Qed.

Lemma frame_done_dirty (fuel : nat) (a : Adapton) (s s' : State) :
  adaptonDirty fuel a s = Some s' -> frame_done s s'.
Proof.
  intros H. apply adaptonDirty_dirtied in H.
  destruct H as ((H1 & H2 & H3 & H4) & _).
  apply frame_done_heap; auto. intros x. apply H4.
Qed.

Lemma frame_before_thunk (a : Adapton) (s : State) :
  next (before_thunk a s) = next s /\
  currentlyAdapting (before_thunk a s) = currentlyAdapting s /\
  calls (before_thunk a s) = a :: calls s /\
  forall x, thunk (node (before_thunk a s) x) = thunk (node s x).
Proof.
  destruct (clear_sub_frame a s) as (H1 & H2 & H3).
  unfold before_thunk. cbn. rewrite H3. repeat split; auto.
  intros x. change (thunk (node (before_thunk a s) x) = thunk (node s x)).
  now rewrite node_before_thunk.
Qed.

Lemma frame_threw_of_done (s1 s2 s3 : State) :
  frame_done s1 s2 -> frame_threw s2 s3 -> frame_threw s1 s3.
Proof.
  intros (A1 & A2 & A3 & l1 & A4) (B1 & B3 & (l2 & B4) & B5).
  unfold frame_threw. rewrite B1, B4, A4, <- A2. repeat split; auto.
  - intros x. now rewrite B3.
  - exists (l2 ++ l1). now rewrite app_assoc.
Qed.

Lemma frame_done_before_thunk (a : Adapton) (s : State) :
  frame_done s (before_thunk a s).
Proof.
  destruct (frame_before_thunk a s) as (A1 & A2 & A3 & A4).
  unfold frame_done. repeat split; auto. exists [a]. assumption.
Qed.

Lemma frame_done_restore (s : State) (a : Adapton) (s1 : State) :
  frame_done (set_context (Some a) s) s1 ->
  frame_done s (set_context (currentlyAdapting s) s1).
Proof.
  intros (B1 & B2 & B3 & l & B4). unfold frame_done. cbn.
  split; [exact B1|]. split; [reflexivity|]. split; [exact B3|].
  exists l. exact B4.
Qed.

Lemma frame_done_threw (s s' : State) : frame_done s s' -> frame_threw s s'.
Proof.
  intros (A1 & A2 & A3 & A4). unfold frame_threw. auto.
Qed.

Lemma frame_threw_trans (s1 s2 s3 : State) :
  frame_threw s1 s2 -> frame_threw s2 s3 -> frame_threw s1 s3.
Proof.
  intros (A1 & A3 & (l1 & A4) & A5) (B1 & B3 & (l2 & B4) & B5).
  unfold frame_threw. rewrite B1, B4, A4.
  split; [exact A1|]. split; [intros x; now rewrite B3|].
  split; [exists (l2 ++ l1); now rewrite app_assoc|].
  destruct B5 as [B5|B5]; [rewrite B5; exact A5 | now right].
Qed.

(** With exception handlers in the thunks a call may return in a
    context other than the one it started in; the rest of the frame
    stands for every computation. *)
Lemma log_rule :
  engine_rule any_prog any_node any_node any_state frame_threw frame_threw.
Proof.
  assert (Hres : forall a v s, frame_threw s (set_result a v s))
    by (intros; apply frame_done_threw, frame_done_set_result).
  assert (Hbt : forall a s, frame_threw s (before_thunk a s))
    by (intros; apply frame_done_threw, frame_done_before_thunk).
  constructor; unfold any_prog, any_node, any_state; try solve [auto].
  - intros. apply frame_done_threw, frame_done_refl.
  - intros. apply frame_done_threw, frame_done_refl.
  - intros. eapply frame_threw_trans; eauto.
  - intros. eapply frame_threw_trans; eauto.
  - intros. split; [exact Logic.I|].
    intros; apply frame_done_threw, frame_done_addEdge.
  - intros. split; [exact Logic.I|].
    intros; apply frame_done_threw, frame_done_deleteEdge.
  - intros. split; [exact Logic.I|].
    intros; eapply frame_done_threw, frame_done_dirty; eauto.
  - intros a v k _. split; [exact Logic.I|]. intros fuel s s' _ H.
    eapply frame_threw_trans; [apply Hres|].
    eapply frame_done_threw, frame_done_dirty; eauto.
  - intros s a s3 v _ _ _ H.
    eapply frame_threw_trans; [apply Hbt|].
    eapply frame_threw_trans; [exact H | apply Hres].
  - intros s a s3 _ _ _ H. eapply frame_threw_trans; [apply Hbt | exact H].
  - intros s a s1 _ _ (B1 & B3 & (l & B4) & _) _.
    assert (H : frame_threw s (set_context (currentlyAdapting s) s1)).
    { unfold frame_threw. cbn. split; [exact B1|]. split; [exact B3|].
      split; [exists l; exact B4 | now left]. }
    unfold force_exit. destruct (currentlyAdapting s) as [c|]; [|exact H].
    eapply frame_threw_trans; [exact H|].
    apply frame_done_threw, frame_done_addEdge.
  - intros s a s1 _ _ (B1 & B3 & (l & B4) & B5).
    unfold frame_threw. split; [exact B1|]. split; [exact B3|].
    split; [exists l; exact B4|].
    right. destruct B5 as [B5|B5]; [exists a; exact B5 | exact B5].
  - intros body h k _. repeat split; auto; intros;
      eapply frame_threw_trans; eauto.
Qed.

Lemma compute_log (fuel : nat) (a : Adapton) (s : State) :
  related frame_threw frame_threw s (adaptonCompute fuel a s).
Proof. now apply (compute_rule log_rule). Qed.

Lemma force_log (fuel : nat) (a : Adapton) (s : State) :
  related frame_threw frame_threw s (force fuel a s).
Proof. now apply (forcing_rule log_rule). Qed.

Lemma exec_log (fuel : nat) (p : Prog) (s : State) :
  related frame_threw frame_threw s (exec fuel p s).
Proof. now apply (exec_rule log_rule). Qed.

Lemma final_log (o : Outcome) (s s' : State) :
  related frame_threw frame_threw s o -> final o = Some s' ->
  frame_threw s s'.
Proof.
  destruct o as [v s1|e s1|]; cbn; intros R H; try discriminate;
    now injection H as <-.
Qed.

(** Without handlers a call that returns does so in the context it
    started in. *)
Lemma frame_rule :
  engine_rule (only no_catch) any_node any_node (heap_only no_catch)
              frame_done frame_threw.
Proof.
  constructor; unfold any_node; try solve [auto].
  - intros. apply frame_done_refl.
  - intros s _. unfold frame_threw. repeat split; auto. now exists [].
  - intros. eapply frame_done_trans; eauto.
  - intros. eapply frame_threw_of_done; eauto.
  - intros s1 s2 Hs (_ & _ & H & _) x. rewrite H. apply Hs.
  - intros a k H. inversion H; auto.
  - intros a k H. inversion H; auto.
  - intros a k H. inversion H; auto.
  - intros a b k H. inversion H; subst. split; [assumption|].
    intros; apply frame_done_addEdge.
  - intros a b k H. inversion H; subst. split; [assumption|].
    intros; apply frame_done_deleteEdge.
  - intros a k H. inversion H; subst. split; [assumption|].
    intros; eapply frame_done_dirty; eauto.
  - intros a v k H. inversion H; subst. split; [assumption|].
    intros fuel s s' _ Hd.
    eapply frame_done_trans;
      [apply frame_done_set_result | eapply frame_done_dirty; eauto].
  - intros s a _ Hs _ x.
    destruct (frame_before_thunk a s) as (_ & _ & _ & ->). apply Hs.
  - intros s a s3 v _ _ _ H.
    eapply frame_done_trans; [apply frame_done_before_thunk|].
    eapply frame_done_trans; [exact H | apply frame_done_set_result].
  - intros s a s3 _ _ _ H.
    eapply frame_threw_of_done; [apply frame_done_before_thunk | exact H].
  - intros s a s1 _ _ H _.
    apply frame_done_restore in H. unfold force_exit.
    destruct (currentlyAdapting s) as [c|];
      [eapply frame_done_trans; [exact H | apply frame_done_addEdge]
      | exact H].
  - intros s a s1 _ _ (B1 & B3 & (l & B4) & B5).
    unfold frame_threw. split; [exact B1|]. split; [exact B3|].
    split; [exists l; exact B4|].
    right. destruct B5 as [B5|B5]; [exists a; exact B5 | exact B5].
  - intros body h k H. inversion H. discriminate.
Qed.

Lemma compute_frame (fuel : nat) (a : Adapton) (s : State) :
  heap_only no_catch s ->
  related frame_done frame_threw s (adaptonCompute fuel a s).
Proof. intros Hs. now apply (compute_rule frame_rule). Qed.

Lemma force_frame (fuel : nat) (a : Adapton) (s : State) :
  heap_only no_catch s ->
  related frame_done frame_threw s (force fuel a s).
Proof. intros Hs. now apply (forcing_rule frame_rule). Qed.

Lemma exec_frame (fuel : nat) (p : Prog) (s : State) :
  only no_catch p -> heap_only no_catch s ->
  related frame_done frame_threw s (exec fuel p s).
Proof. intros Hp Hs. now apply (exec_rule frame_rule). Qed.

Lemma final_calls (s : State) (o : Outcome) (s' : State) :
  related frame_threw frame_threw s o -> final o = Some s' ->
  exists l, calls s' = l ++ calls s.
Proof.
  destruct o as [v s1|e s1|]; cbn; intros R H; try discriminate;
    injection H as <-; apply R.
Qed.

(** The call log is faithful: a call of [adaptonCompute] on a dirty
    node that comes to an end has invoked the node's thunk. *)
Lemma thunk_invocation_logged (fuel : nat) (a : Adapton) (st st' : State) :
  clean (node st a) = false ->
  final (adaptonCompute fuel a st) = Some st' ->
  In a (calls st').
Proof.
  intros Ha H. destruct fuel as [|f].
  { cbn in H. rewrite Ha in H. discriminate. }
  rewrite adaptonCompute_dirty in H by assumption.
  destruct (frame_before_thunk a st) as (_ & _ & F3 & _).
  assert (R := exec_log f (thunk (node st a)) (before_thunk a st)).
  destruct (exec f (thunk (node st a)) (before_thunk a st))
    as [v s3|e s3|]; cbn in R; try discriminate.
  - destruct R as (_ & _ & (l & Hl) & _).
    destruct (final_calls _ _ _ (compute_log f a (set_result a v s3)) H)
      as [l' Hl'].
    rewrite Hl'. change (calls (set_result a v s3)) with (calls s3).
    rewrite Hl, F3, !in_app_iff. right. right. now left.
  - injection H as <-. destruct R as (_ & _ & (l & Hl) & _).
    rewrite Hl, F3, in_app_iff. right. now left.
Qed.

(** ** Edge symmetry *)

Lemma symmetric_addEdge (a b : Adapton) (s : State) :
  symmetric s -> symmetric (addEdge a b s).
Proof.
  intros H x y. rewrite !node_addEdge. cbn [sub super].
  specialize (H x y).
  destruct (Nat.eqb_spec x a) as [->|Hx], (Nat.eqb_spec y b) as [->|Hy];
    rewrite ?set_add_In; intuition.
Qed.

Lemma symmetric_deleteEdge (a b : Adapton) (s : State) :
  symmetric s -> symmetric (deleteEdge a b s).
Proof.
  intros H x y. rewrite !node_deleteEdge. cbn [sub super].
  specialize (H x y).
  destruct (Nat.eqb_spec x a) as [->|Hx], (Nat.eqb_spec y b) as [->|Hy];
    rewrite ?set_delete_In; intuition.
Qed.

Lemma symmetric_ext (s s' : State) :
  (forall x, sub (node s' x) = sub (node s x)) ->
  (forall x, super (node s' x) = super (node s x)) ->
  symmetric s -> symmetric s'.
Proof. intros H1 H2 H x y. rewrite H1, H2. apply H. Qed.

Lemma symmetric_before_thunk (a : Adapton) (s : State) :
  symmetric s -> symmetric (before_thunk a s).
Proof.
  intros H x y. rewrite !node_before_thunk. cbn [sub super].
  assert (Hxy := H x y). assert (Hay := H a y).
  destruct (Nat.eqb_spec x a) as [->|Hx];
    destruct (set_has y (sub (node s a))) eqn:E;
    rewrite ?set_delete_In.
  - apply set_has_In in E. simpl. tauto.
  - assert (~ In y (sub (node s a)))
      by (rewrite <- set_has_In; congruence).
    simpl. tauto.
  - tauto.
  - tauto.
Qed.

Lemma well_formed_ext (s s' : State) :
  next s' = next s ->
  (forall x, sub (node s' x) = sub (node s x)) ->
  (forall x, super (node s' x) = super (node s x)) ->
  currentlyAdapting s' = currentlyAdapting s ->
  well_formed s -> well_formed s'.
Proof.
  intros H1 H2 H3 H5 (A1 & A2 & A4). unfold well_formed.
  rewrite H1, H5. split; [eapply symmetric_ext; eauto|]. split.
  - intros x y. rewrite H2. apply A2.
  - exact A4.
Qed.

Lemma well_formed_set_context (c : option Adapton) (s : State) :
  (forall x, c = Some x -> x < next s) ->
  well_formed s -> well_formed (set_context c s).
Proof.
  intros Hc (A1 & A2 & A4). unfold well_formed. auto.
Qed.

Lemma well_formed_addEdge (a b : Adapton) (s : State) :
  a < next s -> b < next s -> well_formed s -> well_formed (addEdge a b s).
Proof.
  intros Ha Hb (A1 & A2 & A4). unfold well_formed.
  split; [now apply symmetric_addEdge|]. split.
  - intros x y. rewrite node_addEdge. cbn [sub].
    change (next (addEdge a b s)) with (next s).
    destruct (Nat.eqb_spec x a) as [->|Hx]; [|apply A2].
    rewrite set_add_In. intros [->|H]; [auto | now apply A2].
  - exact A4.
Qed.

Lemma well_formed_deleteEdge (a b : Adapton) (s : State) :
  well_formed s -> well_formed (deleteEdge a b s).
Proof.
  intros (A1 & A2 & A4). unfold well_formed.
  split; [now apply symmetric_deleteEdge|]. split.
  - intros x y. rewrite node_deleteEdge. cbn [sub].
    change (next (deleteEdge a b s)) with (next s).
    destruct (Nat.eqb_spec x a) as [->|Hx]; [|apply A2].
    rewrite set_delete_In. intros [_ H]. now apply A2.
  - exact A4.
Qed.

Lemma well_formed_set_result (a : Adapton) (v : value) (s : State) :
  well_formed s -> well_formed (set_result a v s).
Proof.
  apply well_formed_ext; try reflexivity;
    intros x; rewrite node_set_result; now destruct (Nat.eqb x a).
Qed.

Lemma well_formed_set_clean (a : Adapton) (b : bool) (s : State) :
  well_formed s -> well_formed (set_clean a b s).
Proof.
  apply well_formed_ext; try reflexivity;
    intros x; rewrite node_set_clean; now destruct (Nat.eqb x a).
Qed.

Lemma well_formed_same_but_clean (s s' : State) :
  same_but_clean s s' -> well_formed s -> well_formed s'.
Proof.
  intros (H1 & H2 & H3 & H4).
  apply well_formed_ext; auto; intros x; apply H4.
Qed.

Lemma well_formed_before_thunk (a : Adapton) (s : State) :
  well_formed s -> well_formed (before_thunk a s).
Proof.
  intros (A1 & A2 & A4).
  destruct (frame_before_thunk a s) as (B1 & B2 & B3 & B4).
  unfold well_formed. rewrite B1, B2.
  split; [now apply symmetric_before_thunk|]. split.
  - intros x y. rewrite node_before_thunk. cbn [sub].
    destruct (Nat.eqb x a); [intros [] | apply A2].
  - exact A4.
Qed.

Lemma well_formed_makeAthunk (f : Adapton -> Prog) (s : State) :
  well_formed s -> well_formed (snd (makeAthunk f s)).
Proof.
  intros (A1 & A2 & A4). unfold well_formed.
  change (next (snd (makeAthunk f s))) with (S (next s)).
  change (currentlyAdapting (snd (makeAthunk f s)))
    with (currentlyAdapting s).
  split; [|split].
  - intros x y. rewrite !node_makeAthunk.
    destruct (Nat.eqb_spec x (next s)) as [->|Hx],
             (Nat.eqb_spec y (next s)) as [->|Hy]; cbn [sub super].
    + tauto.
    + split; [intros []|]. intros H. apply A1 in H. apply A2 in H. lia.
    + split; [|intros []]. intros H. apply A2 in H. lia.
    + apply A1.
  - intros x y. rewrite node_makeAthunk.
    destruct (Nat.eqb x (next s)); cbn [sub]; [intros []|].
    intros H. apply A2 in H. lia.
  - intros c H. apply A4 in H. lia.
Qed.

Lemma well_formed_init : well_formed init.
Proof.
  unfold well_formed, symmetric, edges_below, init, node. cbn.
  split; [tauto|]. split; [tauto | discriminate].
Qed.

Lemma thunks_kept_closed (N : nat) (s s' : State) :
  (forall x, thunk (node s' x) = thunk (node s x)) ->
  (forall x, handles_below N (thunk (node s x))) ->
  forall x, handles_below N (thunk (node s' x)).
Proof. intros H Hs x. rewrite H. apply Hs. Qed.

Lemma well_formed_rule (N : nat) :
  engine_rule (handles_below N) (fun a => a < N) (fun a => a < N)
              (well_formed_at N)
              (fun _ s' => well_formed_at N s')
              (fun _ s' => well_formed_at N s').
Proof.
  constructor; unfold well_formed_at; try solve [auto].
  - intros s a (_ & _ & H). apply H.
  - intros a k H. inversion H; auto.
  - intros a k H. inversion H; auto.
  - intros a k H. inversion H; auto.
  - intros a b k H. inversion H; subst. split; [assumption|].
    intros s (<- & Hs & Hc). split; [reflexivity|]. split.
    + now apply well_formed_addEdge.
    + apply thunks_kept_closed with s; auto.
      intros x. now rewrite node_addEdge.
  - intros a b k H. inversion H; subst. split; [assumption|].
    intros s (<- & Hs & Hc). split; [reflexivity|]. split.
    + now apply well_formed_deleteEdge.
    + apply thunks_kept_closed with s; auto.
      intros x. now rewrite node_deleteEdge.
  - intros a k H. inversion H; subst. split; [assumption|].
    intros fuel s s' (<- & Hs & Hc) Hd. apply adaptonDirty_dirtied in Hd.
    destruct Hd as (Hd & _). split; [apply Hd|]. split.
    + eapply well_formed_same_but_clean; eauto.
    + apply thunks_kept_closed with s; auto. intros x. apply Hd.
  - intros a v k H. inversion H; subst. split; [assumption|].
    intros fuel s s' (<- & Hs & Hc) Hd. apply adaptonDirty_dirtied in Hd.
    destruct Hd as (Hd & _). split; [apply Hd|]. split.
    + eapply well_formed_same_but_clean; eauto.
      now apply well_formed_set_result.
    + apply thunks_kept_closed with (set_result a v s).
      * intros x. apply Hd.
      * apply thunks_kept_closed with s; auto.
        intros x. rewrite node_set_result. now destruct (Nat.eqb x a).
  - intros s a _ (<- & Hs & Hc) _. split; [apply frame_before_thunk|].
    split; [now apply well_formed_before_thunk|].
    apply thunks_kept_closed with s; auto. apply frame_before_thunk.
  - intros s a s3 v _ _ _ (<- & Hs & Hc). split; [reflexivity|]. split.
    + now apply well_formed_set_result.
    + apply thunks_kept_closed with s3; auto.
      intros x. rewrite node_set_result. now destruct (Nat.eqb x a).
  - intros s a Ha (<- & Hs & Hc). split; [reflexivity|].
    split; [|exact Hc].
    apply well_formed_set_context; auto. intros x [= <-]. exact Ha.
  - intros s a s1 Ha (<- & (_ & _ & Hctx) & _) (Hn & Hs1 & Hc1) _.
    unfold force_exit.
    destruct (currentlyAdapting s) as [c|] eqn:E.
    + split; [exact Hn|]. split.
      * apply well_formed_addEdge; cbn.
        -- rewrite Hn. now apply Hctx.
        -- now rewrite Hn.
        -- apply well_formed_set_context; auto. intros x [= <-].
           rewrite Hn. now apply Hctx.
      * intros x. rewrite node_addEdge. apply Hc1.
    + split; [exact Hn|]. split; [|exact Hc1].
      apply well_formed_set_context; auto. discriminate.
  - intros body h k H. inversion H; subst.
    split; [assumption|]. split; [assumption|]. split; [assumption|].
    split; [|split]; intros; assumption.
Qed.

Lemma apply_op_well_formed (fuel : nat) (op : Op) (s s' : State) :
  well_formed s -> op_ok s op -> apply_op fuel op s = Some s' ->
  well_formed s'.
Proof.
  intros Hs Hop H.
  destruct op as [f|v|a b|a b|a|a|a v|a]; cbn in H, Hop.
  - injection H as <-. now apply well_formed_makeAthunk.
  - injection H as <-. unfold adaptonRef.
    change (snd (let (a, st1) := makeAthunk ref_thunk s in
                 (a, set_clean a true (set_result a v st1))))
      with (set_clean (next s) true
                      (set_result (next s) v (snd (makeAthunk ref_thunk s)))).
    now apply well_formed_set_clean, well_formed_set_result,
      well_formed_makeAthunk.
  - injection H as <-. now apply well_formed_addEdge.
  - injection H as <-. now apply well_formed_deleteEdge.
  - destruct Hop as [Ha Hc].
    assert (Hat : well_formed_at (next s) s) by (split; auto).
    assert (R := compute_rule (well_formed_rule (next s)) fuel a s Ha Hat).
    destruct (adaptonCompute fuel a s); cbn in *; try discriminate;
      injection H as <-; apply R.
  - apply adaptonDirty_dirtied in H. destruct H as (H & _).
    eapply well_formed_same_but_clean; eauto.
  - apply adaptonDirty_dirtied in H. destruct H as (H & _).
    eapply well_formed_same_but_clean; eauto.
    now apply well_formed_set_result.
  - destruct Hop as [Ha Hc].
    assert (Hat : well_formed_at (next s) s) by (split; auto).
    assert (R := forcing_rule (well_formed_rule (next s)) fuel a s Ha Hat).
    destruct (force fuel a s); cbn in *; try discriminate;
      injection H as <-; apply R.
Qed.

Lemma reachable_well_formed (s : State) : reachable s -> well_formed s.
Proof.
  induction 1 as [|s op fuel s' _ IH Hop H].
  - apply well_formed_init.
  - eapply apply_op_well_formed; eauto.
Qed.

(** C3.  Between two calls of a client the edges are symmetric: in
    every state reached from the empty heap by calls that pass
    references to existing objects, whether the calls return or throw,
    [y] is among the dependencies of [x] exactly when [x] is among the
    dependents of [y].  [addEdge] and [deleteEdge] keep it so because
    each writes both sides: after [addEdge] the edge is on both, after
    [deleteEdge] on neither. *)
Theorem edges_stay_symmetric :
  (forall s, reachable s ->
             forall x y, In y (sub (node s x)) <-> In x (super (node s y))) /\
  (forall s a b, symmetric s -> symmetric (addEdge a b s)) /\
  (forall s a b, symmetric s -> symmetric (deleteEdge a b s)) /\
  (forall s a b, In b (sub (node (addEdge a b s) a)) /\
                 In a (super (node (addEdge a b s) b))) /\
  (forall s a b, ~ In b (sub (node (deleteEdge a b s) a)) /\
                 ~ In a (super (node (deleteEdge a b s) b))).
Proof.
  split; [|split; [|split; [|split]]].
  - intros s H. apply (reachable_well_formed s H).
  - intros s a b. apply symmetric_addEdge.
  - intros s a b. apply symmetric_deleteEdge.
  - intros s a b. rewrite !node_addEdge. cbn [sub super].
    rewrite !Nat.eqb_refl, !set_add_In. auto.
  - intros s a b. rewrite !node_deleteEdge. cbn [sub super].
    rewrite !Nat.eqb_refl, !set_delete_In. tauto.
Qed.

(** ** Computations that do not force *)

Lemma no_new_edge_refl (s : State) : no_new_edge s s.
Proof. intros x y. tauto. Qed.

Lemma no_new_edge_trans (s1 s2 s3 : State) :
  no_new_edge s1 s2 -> no_new_edge s2 s3 -> no_new_edge s1 s3.
Proof.
  intros H1 H2 x y. destruct (H1 x y), (H2 x y). tauto.
Qed.

Lemma no_new_edge_ext (s s' : State) :
  (forall x, sub (node s' x) = sub (node s x)) ->
  (forall x, super (node s' x) = super (node s x)) ->
  no_new_edge s s'.
Proof. intros H1 H2 x y. rewrite H1, H2. tauto. Qed.

Lemma no_new_edge_deleteEdge (a b : Adapton) (s : State) :
  no_new_edge s (deleteEdge a b s).
Proof.
  intros x y. rewrite node_deleteEdge. cbn [sub super].
  destruct (Nat.eqb x a), (Nat.eqb x b); rewrite ?set_delete_In; tauto.
Qed.

Lemma no_new_edge_before_thunk (a : Adapton) (s : State) :
  no_new_edge s (before_thunk a s).
Proof.
  intros x y. rewrite node_before_thunk. cbn [sub super].
  destruct (Nat.eqb x a), (set_has x (sub (node s a)));
    rewrite ?set_delete_In; simpl; tauto.
Qed.

Lemma context_kept_refl (A : OpKind -> bool) (s : State) :
  context_kept A s s.
Proof.
  unfold context_kept. repeat split; auto using no_new_edge_refl;
    apply no_new_edge_refl.
Qed.

Lemma context_kept_trans (A : OpKind -> bool) (s1 s2 s3 : State) :
  context_kept A s1 s2 -> context_kept A s2 s3 -> context_kept A s1 s3.
Proof.
  intros (A1 & A2 & A3) (B1 & B2 & B3). unfold context_kept.
  rewrite B2, A2. repeat split; auto.
  - intros x. now rewrite B1.
  - eapply no_new_edge_trans; eauto.
  - eapply no_new_edge_trans; eauto.
Qed.

Lemma context_kept_ext (A : OpKind -> bool) (s s' : State) :
  (forall x, thunk (node s' x) = thunk (node s x)) ->
  currentlyAdapting s' = currentlyAdapting s ->
  no_new_edge s s' ->
  context_kept A s s'.
Proof. unfold context_kept. auto. Qed.

Lemma heap_only_kept (A : OpKind -> bool) (s s' : State) :
  (forall x, thunk (node s' x) = thunk (node s x)) ->
  heap_only A s -> heap_only A s'.
Proof. intros H Hs x. rewrite H. apply Hs. Qed.

Lemma no_force_rule (A : OpKind -> bool) :
  A KForce = false ->
  engine_rule (only A) any_node (fun _ => False) (heap_only A)
              (context_kept A) (context_kept A).
Proof.
  intros HA.
  assert (Hdirty : forall fuel a s s',
             adaptonDirty fuel a s = Some s' -> context_kept A s s').
  { intros fuel a s s' H. apply adaptonDirty_dirtied in H.
    destruct H as ((H1 & H2 & H3 & H4) & _).
    apply context_kept_ext; auto.
    - intros x. apply H4.
    - apply no_new_edge_ext; intros x; apply H4. }
  assert (Hres : forall a v s, context_kept A s (set_result a v s)).
  { intros a v s. apply context_kept_ext; try reflexivity.
    - intros x. rewrite node_set_result. now destruct (Nat.eqb x a).
    - apply no_new_edge_ext; intros x; rewrite node_set_result;
        now destruct (Nat.eqb x a). }
  assert (Hbt : forall a s, context_kept A s (before_thunk a s)).
  { intros a s. apply context_kept_ext.
    - apply frame_before_thunk.
    - apply frame_before_thunk.
    - apply no_new_edge_before_thunk. }
  constructor; unfold any_node; try solve [auto | tauto].
  - intros. apply context_kept_refl.
  - intros. apply context_kept_refl.
  - intros. eapply context_kept_trans; eauto.
  - intros. eapply context_kept_trans; eauto.
  - intros s1 s2 Hs (H & _). eapply heap_only_kept; eauto.
  - intros a k H. inversion H; auto.
  - intros a k H. inversion H; auto.
  - intros a k H. inversion H; congruence.
  - intros a b k H. inversion H; subst. split; [assumption|].
    intros s _. unfold context_kept. split; [|split].
    + intros x. now rewrite node_addEdge.
    + reflexivity.
    + congruence.
  - intros a b k H. inversion H; subst. split; [assumption|].
    intros s _. apply context_kept_ext; try reflexivity.
    + intros x. now rewrite node_deleteEdge.
    + apply no_new_edge_deleteEdge.
  - intros a k H. inversion H; subst. split; [assumption|]. eauto.
  - intros a v k H. inversion H; subst. split; [assumption|].
    intros fuel s s' _ Hd.
    eapply context_kept_trans; [apply Hres | eauto].
  - intros s a _ Hs _.
    apply heap_only_kept with s; [apply frame_before_thunk | exact Hs].
  - intros s a s3 v _ _ _ H.
    eapply context_kept_trans; [apply Hbt|].
    eapply context_kept_trans; [exact H | apply Hres].
  - intros s a s3 _ _ _ H. eapply context_kept_trans; [apply Hbt | exact H].
  - intros body h k H. inversion H; subst.
    split; [assumption|]. split; [assumption|]. split; [assumption|].
    split; [|split].
    + intros s1 s2 Hs (H' & _). eapply heap_only_kept; eauto.
    + intros. eapply context_kept_trans; eauto.
    + intros. eapply context_kept_trans; eauto.
Qed.

(** ** Computations that do not dirty *)

Lemma clean_kept_refl (s : State) : clean_kept s s.
Proof. unfold clean_kept. auto. Qed.

Lemma clean_kept_trans (s1 s2 s3 : State) :
  clean_kept s1 s2 -> clean_kept s2 s3 -> clean_kept s1 s3.
Proof.
  intros (A1 & A2) (B1 & B2). split.
  - intros x. now rewrite B1.
  - intros y Hy. destruct (A2 y Hy) as [H1 H2].
    destruct (B2 y H1) as [H3 H4]. split; congruence.
Qed.

Lemma clean_kept_ext (s s' : State) :
  (forall x, thunk (node s' x) = thunk (node s x)) ->
  (forall x, clean (node s' x) = clean (node s x)) ->
  (forall x, result (node s' x) = result (node s x)) ->
  clean_kept s s'.
Proof.
  intros H1 H2 H3. split; [assumption|]. intros y Hy.
  now rewrite H2, H3.
Qed.

Lemma clean_kept_recompute (a : Adapton) (v : value) (s s3 : State) :
  clean (node s a) = false ->
  clean_kept (before_thunk a s) s3 ->
  clean_kept s (set_result a v s3).
Proof.
  intros Ha (B1 & B2). split.
  - intros x. rewrite node_set_result.
    destruct (Nat.eqb x a); cbn; rewrite B1; apply frame_before_thunk.
  - intros y Hy.
    assert (Hne : Nat.eqb y a = false) by (apply Nat.eqb_neq; congruence).
    rewrite node_set_result, Hne.
    destruct (B2 y) as [H1 H2].
    + rewrite node_before_thunk. cbn [clean]. now rewrite Hne.
    + rewrite H1, H2, node_before_thunk. auto.
Qed.

Lemma clean_kept_raise (a : Adapton) (s s3 : State) :
  clean (node s a) = false ->
  clean_kept (before_thunk a s) s3 ->
  clean_kept s s3.
Proof.
  intros Ha (B1 & B2). split.
  - intros x. rewrite B1. apply frame_before_thunk.
  - intros y Hy.
    assert (Hne : Nat.eqb y a = false) by (apply Nat.eqb_neq; congruence).
    destruct (B2 y) as [H1 H2].
    + rewrite node_before_thunk. cbn [clean]. now rewrite Hne.
    + rewrite H1, H2, node_before_thunk. auto.
Qed.

Lemma no_dirtying_rule (A : OpKind -> bool) :
  A KDirty = false -> A KRefSet = false ->
  engine_rule (only A) any_node any_node (heap_only A)
              clean_kept clean_kept.
Proof.
  intros HD HR.
  constructor; unfold any_node; try solve [auto | tauto].
  - intros. apply clean_kept_refl.
  - intros. apply clean_kept_refl.
  - intros. eapply clean_kept_trans; eauto.
  - intros. eapply clean_kept_trans; eauto.
  - intros s1 s2 Hs (H & _). eapply heap_only_kept; eauto.
  - intros a k H. inversion H; auto.
  - intros a k H. inversion H; auto.
  - intros a k H. inversion H; auto.
  - intros a b k H. inversion H; subst. split; [assumption|].
    intros s _. apply clean_kept_ext; intros x; now rewrite node_addEdge.
  - intros a b k H. inversion H; subst. split; [assumption|].
    intros s _. apply clean_kept_ext; intros x; now rewrite node_deleteEdge.
  - intros a k H. inversion H; congruence.
  - intros a v k H. inversion H; congruence.
  - intros s a _ Hs _.
    apply heap_only_kept with s; [apply frame_before_thunk | exact Hs].
  - intros s a s3 v _ _ Ha H. now apply clean_kept_recompute.
  - intros s a s3 _ _ Ha H. now apply clean_kept_raise with a.
  - intros s a s1 _ _ (B1 & B2) _. unfold force_exit.
    destruct (currentlyAdapting s) as [c|].
    + split.
      * intros x. rewrite node_addEdge. apply B1.
      * intros y Hy. rewrite node_addEdge. cbn [clean result].
        now apply B2.
    + split; [exact B1 | exact B2].
  - intros body h k H. inversion H; subst.
    split; [assumption|]. split; [assumption|]. split; [assumption|].
    split; [|split].
    + intros s1 s2 Hs (H' & _). eapply heap_only_kept; eauto.
    + intros. eapply clean_kept_trans; eauto.
    + intros. eapply clean_kept_trans; eauto.
Qed.

(** ** Exceptions *)

Lemma compute_threw_dirty (fuel : nat) (a : Adapton) (s : State)
  (e : value) (s' : State) :
  adaptonCompute fuel a s = Threw e s' ->
  clean (node s a) = false /\ exists fuel', fuel = S fuel'.
Proof.
  intros H. destruct (clean (node s a)) eqn:E.
  - rewrite adaptonCompute_clean in H by assumption. discriminate.
  - split; [reflexivity|]. destruct fuel as [|f]; [|eauto].
    cbn in H. rewrite E in H. discriminate.
Qed.

Lemma quiet_compute_threw (A : OpKind -> bool) (fuel : nat) (a : Adapton)
  (s : State) (e : value) (s' : State) :
  A KDirty = false -> A KRefSet = false -> heap_only A s ->
  adaptonCompute fuel a s = Threw e s' ->
  clean (node s' a) = true /\ result (node s' a) = result (node s a).
Proof.
  intros HD HR Hs H.
  destruct (compute_threw_dirty _ _ _ _ _ H) as [Ha [f ->]].
  rewrite adaptonCompute_dirty in H by assumption.
  assert (Hbt : heap_only A (before_thunk a s))
    by (apply heap_only_kept with s; [apply frame_before_thunk | exact Hs]).
  assert (R := exec_rule (no_dirtying_rule A HD HR) f
                         (thunk (node s a)) (before_thunk a s) (Hs a) Hbt).
  assert (Hcl : clean (node (before_thunk a s) a) = true)
    by (rewrite node_before_thunk; cbn; now rewrite Nat.eqb_refl).
  destruct (exec f (thunk (node s a)) (before_thunk a s)) as [v s3|e3 s3|];
    cbn in R; try discriminate.
  - destruct R as [_ R]. destruct (R a Hcl) as [H1 _].
    rewrite adaptonCompute_clean in H; [discriminate|].
    rewrite node_set_result, Nat.eqb_refl. exact H1.
  - injection H as <- <-. destruct R as [_ R].
    destruct (R a Hcl) as [H1 H2]. split; [assumption|].
    rewrite H2, node_before_thunk. reflexivity.
Qed.

(** C7, as the code has it.  The exception a thunk throws comes out of
    [adaptonCompute] and of [adaptonForce] as it is, with the state the
    thunk left: neither writes anything after the throw.  So the node
    keeps the flag [true] set before the thunk ran and the cached
    result it had, as long as no computation that ran
    dirtied it or wrote its result: that is the case whenever the
    computations of the heap call neither [adaptonDirty] nor
    [adaptonRefSet]. *)
Theorem throw_passes_through :
  (forall fuel a st e st3,
      clean (node st a) = false ->
      exec fuel (thunk (node st a)) (before_thunk a st) = Threw e st3 ->
      adaptonCompute (S fuel) a st = Threw e st3) /\
  (forall fuel a st e st3,
      adaptonCompute fuel a (set_context (Some a) st) = Threw e st3 ->
      force fuel a st = Threw e st3) /\
  (forall fuel a st e st',
      heap_only no_dirtying st ->
      adaptonCompute fuel a st = Threw e st' ->
      clean (node st' a) = true /\
      result (node st' a) = result (node st a)) /\
  (forall fuel a st e st',
      heap_only no_dirtying st ->
      force fuel a st = Threw e st' ->
      clean (node st' a) = true /\
      result (node st' a) = result (node st a)).
Proof.
  split; [|split; [|split]].
  - intros fuel a st e st3 Ha H.
    rewrite adaptonCompute_dirty by assumption. now rewrite H.
  - intros fuel a st e st3 H. rewrite force_unfold. now rewrite H.
  - intros fuel a st e st' Hs H.
    now apply (quiet_compute_threw no_dirtying fuel a st e st'
                 eq_refl eq_refl Hs H).
  - intros fuel a st e st' Hs H. rewrite force_unfold in H.
    destruct (adaptonCompute fuel a (set_context (Some a) st))
      as [v s1|e1 s1|] eqn:E; try discriminate.
    + destruct (currentlyAdapting st); discriminate.
    + injection H as <- <-.
      now apply (quiet_compute_threw no_dirtying fuel a
                   (set_context (Some a) st) e1 s1 eq_refl eq_refl Hs E).
Qed.

(** The statement of the spec fails for a computation that writes to its
    own input before it throws: the write dirties the node again. *)
Lemma throw_may_leave_dirty :
  ~ (forall fuel a st e st',
        force fuel a st = Threw e st' ->
        clean (node st' a) = true /\
        result (node st' a) = result (node st a)).
Proof.
  intros H.
  assert (E : match force 3 1 ex_writes_input with
              | Threw _ s => clean (node s 1)
              | _ => true
              end = false) by (vm_compute; reflexivity).
  destruct (force 3 1 ex_writes_input) as [v s|e s|] eqn:F;
    try discriminate.
  destruct (H _ _ _ _ _ F) as [Hc _]. congruence.
Qed.

(** ** The context and the edges under [adaptonCompute] *)

Lemma final_related (RD RT : State -> State -> Prop) (s : State)
  (o : Outcome) (s' : State) :
  (forall x y, RD x y -> RT x y) ->
  related RD RT s o -> final o = Some s' -> RT s s'.
Proof.
  intros Hsub R H. destruct o; cbn in *; try discriminate;
    injection H as <-; auto.
Qed.

Lemma nothing_in_nil (l : list Adapton) :
  (forall y, In y l -> In y []) -> l = [].
Proof.
  destruct l as [|x l]; [reflexivity|]. intros H.
  destruct (H x). now left.
Qed.



Section Innermost_run.

Variable compute : Adapton -> State -> Outcome.
Variable dirty : Adapton -> State -> option State.
Variable inside : Adapton -> State -> option Adapton.

Hypothesis compute_done :
  forall a s v s', heap_only no_catch s -> compute a s = Done v s' ->
                   frame_done s s'.
Hypothesis compute_threw :
  forall a s e s', heap_only no_catch s -> compute a s = Threw e s' ->
                   currentlyAdapting s' =
                   context_at_throw (inside a s) (currentlyAdapting s).
Hypothesis dirty_done :
  forall a s s', dirty a s = Some s' -> frame_done s s'.

Lemma frame_done_no_catch (s s' : State) :
  frame_done s s' -> heap_only no_catch s -> heap_only no_catch s'.
Proof. intros (_ & _ & H & _). now apply heap_only_kept. Qed.

Lemma adaptonForce_done_context (a : Adapton) (s : State) (v : value)
  (s' : State) :
  heap_only no_catch s ->
  adaptonForce compute a s = Done v s' ->
  frame_done s s'.
Proof.
  unfold adaptonForce. intros Hs.
  destruct (compute a (set_context (Some a) s)) as [v1 s1|e1 s1|] eqn:E;
    try discriminate.
  apply compute_done in E; [|exact Hs].
  apply frame_done_restore in E.
  cbn. destruct (currentlyAdapting s) as [c|] eqn:Ec; intros [= _ <-].
  - eapply frame_done_trans; [exact E | apply frame_done_addEdge].
  - exact E.
Qed.

Lemma run_threw_context (p : Prog) :
  forall s e s',
    only no_catch p -> heap_only no_catch s ->
    run compute dirty p s = Threw e s' ->
    currentlyAdapting s' =
    context_at_throw (forcing_at_throw compute dirty inside p s)
                     (currentlyAdapting s).
Proof.
  induction p as [w|x|b k IH|b k IH|b k IH|b c k IH|b c k IH|b k IH|b w k IH
                 |body IHb h IHh k IH];
    intros s e s' Hp Hs H; inversion Hp; subst;
    cbn [run forcing_at_throw] in *; try discriminate.
  - now injection H as _ <-.
  - apply IH with e; auto.
  - destruct (compute b s) as [v1 s1|e1 s1|] eqn:E; try discriminate.
    + assert (F := compute_done _ _ _ _ Hs E).
      rewrite (IH v1 s1 e s');
        [|auto | exact (frame_done_no_catch _ _ F Hs) | exact H].
      destruct F as (_ & -> & _). reflexivity.
    + injection H as _ <-. now apply compute_threw with e1.
  - destruct (adaptonForce compute b s) as [v1 s1|e1 s1|] eqn:E;
      try discriminate.
    + assert (F := adaptonForce_done_context _ _ _ _ Hs E).
      rewrite (IH v1 s1 e s');
        [|auto | exact (frame_done_no_catch _ _ F Hs) | exact H].
      destruct F as (_ & -> & _). reflexivity.
    + injection H as _ <-. unfold adaptonForce in E.
      destruct (compute b (set_context (Some b) s)) as [v2 s2|e2 s2|] eqn:E2;
        try discriminate.
      * cbn in E. destruct (currentlyAdapting s); discriminate.
      * injection E as _ <-.
        rewrite (compute_threw b (set_context (Some b) s) e2 s2 Hs E2).
        now destruct (inside b (set_context (Some b) s)).
  - refine (IH (addEdge b c s) e s' _ _ H); [assumption|].
    apply heap_only_kept with s; [|exact Hs].
    intros x. now rewrite node_addEdge.
  - refine (IH (deleteEdge b c s) e s' _ _ H); [assumption|].
    apply heap_only_kept with s; [|exact Hs].
    intros x. now rewrite node_deleteEdge.
  - destruct (dirty b s) as [s1|] eqn:E; try discriminate.
    assert (F := dirty_done _ _ _ E).
    rewrite (IH s1 e s');
      [|assumption | exact (frame_done_no_catch _ _ F Hs) | exact H].
    destruct F as (_ & -> & _). reflexivity.
  - destruct (dirty b (set_result b w s)) as [s1|] eqn:E; try discriminate.
    assert (F := dirty_done _ _ _ E).
    assert (Hs' : heap_only no_catch (set_result b w s)).
    { intros x. rewrite node_set_result. destruct (Nat.eqb x b); apply Hs. }
    rewrite (IH s1 e s');
      [|assumption | exact (frame_done_no_catch _ _ F Hs') | exact H].
    destruct F as (_ & -> & _). reflexivity.
Qed.

End Innermost_run.

Lemma compute_threw_context (fuel : nat) :
  forall a s e s',
    heap_only no_catch s ->
    adaptonCompute fuel a s = Threw e s' ->
    currentlyAdapting s' =
    context_at_throw (forcing_inside fuel a s) (currentlyAdapting s).
Proof.
  induction fuel as [|fuel IH]; intros a s e s' Hs H;
    destruct (compute_threw_dirty _ _ _ _ _ H) as [Ha [f Hf]];
    [discriminate|]. injection Hf as <-.
  rewrite adaptonCompute_dirty in H by assumption.
  cbn [forcing_inside]. rewrite Ha.
  destruct (frame_before_thunk a s) as (_ & F2 & _ & F4).
  assert (Hbt : heap_only no_catch (before_thunk a s))
    by (apply heap_only_kept with s; assumption).
  destruct (exec fuel (thunk (node s a)) (before_thunk a s))
    as [v3 s3|e3 s3|] eqn:E; try discriminate.
  - assert (R := exec_frame fuel (thunk (node s a)) (before_thunk a s)
                            (Hs a) Hbt).
    rewrite E in R. destruct R as (_ & R & R3 & _).
    assert (Hs3 : heap_only no_catch (set_result a v3 s3)).
    { intros x. rewrite node_set_result.
      destruct (Nat.eqb x a); cbn; rewrite R3; apply Hbt. }
    rewrite (IH _ _ _ _ Hs3 H). cbn.
    change (currentlyAdapting (set_result a v3 s3))
      with (currentlyAdapting s3). now rewrite R, F2.
  - injection H as _ <-. rewrite <- F2. unfold exec in E.
    apply run_threw_context with (e := e3); auto.
    + intros b s0 v s1 Hs0 Hb. assert (R := compute_frame fuel b s0 Hs0).
      rewrite Hb in R. exact R.
    + intros b s0 s1 Hb. now apply frame_done_dirty in Hb.
Qed.

Lemma no_force_forcing_at_throw (fuel : nat) (p : Prog) :
  (forall a s, heap_only no_force s -> forcing_inside fuel a s = None) ->
  forall s, only no_force p -> heap_only no_force s ->
            forcing_at_throw (adaptonCompute fuel) (adaptonDirty fuel)
                             (forcing_inside fuel) p s = None.
Proof.
  intros Hin.
  assert (Hk : forall q s o s',
             only no_force q -> heap_only no_force s ->
             related (context_kept no_force) (context_kept no_force) s o ->
             final o = Some s' -> heap_only no_force s').
  { intros q s o s' _ Hs R H.
    destruct (final_related _ _ _ _ _ (fun x y h => h) R H) as (R1 & _).
    now apply heap_only_kept with s. }
  pose (Rule := no_force_rule no_force eq_refl).
  induction p as [w|x|b k IH|b k IH|b k IH|b c k IH|b c k IH|b k IH|b w k IH
                 |body IHb h IHh k IH];
    intros s Hp Hs; inversion Hp; subst; cbn [forcing_at_throw];
    try reflexivity; try discriminate.
  - auto.
  - assert (R := compute_rule Rule fuel b s Logic.I Hs).
    destruct (adaptonCompute fuel b s) as [v1 s1|e1 s1|] eqn:E; auto.
    apply IH; [auto|]. destruct R as (R & _).
    now apply heap_only_kept with s.
  - apply IH; [assumption|]. apply heap_only_kept with s; [|exact Hs].
    intros x. now rewrite node_addEdge.
  - apply IH; [assumption|]. apply heap_only_kept with s; [|exact Hs].
    intros x. now rewrite node_deleteEdge.
  - destruct (adaptonDirty fuel b s) as [s1|] eqn:E; [|reflexivity].
    apply IH; [assumption|]. apply frame_done_dirty in E.
    destruct E as (_ & _ & E & _). now apply heap_only_kept with s.
  - destruct (adaptonDirty fuel b (set_result b w s)) as [s1|] eqn:E;
      [|reflexivity].
    apply IH; [assumption|]. apply frame_done_dirty in E.
    destruct E as (_ & _ & E & _).
    apply heap_only_kept with (set_result b w s); [exact E|].
    intros x. rewrite node_set_result. destruct (Nat.eqb x b); apply Hs.
  - fold (exec fuel body s).
    assert (Rb := exec_rule Rule fuel body s H3 Hs).
    destruct (exec fuel body s) as [v1 s1|e1 s1|] eqn:E; [| |reflexivity].
    + apply IH; [auto|]. destruct Rb as (Rb & _).
      now apply heap_only_kept with s.
    + assert (Hs1 : heap_only no_force s1)
        by (destruct Rb as (Rb & _); now apply heap_only_kept with s).
      fold (exec fuel (h e1) s1).
      assert (Rh := exec_rule Rule fuel (h e1) s1 (H4 e1) Hs1).
      destruct (exec fuel (h e1) s1) as [v2 s2|e2 s2|] eqn:E2.
      * apply IH; [auto|]. destruct Rh as (Rh & _).
        now apply heap_only_kept with s1.
      * now apply IHh.
      * now apply IHh.
Qed.

Lemma no_force_innermost (fuel : nat) :
  forall a s, heap_only no_force s -> forcing_inside fuel a s = None.
Proof.
  induction fuel as [|fuel IH]; intros a s Hs; cbn [forcing_inside];
    destruct (clean (node s a)) eqn:Ha; try reflexivity.
  assert (Hbt : heap_only no_force (before_thunk a s))
    by (apply heap_only_kept with s;
        [apply frame_before_thunk | exact Hs]).
  assert (R := exec_rule (no_force_rule no_force eq_refl) fuel
                         (thunk (node s a)) (before_thunk a s) (Hs a) Hbt).
  destruct (exec fuel (thunk (node s a)) (before_thunk a s))
    as [v3 s3|e3 s3|] eqn:E; try reflexivity.
  - apply IH. intros x. rewrite node_set_result.
    destruct R as (R & _).
    destruct (Nat.eqb x a); cbn; rewrite R; apply Hbt.
  - now apply no_force_forcing_at_throw.
Qed.

Lemma force_threw_context (fuel : nat) (a : Adapton) (s : State)
  (e : value) (s' : State) :
  heap_only no_catch s ->
  force fuel a s = Threw e s' ->
  currentlyAdapting s' = Some (innermost_forced fuel a s).
Proof.
  intros Hs H. rewrite force_unfold in H.
  destruct (adaptonCompute fuel a (set_context (Some a) s))
    as [v1 s1|e1 s1|] eqn:E; try discriminate.
  - destruct (currentlyAdapting s); discriminate.
  - injection H as _ <-.
    rewrite (compute_threw_context fuel a (set_context (Some a) s)
                                   e1 s1 Hs E).
    unfold innermost_forced.
    now destruct (forcing_inside fuel a (set_context (Some a) s)).
Qed.



(** ** The theorems at work on the example states *)

Lemma force_threads_context_witness :
  exists st',
    force 2 0 ex_chain = Done (VNum 5) st' /\
    currentlyAdapting st' = None /\
    sub (node st' 0) = [1] /\ sub (node st' 1) = [2] /\
    In 0 (super (node st' 1)) /\ In 1 (super (node st' 2)).
Proof.
  destruct force_threads_context as (_ & _ & H).
  apply (H 0 0 1 2 ex_chain); try discriminate; reflexivity.
Defined.

Lemma final_state_of (o : Outcome) (d : State) :
  returned_or_threw o = true -> final o = Some (state_of o d).
Proof. destruct o; [reflexivity | reflexivity | discriminate]. Defined.

Lemma ex_plus3_forced_reachable : reachable ex_plus3_forced.
Proof.
  apply reach_step with (s := ex_plus3) (op := OForce 1) (fuel := 3).
  - apply reach_step
      with (s := snd (adaptonRef (VNum 5) init))
           (op := OMakeAthunk
                    (fun _ => Force 0 (fun x => Ret (num2 Z.add x (VNum 3)))))
           (fuel := 0).
    + apply reach_step with (s := init) (op := OAdaptonRef (VNum 5))
                            (fuel := 0);
        [apply reach_init | exact Logic.I | reflexivity].
    + exact Logic.I.
    + reflexivity.
  - split; [cbn; lia|]. intros x. destruct x as [|[|x]]; cbn.
    + constructor; [lia | constructor].
    + constructor; [lia | intros v; constructor].
    + constructor.
  - change (final (force 3 1 ex_plus3) =
            Some (state_of (force 3 1 ex_plus3) init)).
    apply final_state_of. vm_compute. reflexivity.
Defined.

Lemma edges_stay_symmetric_witness :
  reachable ex_plus3_forced /\
  forall x y, In y (sub (node ex_plus3_forced x)) <->
              In x (super (node ex_plus3_forced y)).
Proof.
  split; [exact ex_plus3_forced_reachable|].
  apply (proj1 edges_stay_symmetric). exact ex_plus3_forced_reachable.
Defined.

Lemma ex_plus3_forced_clean_below : clean_below 2 ex_plus3_forced.
Proof.
  intros x. destruct x as [|[|x]]; [lia | lia |].
  vm_compute. discriminate.
Defined.

Lemma dirty_clears_clean_chains_witness :
  clean_below 2 ex_plus3_forced /\
  exists st',
    adaptonDirty 2 0 ex_plus3_forced = Some st' /\
    clean (node st' 0) = false /\ clean (node st' 1) = false.
Proof.
  split; [exact ex_plus3_forced_clean_below|].
  destruct (dirty_clears_clean_chains 2 0 ex_plus3_forced
              ex_plus3_forced_clean_below)
    as (st' & H1 & H2 & _).
  exists st'. split; [exact H1|].
  assert (P0 : clean_path ex_plus3_forced 0 0)
    by (apply cp_here; vm_compute; reflexivity).
  split; [now apply H2|].
  apply H2. apply cp_step with 0; [exact P0 | |].
  - vm_compute. now left.
  - vm_compute. reflexivity.
Defined.

Lemma throw_passes_through_witness :
  clean (node ex_nested_throw 1) = false /\
  adaptonCompute 1 1 ex_nested_throw =
  Threw (VNum 99) (before_thunk 1 ex_nested_throw).
Proof.
  split; [reflexivity|].
  apply (proj1 throw_passes_through); reflexivity.
Defined.

Lemma ex_stale_edge_quiet (A : OpKind -> bool) :
  A KGetResult = true -> heap_only A ex_stale_edge.
Proof.
  intros HA x. destruct x as [|[|x]].
  - apply only_GetResult; [exact HA|]. intros v. apply only_Ret.
  - apply only_Ret.
  - apply only_Ret.
Defined.


Lemma ex_nested_throw_no_catch : heap_only no_catch ex_nested_throw.
Proof.
  intros x. destruct x as [|[|x]].
  - apply only_Force; [reflexivity|]. intros v. apply only_Ret.
  - apply only_Throw. reflexivity.
  - apply only_Ret.
Defined.


(** ** Tracked heaps *)

Lemma tracked_kept_refl (s : State) : tracked_kept s s.
Proof. unfold tracked_kept. auto 6. Qed.

Lemma tracked_kept_trans (s1 s2 s3 : State) :
  tracked_kept s1 s2 -> tracked_kept s2 s3 -> tracked_kept s1 s3.
Proof.
  intros (A1 & A2 & A3) (B1 & B2 & B3). unfold tracked_kept.
  split; [intros x; now rewrite B1|]. split; [congruence|].
  intros y Hy. destruct (A3 y Hy) as (H1 & H2 & H3 & H4).
  destruct (B3 y H1) as (K1 & K2 & K3 & K4).
  split; [assumption|]. split; [congruence|]. split; [auto|].
  intros Hc. rewrite K4, H4; auto. now rewrite A2.
Qed.

Lemma tracked_kept_recompute (a : Adapton) (v : value) (s s3 : State) :
  clean (node s a) = false ->
  tracked_kept (before_thunk a s) s3 ->
  tracked_kept s (set_result a v s3).
Proof.
  intros Ha (B1 & B2 & B3).
  destruct (frame_before_thunk a s) as (F1 & F2 & F3 & F4).
  split; [|split].
  - intros x. rewrite node_set_result.
    destruct (Nat.eqb x a); cbn; rewrite B1; apply F4.
  - cbn. congruence.
  - intros y Hy.
    assert (Hne : Nat.eqb y a = false) by (apply Nat.eqb_neq; congruence).
    rewrite node_set_result, Hne.
    destruct (B3 y) as (H1 & H2 & H3 & H4).
    + rewrite node_before_thunk. cbn [clean]. now rewrite Hne.
    + rewrite node_before_thunk in H2, H3, H4. cbn [result sub] in H2, H3, H4.
      rewrite Hne in H3, H4. rewrite F2 in H4. auto.
Qed.

Lemma tracked_kept_force_exit (a : Adapton) (s s1 : State) :
  tracked_kept (set_context (Some a) s) s1 ->
  (clean (node s a) = true -> s1 = set_context (Some a) s) ->
  tracked_kept s (force_exit s a s1).
Proof.
  intros (B1 & B2 & B3) Hcl.
  assert (Hn : forall x,
             thunk (node (force_exit s a s1) x) = thunk (node s1 x) /\
             clean (node (force_exit s a s1) x) = clean (node s1 x) /\
             result (node (force_exit s a s1) x) = result (node s1 x) /\
             (forall b, In b (sub (node s1 x)) ->
                        In b (sub (node (force_exit s a s1) x))) /\
             (currentlyAdapting s <> Some x ->
              sub (node (force_exit s a s1) x) = sub (node s1 x))).
  { intros x. unfold force_exit.
    destruct (currentlyAdapting s) as [c|]; [|now auto 6].
    rewrite node_addEdge. cbn [thunk clean result sub].
    change (node (set_context (Some c) s1) x) with (node s1 x).
    repeat split.
    - intros b Hb. destruct (Nat.eqb x c); [apply set_add_In|]; auto.
    - intros Hc. destruct (Nat.eqb_spec x c) as [->|_]; congruence. }
  split; [|split].
  - intros x. destruct (Hn x) as (-> & _). apply B1.
  - unfold force_exit. now destruct (currentlyAdapting s).
  - intros y Hy. destruct (Hn y) as (_ & -> & -> & Hin & Heq).
    destruct (B3 y Hy) as (H1 & H2 & H3 & H4).
    split; [assumption|]. split; [assumption|]. split; [auto|].
    intros Hc. rewrite (Heq Hc).
    destruct (Nat.eqb_spec y a) as [->|Hne].
    + now rewrite (Hcl Hy).
    + apply H4. cbn. congruence.
Qed.

Lemma tracked_rule :
  engine_rule tracked_prog any_node any_node tracked_heap
              tracked_kept anything.
Proof.
  constructor; unfold any_node, anything; try solve [auto | tauto].
  - intros. apply tracked_kept_refl.
  - intros. eapply tracked_kept_trans; eauto.
  - intros s1 s2 Hs (H & _) x. rewrite H. apply Hs.
  - intros a k [H|[x H]].
    + inversion H. discriminate.
    + injection H as -> ->. intros v. left. constructor.
  - intros a k [H|[x H]]; [inversion H|]; discriminate.
  - intros a k [H|[x H]]; [|discriminate]. inversion H; subst.
    split; [exact Logic.I|]. intros v. left. auto.
  - intros a b k [H|[x H]]; [inversion H|]; discriminate.
  - intros a b k [H|[x H]]; [inversion H|]; discriminate.
  - intros a k [H|[x H]]; [inversion H|]; discriminate.
  - intros a v k [H|[x H]]; [inversion H|]; discriminate.
  - intros s a _ Hs _ x.
    destruct (frame_before_thunk a s) as (_ & _ & _ & ->). apply Hs.
  - intros s a s3 v _ _ Ha H. now apply tracked_kept_recompute.
  - intros s a s1 _ _ H Hcl. now apply tracked_kept_force_exit.
  - intros body h k [H|[x H]]; [inversion H|]; discriminate.
Qed.

Lemma add_all_In (l s : list Adapton) (b : Adapton) :
  In b (add_all l s) <-> In b l \/ In b s.
Proof.
  unfold add_all. revert s. induction l as [|x l IH]; intros s; simpl.
  - tauto.
  - rewrite IH, set_add_In. intuition.
Qed.

Lemma tracked_prog_force (b : Adapton) (k : value -> Prog) (v : value) :
  tracked_prog (Force b k) -> tracked_prog (k v).
Proof.
  intros [H|[x H]]; [|discriminate]. inversion H; subst. left. auto.
Qed.

Lemma force_adds_to_context (fuel : nat) (a b : Adapton) (s : State)
  (v : value) (s1 : State) :
  tracked_heap s ->
  currentlyAdapting s = Some a -> clean (node s a) = true ->
  force fuel b s = Done v s1 ->
  sub (node s1 a) = set_add b (sub (node s a)) /\
  tracked_kept s s1.
Proof.
  intros Hs Hc Ha H.
  assert (R := forcing_rule tracked_rule fuel b s Logic.I Hs).
  rewrite H in R. cbn in R. split; [|exact R].
  rewrite force_unfold in H.
  destruct (adaptonCompute fuel b (set_context (Some b) s))
    as [vb s1c|e s1c|] eqn:E; try discriminate.
  rewrite Hc in H. injection H as <- <-.
  rewrite node_addEdge. cbn [sub]. rewrite Nat.eqb_refl.
  change (node (set_context (Some a) s1c) a) with (node s1c a).
  f_equal.
  destruct (Nat.eqb_spec b a) as [->|Hne].
  - rewrite adaptonCompute_clean in E by exact Ha. now injection E as <- <-.
  - assert (Rc := compute_rule tracked_rule fuel b (set_context (Some b) s)
                               Logic.I Hs).
    rewrite E in Rc. destruct Rc as (_ & _ & Rc).
    destruct (Rc a Ha) as (_ & _ & _ & Heq). apply Heq.
    cbn. congruence.
Qed.

Lemma run_collects (fuel : nat) (a : Adapton) :
  forall p s v s',
    tracked_heap s -> tracked_prog p ->
    currentlyAdapting s = Some a -> clean (node s a) = true ->
    exec fuel p s = Done v s' ->
    sub (node s' a) =
    add_all (forced_by (adaptonCompute fuel) (adaptonDirty fuel) p s)
            (sub (node s a)) /\
    clean (node s' a) = true.
Proof.
  unfold exec.
  induction p as [w|e|b k IH|b k IH|b k IH|b c k IH|b c k IH|b k IH|b w k IH
                 |body IHb h IHh k IH];
    intros s v s' Hs Hp Hc Ha H; cbn [run forced_by] in *.
  - injection H as <- <-. auto.
  - discriminate.
  - destruct Hp as [Hp|[x Hp]]; [inversion Hp; discriminate|].
    injection Hp as -> ->. cbn in *. injection H as <- <-. auto.
  - destruct Hp as [Hp|[x Hp]]; [inversion Hp|]; discriminate.
  - fold (force fuel) in *.
    destruct (force fuel b s) as [vb s1|e1 s1|] eqn:E; try discriminate.
    destruct (force_adds_to_context fuel a b s vb s1 Hs Hc Ha E)
      as [Hsub (K1 & K2 & K3)].
    destruct (K3 a Ha) as (Ha1 & _).
    destruct (IH vb s1 v s') as [H1 H2]; auto.
    + intros x. rewrite K1. apply Hs.
    + now apply tracked_prog_force with b.
    + congruence.
    + split; [|exact H2]. rewrite H1, Hsub. reflexivity.
  - destruct Hp as [Hp|[x Hp]]; [inversion Hp|]; discriminate.
  - destruct Hp as [Hp|[x Hp]]; [inversion Hp|]; discriminate.
  - destruct Hp as [Hp|[x Hp]]; [inversion Hp|]; discriminate.
  - destruct Hp as [Hp|[x Hp]]; [inversion Hp|]; discriminate.
  - destruct Hp as [Hp|[x Hp]]; [inversion Hp|]; discriminate.
Qed.


Lemma ex_switched_conditional :
  forces_conditionally (thunk (node ex_switched 3)).
Proof.
  exists 2, ex_switched, ex_switch.
  assert (E1 : forced_by (adaptonCompute 2) (adaptonDirty 2)
                         (thunk (node ex_switched 3)) ex_switched = [0; 2])
    by (vm_compute; reflexivity).
  assert (E2 : forced_by (adaptonCompute 2) (adaptonDirty 2)
                         (thunk (node ex_switched 3)) ex_switch = [0; 1])
    by (vm_compute; reflexivity).
  rewrite E1, E2. discriminate.
Qed.


Lemma ex_switched_tracked : tracked_heap ex_switched.
Proof.
  intros x. destruct x as [|[|[|[|x]]]].
  - right. exists 0. vm_compute. reflexivity.
  - right. exists 1. vm_compute. reflexivity.
  - right. exists 2. vm_compute. reflexivity.
  - left. vm_compute. apply only_Force; [reflexivity|].
    intros [|[| |]]; (apply only_Force; [reflexivity|]);
      intros v; apply only_Ret.
  - left. vm_compute. apply only_Ret.
Defined.


(** ** Fuel *)

Section Run_mono.

Variables compute1 compute2 : Adapton -> State -> Outcome.
Variables dirty1 dirty2 : Adapton -> State -> option State.

(** A call that came to an end, by returning or by throwing, does the
    same with more fuel.  The two endings go together: whether a
    handler runs depends on the throw. *)
Hypothesis compute_le :
  forall a s o, compute1 a s = o -> o <> OutOfFuel -> compute2 a s = o.
Hypothesis dirty_le :
  forall a s s', dirty1 a s = Some s' -> dirty2 a s = Some s'.

Lemma adaptonForce_mono (a : Adapton) (s : State) (o : Outcome) :
  adaptonForce compute1 a s = o -> o <> OutOfFuel ->
  adaptonForce compute2 a s = o.
Proof.
  unfold adaptonForce.
  destruct (compute1 a (set_context (Some a) s)) as [v1 s1|e1 s1|] eqn:E;
    intros <- Ho.
  - now rewrite (compute_le _ _ _ E).
  - now rewrite (compute_le _ _ _ E).
  - now destruct Ho.
Qed.

Lemma run_mono (p : Prog) :
  forall s o,
    run compute1 dirty1 p s = o -> o <> OutOfFuel ->
    run compute2 dirty2 p s = o.
Proof.
  induction p as [w|e|b k IH|b k IH|b k IH|b c k IH|b c k IH|b k IH|b w k IH
                 |body IHb h IHh k IH];
    intros s o H Ho; cbn [run] in *; auto.
  - destruct (compute1 b s) as [v1 s1|e1 s1|] eqn:E.
    + rewrite (compute_le _ _ _ E) by discriminate. auto.
    + rewrite (compute_le _ _ _ E) by discriminate. auto.
    + now subst o.
  - destruct (adaptonForce compute1 b s) as [v1 s1|e1 s1|] eqn:E.
    + rewrite (adaptonForce_mono _ _ _ E) by discriminate. auto.
    + rewrite (adaptonForce_mono _ _ _ E) by discriminate. auto.
    + now subst o.
  - destruct (dirty1 b s) as [s1|] eqn:E.
    + rewrite (dirty_le _ _ _ E). auto.
    + now subst o.
  - destruct (dirty1 b (set_result b w s)) as [s1|] eqn:E.
    + rewrite (dirty_le _ _ _ E). auto.
    + now subst o.
  - destruct (run compute1 dirty1 body s) as [v1 s1|e1 s1|] eqn:E.
    + rewrite (IHb _ _ E) by discriminate. auto.
    + rewrite (IHb _ _ E) by discriminate.
      destruct (run compute1 dirty1 (h e1) s1) as [v2 s2|e2 s2|] eqn:E2.
      * rewrite (IHh _ _ _ E2) by discriminate. auto.
      * rewrite (IHh _ _ _ E2) by discriminate. auto.
      * now subst o.
    + now subst o.
Qed.

End Run_mono.

Lemma adaptonDirty_mono (f : nat) :
  forall f' a s s',
    f <= f' -> adaptonDirty f a s = Some s' -> adaptonDirty f' a s = Some s'.
Proof.
  induction f as [|f IH]; intros f' a s s' Hle H.
  - cbn in H. destruct (clean (node s a)) eqn:E; [discriminate|].
    destruct f'; cbn; now rewrite E.
  - destruct f' as [|f']; [lia|].
    rewrite adaptonDirty_unfold in *.
    destruct (clean (node s a)); cbn [negb] in *; [|assumption].
    revert H. generalize (set_clean a false s).
    induction (super (node s a)) as [|y l IHl]; intros s0 H; [assumption|].
    rewrite dirty_each_cons in *.
    destruct (adaptonDirty f y s0) as [s1|] eqn:E.
    + rewrite (IH f' y s0 s1) by (lia || assumption). auto.
    + now rewrite dirty_each_none in H.
Qed.

Lemma adaptonCompute_ends_mono (f : nat) :
  forall f' a s o,
    f <= f' -> adaptonCompute f a s = o -> o <> OutOfFuel ->
    adaptonCompute f' a s = o.
Proof.
  induction f as [|f IH]; intros f' a s o Hle H Ho;
    destruct (clean (node s a)) eqn:E.
  - rewrite adaptonCompute_clean in * by assumption. assumption.
  - cbn in H. rewrite E in H. now subst o.
  - rewrite adaptonCompute_clean in * by assumption. assumption.
  - destruct f' as [|f']; [lia|].
    rewrite adaptonCompute_dirty in * by assumption. unfold exec in *.
    destruct (run (adaptonCompute f) (adaptonDirty f) (thunk (node s a))
                  (before_thunk a s)) as [v3 s3|e3 s3|] eqn:R.
    + rewrite (run_mono (adaptonCompute f) (adaptonCompute f')
                        (adaptonDirty f) (adaptonDirty f'))
        with (o := Done v3 s3).
      * apply IH; [lia | assumption | assumption].
      * intros. apply IH with (f' := f'); [lia | assumption | assumption].
      * intros. apply adaptonDirty_mono with f; [lia | assumption].
      * assumption.
      * discriminate.
    + rewrite (run_mono (adaptonCompute f) (adaptonCompute f')
                        (adaptonDirty f) (adaptonDirty f'))
        with (o := Threw e3 s3).
      * assumption.
      * intros. apply IH with (f' := f'); [lia | assumption | assumption].
      * intros. apply adaptonDirty_mono with f; [lia | assumption].
      * assumption.
      * discriminate.
    + now subst o.
Qed.

Lemma adaptonCompute_mono (f : nat) :
  forall f' a s v s',
    f <= f' -> adaptonCompute f a s = Done v s' ->
    adaptonCompute f' a s = Done v s'.
Proof.
  intros f' a s v s' Hle H.
  now apply adaptonCompute_ends_mono with f.
Qed.

Lemma force_mono (f f' : nat) (a : Adapton) (s : State) (v : value)
  (s' : State) :
  f <= f' -> force f a s = Done v s' -> force f' a s = Done v s'.
Proof.
  intros Hle H. unfold force in *.
  apply adaptonForce_mono with (adaptonCompute f); [|exact H|discriminate].
  intros. now apply adaptonCompute_ends_mono with f.
Qed.

Lemma exec_mono (f f' : nat) (p : Prog) (s : State) (v : value)
  (s' : State) :
  f <= f' -> exec f p s = Done v s' -> exec f' p s = Done v s'.
Proof.
  intros Hle H. unfold exec in *.
  apply run_mono with (adaptonCompute f) (adaptonDirty f);
    [| |exact H|discriminate].
  - intros. now apply adaptonCompute_ends_mono with f.
  - intros. now apply adaptonDirty_mono with f.
Qed.

(** ** From-scratch evaluation *)

Lemma fresh_run_mono (e e' : Adapton -> option value) (s : State) :
  (forall a v, e a = Some v -> e' a = Some v) ->
  forall p v, fresh_run e s p = Some v -> fresh_run e' s p = Some v.
Proof.
  intros He.
  induction p as [w|x|b k IH|b k IH|b k IH|b c k IH|b c k IH|b k IH|b w k IH
                 |body IHb h IHh k IH];
    intros v H; cbn [fresh_run] in *; auto;
    destruct (e b) as [vb|] eqn:E; try discriminate;
    rewrite (He _ _ E); auto.
Qed.

Lemma fresh_mono (f : nat) :
  forall f' s a v, f <= f' -> fresh f s a = Some v -> fresh f' s a = Some v.
Proof.
  induction f as [|f IH]; intros f' s a v Hle H; [discriminate|].
  destruct f' as [|f']; [lia|]. cbn [fresh] in *.
  apply fresh_run_mono with (e := fresh f s); [|assumption].
  intros b vb. apply IH. lia.
Qed.

Lemma fresh_run_forces (rank : Adapton -> nat) (n : nat)
  (e e' : Adapton -> option value) (s s' : State) :
  (forall b, rank b < n -> e' b = e b) ->
  forall p, forces_below rank n p -> fresh_run e' s' p = fresh_run e s p.
Proof.
  intros He. induction 1 as [v|b k Hb Hk IH]; cbn [fresh_run]; auto.
  rewrite (He b Hb). destruct (e b); auto.
Qed.

Lemma fresh_kept (rank : Adapton -> nat) (s s' : State) :
  layered rank s ->
  (forall x, thunk (node s' x) = thunk (node s x)) ->
  (forall x, thunk (node s x) = ref_thunk x ->
             result (node s' x) = result (node s x)) ->
  forall f a, fresh f s' a = fresh f s a.
Proof.
  intros Hl Ht Hr. induction f as [|f IH]; intros a; [reflexivity|].
  cbn [fresh]. rewrite Ht. destruct (Hl a) as [H|H].
  - rewrite H. cbn. now rewrite (Hr a H).
  - apply fresh_run_forces with rank (rank a); auto.
Qed.

Lemma fresh_run_heap (e e' : Adapton -> option value) (s s' : State) :
  (forall a, e' a = e a) ->
  (forall a, result (node s' a) = result (node s a)) ->
  forall p, fresh_run e' s' p = fresh_run e s p.
Proof.
  intros He Hr.
  induction p as [w|x|b k IH|b k IH|b k IH|b c k IH|b c k IH|b k IH|b w k IH
                 |body IHb h IHh k IH];
    cbn [fresh_run]; auto.
  - now rewrite Hr.
  - rewrite He. destruct (e b); auto.
  - rewrite He. destruct (e b); auto.
Qed.

Lemma fresh_heap (s s' : State) :
  (forall a, node s' a = node s a) ->
  forall f a, fresh f s' a = fresh f s a.
Proof.
  intros H. induction f as [|f IH]; intros a; [reflexivity|].
  cbn [fresh]. rewrite H. apply fresh_run_heap; auto.
  intros b. now rewrite H.
Qed.

(** ** Acyclic graphs of tracked computations *)

Lemma forces_below_tracked (rank : Adapton -> nat) (n : nat) (p : Prog) :
  forces_below rank n p -> only just_force p.
Proof. induction 1; constructor; auto. Qed.

Lemma layered_tracked (rank : Adapton -> nat) (s : State) :
  layered rank s -> tracked_heap s.
Proof.
  intros H x. destruct (H x) as [E|E].
  - right. now exists x.
  - left. now apply forces_below_tracked with rank (rank x).
Qed.

Lemma layered_kept (rank : Adapton -> nat) (s s' : State) :
  (forall x, thunk (node s' x) = thunk (node s x)) ->
  layered rank s -> layered rank s'.
Proof. intros H Hl x. rewrite H. apply Hl. Qed.

Lemma forces_below_not_ref (rank : Adapton -> nat) (n : nat) (x : Adapton) :
  ~ forces_below rank n (ref_thunk x).
Proof. intros H. inversion H. Qed.

Lemma reads_ok_kept (s s' : State) (y : Adapton) (p : Prog) (v : value) :
  (forall b, clean (node s b) = true ->
             clean (node s' b) = true /\
             result (node s' b) = result (node s b)) ->
  (forall b, In b (sub (node s y)) -> In b (sub (node s' y))) ->
  reads_ok s y p v -> reads_ok s' y p v.
Proof.
  intros Hc Hin. induction 1 as [v|b k v Hb Hsub _ IH].
  - constructor.
  - destruct (Hc b Hb) as [H1 H2].
    constructor; auto. now rewrite H2.
Qed.

Lemma good_kept (s s' : State) (y : Adapton) :
  tracked_kept s s' -> clean (node s y) = true -> good s y -> good s' y.
Proof.
  intros (K1 & K2 & K3) Hy [H|H].
  - left. now rewrite K1.
  - right. destruct (K3 y Hy) as (_ & Hr & Hin & _).
    rewrite K1, Hr. apply reads_ok_kept with s; auto.
    intros b Hb. destruct (K3 b Hb) as (? & ? & _). auto.
Qed.

Lemma reads_ok_set_result (rank : Adapton -> nat) (n : nat) (s : State)
  (x y : Adapton) (w : value) (p : Prog) (v : value) :
  forces_below rank n p -> n <= rank x ->
  reads_ok s y p v -> reads_ok (set_result x w s) y p v.
Proof.
  intros Hp Hn H. revert Hp.
  induction H as [v|b k v Hb Hsub _ IH]; intros Hp.
  - constructor.
  - inversion Hp as [|b' k' Hrb Hk]; subst.
    assert (Hne : Nat.eqb b x = false)
      by (apply Nat.eqb_neq; intros ->; lia).
    constructor.
    + now rewrite node_set_result, Hne.
    + rewrite node_set_result. now destruct (Nat.eqb y x).
    + rewrite node_set_result, Hne. apply IH. apply Hk.
Qed.

Lemma good_set_result (rank : Adapton -> nat) (s : State)
  (x y : Adapton) (w : value) :
  layered rank s -> rank y <= rank x -> y <> x ->
  good s y -> good (set_result x w s) y.
Proof.
  intros Hl Hr Hne [H|H]; apply Nat.eqb_neq in Hne.
  - left. now rewrite node_set_result, Hne.
  - destruct (Hl y) as [E|E]; [left; now rewrite node_set_result, Hne|].
    right. rewrite node_set_result, Hne.
    now apply reads_ok_set_result with rank (rank y).
Qed.

Lemma reads_ok_fresh (rank : Adapton -> nat) (s : State) (x : Adapton)
  (n : nat) :
  (forall b, rank b < n -> clean (node s b) = true ->
             fresh n s b = Some (result (node s b))) ->
  forall p v, forces_below rank n p -> reads_ok s x p v ->
              fresh_run (fresh n s) s p = Some v.
Proof.
  intros Hb p v Hp H. revert Hp.
  induction H as [v|b k v Hcl Hsub _ IH]; intros Hp; cbn [fresh_run].
  - reflexivity.
  - inversion Hp as [|b' k' Hrb Hk]; subst.
    rewrite (Hb b Hrb Hcl). apply IH. apply Hk.
Qed.

Lemma consistent_value (rank : Adapton -> nat) (n : nat) (s : State) :
  layered rank s -> consistent_below rank n s ->
  forall x, rank x < n -> clean (node s x) = true ->
            fresh (S (rank x)) s x = Some (result (node s x)).
Proof.
  intros Hl Hc.
  assert (H : forall m x, rank x < m -> m <= n -> clean (node s x) = true ->
                          fresh (S (rank x)) s x = Some (result (node s x))).
  { induction m as [|m IH]; intros x Hx Hm Hcl; [lia|].
    cbn [fresh]. destruct (Hl x) as [E|E].
    - rewrite E. reflexivity.
    - destruct (Hc x) as [G|G]; [lia | assumption | |].
      + rewrite G in E. now apply forces_below_not_ref in E.
      + apply reads_ok_fresh with rank x; auto.
        intros b Hb Hbc.
        apply fresh_mono with (S (rank b)); [lia|].
        apply IH; [lia | lia | assumption]. }
  intros x Hx. apply (H n); auto.
Qed.

(** ** Recomputation answers with the from-scratch value *)

Lemma refs_kept_refl (s : State) : refs_kept s s.
Proof. intros r _. reflexivity. Qed.

Lemma refs_kept_trans (s1 s2 s3 : State) :
  (forall x, thunk (node s2 x) = thunk (node s1 x)) ->
  refs_kept s1 s2 -> refs_kept s2 s3 -> refs_kept s1 s3.
Proof.
  intros Ht H1 H2 r Hr. rewrite H2, H1; auto. now rewrite Ht.
Qed.

Lemma tracked_kept_before_thunk (x : Adapton) (s : State) :
  clean (node s x) = false -> tracked_kept s (before_thunk x s).
Proof.
  intros Hx. destruct (frame_before_thunk x s) as (F1 & F2 & F3 & F4).
  split; [exact F4|]. split; [exact F2|]. intros y Hy.
  assert (Hne : Nat.eqb y x = false) by (apply Nat.eqb_neq; congruence).
  rewrite node_before_thunk. cbn [clean result sub]. rewrite Hne. auto.
Qed.

Lemma good_force_exit (s : State) (a : Adapton) (s1 : State) (y : Adapton) :
  good s1 y -> good (force_exit s a s1) y.
Proof.
  assert (Hn : forall x,
             thunk (node (force_exit s a s1) x) = thunk (node s1 x) /\
             clean (node (force_exit s a s1) x) = clean (node s1 x) /\
             result (node (force_exit s a s1) x) = result (node s1 x) /\
             (forall b, In b (sub (node s1 x)) ->
                        In b (sub (node (force_exit s a s1) x)))).
  { intros x. unfold force_exit.
    destruct (currentlyAdapting s) as [c|]; [|now auto].
    rewrite node_addEdge. cbn [thunk clean result sub].
    change (node (set_context (Some c) s1) x) with (node s1 x).
    repeat split.
    intros b Hb. destruct (Nat.eqb x c); [apply set_add_In|]; auto. }
  intros [H|H].
  - left. destruct (Hn y) as (-> & _). exact H.
  - right. destruct (Hn y) as (-> & _ & -> & Hin).
    apply reads_ok_kept with s1; auto.
    intros b Hb. destruct (Hn b) as (_ & -> & -> & _). auto.
Qed.

Lemma force_of_compute (rank : Adapton -> nat) (fuel : nat) (x : Adapton)
  (s : State) (v : value) (s1 : State) :
  adaptonCompute fuel x (set_context (Some x) s) = Done v s1 ->
  computed rank x (set_context (Some x) s) v s1 ->
  force fuel x s = Done v (force_exit s x s1) /\
  forced_ok rank x s v (force_exit s x s1).
Proof.
  intros E (C1 & C2 & C3 & C4 & C5 & C6).
  split.
  { rewrite force_unfold, E. unfold force_exit.
    now destruct (currentlyAdapting s). }
  assert (Hn : forall y,
             clean (node (force_exit s x s1) y) = clean (node s1 y) /\
             result (node (force_exit s x s1) y) = result (node s1 y)).
  { intros y. unfold force_exit.
    destruct (currentlyAdapting s) as [c|]; [|now auto].
    rewrite node_addEdge. auto. }
  unfold forced_ok. split; [|split; [|split; [|split; [|split; [|split]]]]].
  - rewrite <- C1. symmetry. now apply fresh_heap.
  - destruct (Hn x) as [-> _]. exact C2.
  - destruct (Hn x) as [_ ->]. exact C3.
  - apply tracked_kept_force_exit; [exact C4|].
    intros Hcl. rewrite adaptonCompute_clean in E by exact Hcl.
    now injection E as _ <-.
  - intros r Hr. destruct (Hn r) as [_ ->]. now apply C5.
  - intros y Hy Hy'. destruct (Hn y) as [Hc _]. rewrite Hc in Hy'.
    destruct (C6 y Hy Hy') as [Hr Hg]. split; [exact Hr|].
    apply good_force_exit. apply Hg. now right.
  - intros c Hc. unfold force_exit. rewrite Hc, node_addEdge. cbn [sub].
    rewrite Nat.eqb_refl. apply set_add_In. now left.
Qed.

Section Layer.

Variable rank : Adapton -> nat.
Variable n : nat.

(** Nodes of rank below [n] are forced correctly. *)
Hypothesis force_below :
  forall b s, rank b < n -> layered rank s -> consistent_below rank n s ->
              exists fuel v s', force fuel b s = Done v s' /\
                                forced_ok rank b s v s'.

Lemma consistent_below_forced (b : Adapton) (s : State) (v : value)
  (s' : State) :
  rank b < n -> consistent_below rank n s -> forced_ok rank b s v s' ->
  consistent_below rank n s'.
Proof.
  intros Hb Hc (_ & _ & _ & K & _ & New & _) y Hy Hcl.
  destruct (clean (node s y)) eqn:E.
  - apply good_kept with s; auto.
  - now apply New.
Qed.

Lemma run_layered (p : Prog) :
  forces_below rank n p ->
  forall s, layered rank s -> consistent_below rank n s ->
            exists fuel v s', exec fuel p s = Done v s' /\
                              ran rank n p s v s'.
Proof.
  induction 1 as [w|b k Hb Hk IH]; intros s Hl Hc.
  - exists 0, w, s. split; [reflexivity|].
    unfold ran. split; [reflexivity|].
    split; [apply tracked_kept_refl|]. split; [apply refs_kept_refl|].
    split; [intros y Hy Hy'; congruence|]. intros x _ _. constructor.
  - destruct (force_below b s Hb Hl Hc) as (f1 & vb & s1 & F & P).
    assert (Hc1 := consistent_below_forced b s vb s1 Hb Hc P).
    destruct P as (P1 & P2 & P3 & P4 & P5 & P6 & P7).
    assert (Ht1 : forall x, thunk (node s1 x) = thunk (node s x))
      by apply P4.
    assert (Hl1 : layered rank s1) by (apply layered_kept with s; auto).
    destruct (IH vb s1 Hl1 Hc1) as (f2 & v & s' & R & Q1 & Q2 & Q3 & Q4 & Q5).
    exists (Nat.max f1 f2), v, s'. split.
    { unfold exec. cbn [run]. fold (force (Nat.max f1 f2)).
      rewrite (force_mono f1 (Nat.max f1 f2) b s vb s1) by (lia || assumption).
      apply (exec_mono f2); [lia | assumption]. }
    assert (Hfr : forall f a, fresh f s1 a = fresh f s a).
    { apply fresh_kept with rank; auto. }
    unfold ran. split; [|split; [|split; [|split]]].
    + cbn [fresh_run].
      rewrite (fresh_mono (S (rank b)) n s b vb) by (lia || assumption).
      rewrite <- Q1. symmetry.
      apply fresh_run_forces with rank n; auto.
    + eapply tracked_kept_trans; eauto.
    + eapply refs_kept_trans; eauto.
    + intros y Hy Hy'. destruct (clean (node s1 y)) eqn:E.
      * destruct (P6 y Hy E) as [Hr Hg]. split; [lia|].
        apply good_kept with s1; auto.
      * now apply Q4.
    + intros x Hx Hcl.
      destruct P4 as (_ & Hcur & K). destruct (K x Hcl) as (Hcl1 & _).
      destruct Q2 as (_ & _ & K2).
      destruct (K2 b P2) as (Hb' & Hrb & _).
      destruct (K2 x Hcl1) as (_ & _ & Hin & _).
      constructor.
      * exact Hb'.
      * apply Hin. now apply P7.
      * rewrite Hrb, P3. apply Q5; [congruence | assumption].
Qed.

End Layer.

Lemma good_set_context (c : option Adapton) (s : State) (y : Adapton) :
  good s y -> good (set_context c s) y.
Proof.
  intros [H|H]; [now left | right].
  apply reads_ok_kept with s; auto.
Qed.

Lemma consistent_below_le (rank : Adapton -> nat) (n m : nat) (s : State) :
  m <= n -> consistent_below rank n s -> consistent_below rank m s.
Proof. intros Hle H y Hy. apply H. lia. Qed.

Lemma compute_ref (rank : Adapton -> nat) (x : Adapton) (s : State) :
  thunk (node s x) = ref_thunk x -> clean (node s x) = false ->
  exists v s', adaptonCompute 1 x s = Done v s' /\ computed rank x s v s'.
Proof.
  intros Hx Hcl.
  exists (result (node s x)),
         (set_result x (result (node s x)) (before_thunk x s)).
  assert (Hbt : clean (node (before_thunk x s) x) = true)
    by (rewrite node_before_thunk; cbn; now rewrite Nat.eqb_refl).
  split.
  { rewrite adaptonCompute_dirty by assumption. rewrite Hx.
    unfold exec, ref_thunk. cbn [run].
    rewrite node_before_thunk. cbn [result].
    rewrite adaptonCompute_clean
      by (rewrite node_set_result, Nat.eqb_refl; exact Hbt).
    rewrite node_set_result, Nat.eqb_refl. reflexivity. }
  unfold computed. split; [|split; [|split; [|split; [|split]]]].
  - cbn [fresh]. rewrite Hx. reflexivity.
  - rewrite node_set_result, Nat.eqb_refl. exact Hbt.
  - rewrite node_set_result, Nat.eqb_refl. reflexivity.
  - apply tracked_kept_recompute; [assumption | apply tracked_kept_refl].
  - intros r _. rewrite node_set_result.
    destruct (Nat.eqb_spec r x) as [->|_]; cbn [with_result result];
      rewrite ?node_before_thunk; reflexivity.
  - intros y Hy Hy'. rewrite node_set_result in Hy'.
    destruct (Nat.eqb_spec y x) as [->|Hne].
    + split; [lia|]. intros _. left.
      rewrite node_set_result, Nat.eqb_refl. cbn [with_result thunk].
      rewrite node_before_thunk. exact Hx.
    + rewrite node_before_thunk in Hy'. cbn in Hy'.
      apply Nat.eqb_neq in Hne. rewrite Hne in Hy'. congruence.
Qed.

Lemma compute_layered (rank : Adapton -> nat) (n : nat) :
  forall x s, rank x < n -> layered rank s -> consistent_below rank n s ->
              exists fuel v s', adaptonCompute fuel x s = Done v s' /\
                                computed rank x s v s'.
Proof.
  induction n as [|n IHn]; intros x s Hx Hl Hc; [lia|].
  destruct (Nat.eq_dec (rank x) n) as [Hrx|Hrx];
    [|apply IHn; [lia | assumption |
                  apply consistent_below_le with (S n); auto]].
  assert (Hforce : forall b s0,
             rank b < n -> layered rank s0 -> consistent_below rank n s0 ->
             exists fuel v s', force fuel b s0 = Done v s' /\
                               forced_ok rank b s0 v s').
  { intros b s0 Hb Hl0 Hc0.
    destruct (IHn b (set_context (Some b) s0) Hb Hl0)
      as (f & v & s1 & E & P).
    { intros y Hy Hy'. apply good_set_context. now apply Hc0. }
    exists f, v, (force_exit s0 b s1). now apply force_of_compute. }
  destruct (clean (node s x)) eqn:Hcl.
  - (* cached *)
    exists 0, (result (node s x)), s.
    split; [now apply adaptonCompute_clean|].
    unfold computed. split; [|split; [|split; [|split; [|split]]]]; auto.
    + apply consistent_value with (S n); auto.
    + apply tracked_kept_refl.
    + apply refs_kept_refl.
    + intros y Hy Hy'. congruence.
  - destruct (Hl x) as [Href|Hp].
    + (* a ref cell *)
      destruct (compute_ref rank x s Href Hcl) as (v & s' & E & P).
      now exists 1, v, s'.
    + (* a thunk: run it *)
      rewrite Hrx in Hp.
      destruct (frame_before_thunk x s) as (F1 & F2 & F3 & F4).
      assert (Kbt := tracked_kept_before_thunk x s Hcl).
      assert (Hlbt : layered rank (before_thunk x s))
        by (apply layered_kept with s; auto).
      assert (Hcbt : consistent_below rank n (before_thunk x s)).
      { intros y Hy Hy'.
        assert (Hne : Nat.eqb y x = false)
          by (apply Nat.eqb_neq; intros ->; lia).
        rewrite node_before_thunk in Hy'. cbn in Hy'. rewrite Hne in Hy'.
        apply good_kept with s;
          [exact Kbt | exact Hy' | apply Hc; [lia | exact Hy']]. }
      destruct (run_layered rank n Hforce (thunk (node s x)) Hp
                            (before_thunk x s) Hlbt Hcbt)
        as (f & v & s3 & R & Q1 & Q2 & Q3 & Q4 & Q5).
      assert (Hx3 : clean (node s3 x) = true).
      { destruct Q2 as (_ & _ & K). apply K.
        rewrite node_before_thunk. cbn. now rewrite Nat.eqb_refl. }
      exists (S f), v, (set_result x v s3). split.
      { rewrite adaptonCompute_dirty by assumption. rewrite R.
        rewrite adaptonCompute_clean
          by (rewrite node_set_result, Nat.eqb_refl; exact Hx3).
        rewrite node_set_result, Nat.eqb_refl. reflexivity. }
      assert (Hl3 : layered rank s3)
        by (apply layered_kept with (before_thunk x s); auto; apply Q2).
      unfold computed. split; [|split; [|split; [|split; [|split]]]].
      * cbn [fresh]. rewrite Hrx, <- Q1. symmetry.
        apply fresh_run_forces with rank n; auto.
        intros b _. apply fresh_kept with rank; auto.
        intros r Hr. rewrite node_before_thunk. reflexivity.
      * rewrite node_set_result, Nat.eqb_refl. exact Hx3.
      * rewrite node_set_result, Nat.eqb_refl. reflexivity.
      * now apply tracked_kept_recompute.
      * intros r Hr. rewrite node_set_result.
        destruct (Nat.eqb_spec r x) as [->|_].
        -- rewrite Hr in Hp. now apply forces_below_not_ref in Hp.
        -- rewrite Q3 by (rewrite F4; exact Hr).
           rewrite node_before_thunk. reflexivity.
      * intros y Hy Hy'. rewrite node_set_result in Hy'.
        destruct (Nat.eqb_spec y x) as [->|Hne].
        -- split; [lia|]. intros [Hyx|Hctx]; [congruence|].
           right. rewrite node_set_result, Nat.eqb_refl.
           cbn [with_result thunk result].
           destruct Q2 as (Ht3 & _). rewrite Ht3, F4.
           apply reads_ok_set_result with rank n; auto; [lia|].
           apply Q5; [congruence|].
           rewrite node_before_thunk. cbn. now rewrite Nat.eqb_refl.
        -- assert (Hybt : clean (node (before_thunk x s) y) = false).
           { rewrite node_before_thunk. cbn.
             apply Nat.eqb_neq in Hne. now rewrite Hne. }
           destruct (Q4 y Hybt Hy') as [Hr Hg]. split; [lia|].
           intros _. apply good_set_result with rank; auto. lia.
Qed.

Lemma symmetric_rule :
  engine_rule any_prog any_node any_node symmetric
              (fun _ s' => symmetric s') (fun _ s' => symmetric s').
Proof.
  constructor; unfold any_prog, any_node; try solve [auto].
  - intros a b k _. split; [exact Logic.I|]. intros s.
    apply symmetric_addEdge.
  - intros a b k _. split; [exact Logic.I|]. intros s.
    apply symmetric_deleteEdge.
  - intros a k _. split; [exact Logic.I|]. intros fuel s s' Hs Hd.
    apply adaptonDirty_dirtied in Hd. destruct Hd as ((_ & _ & _ & Hd) & _).
    apply symmetric_ext with s; auto; intros x; apply Hd.
  - intros a v k _. split; [exact Logic.I|]. intros fuel s s' Hs Hd.
    apply adaptonDirty_dirtied in Hd. destruct Hd as ((_ & _ & _ & Hd) & _).
    apply symmetric_ext with (set_result a v s).
    + intros x; apply Hd.
    + intros x; apply Hd.
    + apply symmetric_ext with s; auto; intros x;
        rewrite node_set_result; now destruct (Nat.eqb x a).
  - intros s a _ Hs _. now apply symmetric_before_thunk.
  - intros s a s3 v _ _ _ Hs.
    apply symmetric_ext with s3; auto; intros x;
      rewrite node_set_result; now destruct (Nat.eqb x a).
  - intros s a s1 _ _ Hs _. unfold force_exit.
    destruct (currentlyAdapting s); [apply symmetric_addEdge|]; exact Hs.
  - intros body h k _.
    split; [exact Logic.I|]. split; [intros; exact Logic.I|].
    split; [intros; exact Logic.I|]. split; [|split]; intros; assumption.
Qed.

Lemma force_deterministic (f1 f2 : nat) (a : Adapton) (s : State)
  (v1 v2 : value) (s1 s2 : State) :
  force f1 a s = Done v1 s1 -> force f2 a s = Done v2 s2 ->
  v1 = v2 /\ s1 = s2.
Proof.
  intros H1 H2.
  apply (force_mono f1 (Nat.max f1 f2)) in H1; [|lia].
  apply (force_mono f2 (Nat.max f1 f2)) in H2; [|lia].
  rewrite H1 in H2. now injection H2.
Qed.

Lemma compute_deterministic (f1 f2 : nat) (a : Adapton) (s : State)
  (v1 v2 : value) (s1 s2 : State) :
  adaptonCompute f1 a s = Done v1 s1 -> adaptonCompute f2 a s = Done v2 s2 ->
  v1 = v2 /\ s1 = s2.
Proof.
  intros H1 H2.
  apply (adaptonCompute_mono f1 (Nat.max f1 f2)) in H1; [|lia].
  apply (adaptonCompute_mono f2 (Nat.max f1 f2)) in H2; [|lia].
  rewrite H1 in H2. now injection H2.
Qed.

Lemma settled_consistent (rank : Adapton -> nat) (n : nat) (s : State) :
  settled rank s -> consistent_below rank n s.
Proof. intros (_ & _ & _ & H) y _. apply H. Qed.

Lemma settled_forces (rank : Adapton -> nat) (s : State) (a : Adapton) :
  settled rank s ->
  exists fuel v s', force fuel a s = Done v s' /\ forced_ok rank a s v s'.
Proof.
  intros Hs. assert (Hl : layered rank s) by apply Hs.
  destruct (compute_layered rank (S (rank a)) a (set_context (Some a) s))
    as (f & v & s1 & E & P); auto.
  - intros y Hy Hy'. apply good_set_context.
    now apply (settled_consistent rank (S (rank a)) s Hs).
  - exists f, v, (force_exit s a s1). now apply force_of_compute.
Qed.

Lemma settled_force (rank : Adapton -> nat) (s : State) (a : Adapton)
  (fuel : nat) (v : value) (s' : State) :
  settled rank s -> force fuel a s = Done v s' -> settled rank s'.
Proof.
  intros Hs H.
  destruct (settled_forces rank s a Hs) as (f0 & v0 & s0 & E & P).
  destruct (force_deterministic _ _ _ _ _ _ _ _ H E) as [-> ->].
  destruct Hs as (Hl & Hc & Hsym & Hg).
  destruct P as (_ & _ & _ & K & _ & New & _).
  split; [|split; [|split]].
  - apply layered_kept with s; auto. apply K.
  - destruct K as (_ & -> & _). exact Hc.
  - assert (R := forcing_rule symmetric_rule f0 a s Logic.I Hsym).
    rewrite E in R. exact R.
  - intros y Hy. destruct (clean (node s y)) eqn:Ey.
    + apply good_kept with s; auto.
    + now apply New.
Qed.

Lemma settled_set (rank : Adapton -> nat) (s : State) (r : Adapton)
  (val : value) (fuel : nat) (s' : State) :
  settled rank s -> thunk (node s r) = ref_thunk r ->
  adaptonRefSet fuel r val s = Some s' -> settled rank s'.
Proof.
  intros (Hl & Hc & Hsym & Hg) Hr H. unfold adaptonRefSet in H.
  apply adaptonDirty_dirtied in H.
  destruct H as ((D1 & D2 & D3 & D4) & Mono & _ & Roots & Up).
  set (s1 := set_result r val s) in *.
  assert (Hn1 : forall x, thunk (node s1 x) = thunk (node s x) /\
                          sub (node s1 x) = sub (node s x) /\
                          super (node s1 x) = super (node s x) /\
                          clean (node s1 x) = clean (node s x)).
  { intros x. unfold s1. rewrite node_set_result.
    now destruct (Nat.eqb x r). }
  assert (Hth : forall x, thunk (node s' x) = thunk (node s x)).
  { intros x. destruct (D4 x) as (-> & _). apply Hn1. }
  assert (Hsub : forall x, sub (node s' x) = sub (node s x)).
  { intros x. destruct (D4 x) as (_ & _ & -> & _). apply Hn1. }
  assert (Hsup : forall x, super (node s' x) = super (node s x)).
  { intros x. destruct (D4 x) as (_ & _ & _ & ->). apply Hn1. }
  split; [|split; [|split]].
  - apply layered_kept with s; auto.
  - rewrite D2. exact Hc.
  - apply symmetric_ext with s; auto.
  - intros y Hy.
    assert (Hy1 : clean (node s1 y) = true) by now apply Mono.
    assert (Hys : clean (node s y) = true)
      by (destruct (Hn1 y) as (_ & _ & _ & <-); exact Hy1).
    destruct (Hg y Hys) as [G|G]; [left; now rewrite Hth|].
    destruct (Nat.eqb_spec y r) as [->|Hne]; [left; now rewrite Hth|].
    right. rewrite Hth.
    assert (Hres : result (node s' y) = result (node s y)).
    { destruct (D4 y) as (_ & -> & _). unfold s1.
      rewrite node_set_result. apply Nat.eqb_neq in Hne. now rewrite Hne. }
    rewrite Hres.
    assert (Hdeps : forall b, clean (node s b) = true ->
                              In b (sub (node s y)) ->
                              clean (node s' b) = true /\
                              result (node s' b) = result (node s b)).
    { intros b Hb Hin.
      assert (Hb' : clean (node s' b) = true).
      { destruct (clean (node s' b)) eqn:E; [reflexivity|].
        assert (Hb1 : clean (node s1 b) = true)
          by (destruct (Hn1 b) as (_ & _ & _ & ->); exact Hb).
        assert (Hyb : In y (super (node s1 b))).
        { destruct (Hn1 b) as (_ & _ & -> & _). now apply Hsym. }
        rewrite (Up b y Hb1 E Hyb) in Hy. discriminate. }
      split; [exact Hb'|].
      destruct (D4 b) as (_ & -> & _). unfold s1. rewrite node_set_result.
      destruct (Nat.eqb_spec b r) as [->|_]; [|reflexivity].
      rewrite Roots in Hb' by now left. discriminate. }
    clear - G Hdeps Hsub.
    induction G as [v|b k v Hb Hin _ IH].
    + constructor.
    + destruct (Hdeps b Hb Hin) as [H1 H2].
      constructor; [exact H1 | now rewrite Hsub | now rewrite H2].
Qed.

Lemma node_adaptonRef (val : value) (s : State) (x : Adapton) :
  node (snd (adaptonRef val s)) x =
  if Nat.eqb x (next s) then mkNode (ref_thunk (next s)) val [] [] true
  else node s x.
Proof.
  unfold adaptonRef.
  change (node (set_clean (next s) true
                          (set_result (next s) val
                                      (snd (makeAthunk ref_thunk s)))) x =
          if Nat.eqb x (next s)
          then mkNode (ref_thunk (next s)) val [] [] true
          else node s x).
  rewrite node_set_clean, node_set_result, node_makeAthunk.
  now destruct (Nat.eqb x (next s)).
Qed.

Lemma built_pristine (rank : Adapton -> nat) (s : State) :
  built rank s -> pristine rank s.
Proof.
  induction 1 as [|s val _ (Hl & Hc & He & Hr)|s f _ (Hl & Hc & He & Hr) Hf].
  - unfold pristine, layered, init, node. cbn.
    split; [intros x; right; constructor|]. split; [reflexivity|].
    split; [auto | discriminate].
  - split; [|split; [|split]].
    + intros x. rewrite node_adaptonRef.
      destruct (Nat.eqb_spec x (next s)) as [->|_]; [now left | apply Hl].
    + exact Hc.
    + intros x. rewrite node_adaptonRef.
      destruct (Nat.eqb x (next s)); [auto | apply He].
    + intros y. rewrite node_adaptonRef.
      destruct (Nat.eqb_spec y (next s)) as [->|_]; [auto | apply Hr].
  - split; [|split; [|split]].
    + intros x. rewrite node_makeAthunk.
      destruct (Nat.eqb_spec x (next s)) as [->|_]; [now right | apply Hl].
    + exact Hc.
    + intros x. rewrite node_makeAthunk.
      destruct (Nat.eqb x (next s)); [auto | apply He].
    + intros y. rewrite node_makeAthunk.
      destruct (Nat.eqb_spec y (next s)) as [->|_];
        [discriminate | apply Hr].
Qed.

Lemma pristine_settled (rank : Adapton -> nat) (s : State) :
  pristine rank s -> settled rank s.
Proof.
  intros (Hl & Hc & He & Hr). split; [exact Hl|]. split; [exact Hc|].
  split.
  - intros x y. destruct (He x) as [-> _], (He y) as [_ ->]. tauto.
  - intros y Hy. left. now apply Hr.
Qed.

Lemma served_settled (rank : Adapton -> nat) (s : State) :
  served rank s -> settled rank s.
Proof.
  induction 1 as [s Hb|s r val fuel s' _ IH Hr H|s a fuel v s' _ IH H].
  - now apply pristine_settled, built_pristine.
  - now apply settled_set with s r val fuel.
  - now apply settled_force with s a fuel v.
Qed.

Lemma settled_computes (rank : Adapton -> nat) (s : State) (a : Adapton) :
  settled rank s ->
  exists fuel v s', adaptonCompute fuel a s = Done v s' /\
                    computed rank a s v s'.
Proof.
  intros Hs. apply compute_layered with (S (rank a)); auto.
  - apply Hs.
  - now apply settled_consistent.
Qed.

(** ** Graphs whose reads are registered *)

Lemma cache_kept_refl (s : State) : cache_kept s s.
Proof. unfold cache_kept. auto. Qed.

Lemma cache_kept_trans (s1 s2 s3 : State) :
  cache_kept s1 s2 -> cache_kept s2 s3 -> cache_kept s1 s3.
Proof.
  intros (A1 & A2 & A3) (B1 & B2 & B3). unfold cache_kept.
  split; [intros x; now rewrite B1|]. split; [congruence|].
  intros y Hy. destruct (A3 y Hy) as (H1 & H2 & H3).
  destruct (B3 y H1) as (K1 & K2 & K3).
  split; [assumption|]. split; [congruence | auto].
Qed.

Lemma cache_kept_before_thunk (x : Adapton) (s : State) :
  clean (node s x) = false -> cache_kept s (before_thunk x s).
Proof.
  intros Hx. destruct (frame_before_thunk x s) as (F1 & F2 & F3 & F4).
  split; [exact F4|]. split; [exact F2|]. intros y Hy.
  assert (Hne : Nat.eqb y x = false) by (apply Nat.eqb_neq; congruence).
  rewrite node_before_thunk. cbn [clean result sub]. rewrite Hne. auto.
Qed.

Lemma cache_kept_recompute (a : Adapton) (v : value) (s s3 : State) :
  clean (node s a) = false ->
  cache_kept (before_thunk a s) s3 ->
  cache_kept s (set_result a v s3).
Proof.
  intros Ha (B1 & B2 & B3).
  destruct (frame_before_thunk a s) as (F1 & F2 & F3 & F4).
  split; [|split].
  - intros x. rewrite node_set_result.
    destruct (Nat.eqb x a); cbn; rewrite B1; apply F4.
  - cbn. congruence.
  - intros y Hy.
    assert (Hne : Nat.eqb y a = false) by (apply Nat.eqb_neq; congruence).
    rewrite node_set_result, Hne.
    destruct (B3 y) as (H1 & H2 & H3).
    + rewrite node_before_thunk. cbn [clean]. now rewrite Hne.
    + rewrite node_before_thunk in H2, H3. cbn [result sub] in H2, H3.
      rewrite Hne in H3. auto.
Qed.

Lemma cache_kept_addEdge (a b : Adapton) (s : State) :
  cache_kept s (addEdge a b s).
Proof.
  split; [intros x; now rewrite node_addEdge|]. split; [reflexivity|].
  intros y Hy. rewrite node_addEdge. cbn [clean result sub].
  split; [exact Hy|]. split; [reflexivity|].
  intros c Hc. destruct (Nat.eqb y a); [apply set_add_In|]; auto.
Qed.

Lemma cache_kept_force_exit (a : Adapton) (s s1 : State) :
  cache_kept (set_context (Some a) s) s1 ->
  cache_kept s (force_exit s a s1).
Proof.
  intros (B1 & B2 & B3).
  assert (Hn : forall x,
             thunk (node (force_exit s a s1) x) = thunk (node s1 x) /\
             clean (node (force_exit s a s1) x) = clean (node s1 x) /\
             result (node (force_exit s a s1) x) = result (node s1 x) /\
             (forall b, In b (sub (node s1 x)) ->
                        In b (sub (node (force_exit s a s1) x)))).
  { intros x. unfold force_exit.
    destruct (currentlyAdapting s) as [c|]; [|now auto 6].
    rewrite node_addEdge. cbn [thunk clean result sub].
    change (node (set_context (Some c) s1) x) with (node s1 x).
    repeat split.
    intros b Hb. destruct (Nat.eqb x c); [apply set_add_In|]; auto. }
  split; [|split].
  - intros x. destruct (Hn x) as (-> & _). apply B1.
  - unfold force_exit. now destruct (currentlyAdapting s).
  - intros y Hy. destruct (Hn y) as (_ & -> & -> & Hin).
    destruct (B3 y Hy) as (H1 & H2 & H3). auto.
Qed.

Lemma stratified_kept (rank : Adapton -> nat) (manual : Adapton -> bool)
  (s s' : State) :
  (forall x, thunk (node s' x) = thunk (node s x)) ->
  stratified rank manual s -> stratified rank manual s'.
Proof. intros H Hl x. rewrite H. apply Hl. Qed.

Lemma reads_below_not_ref (rank : Adapton -> nat) (manual : Adapton -> bool)
  (x : Adapton) (reg : list Adapton) (y : Adapton) :
  ~ reads_below rank manual x reg (ref_thunk y).
Proof. intros H. inversion H. Qed.

Lemma reads_below_more (rank : Adapton -> nat) (manual : Adapton -> bool)
  (x : Adapton) (reg : list Adapton) (p : Prog) :
  reads_below rank manual x reg p ->
  forall reg', (forall b, In b reg -> In b reg') ->
               reads_below rank manual x reg' p.
Proof.
  induction 1 as [reg v|reg b k Hb Hm Hk IH|reg b k Hb Hm Hin Hk IH
                  |reg b k Hk IH]; intros reg' Hsub.
  - constructor.
  - constructor; auto.
  - constructor; auto.
  - constructor. apply IH. intros c [<-|Hc]; [now left | right; auto].
Qed.

Lemma reads_agree_kept (s s' : State) (y : Adapton) (p : Prog) (v : value) :
  (forall b, clean (node s b) = true ->
             clean (node s' b) = true /\
             result (node s' b) = result (node s b)) ->
  (forall b, In b (sub (node s y)) -> In b (sub (node s' y))) ->
  reads_agree s y p v -> reads_agree s' y p v.
Proof.
  intros Hc Hin.
  induction 1 as [v|b k v Hb Hsub _ IH|b k v Hb Hsub _ IH|a b k v _ IH].
  - constructor.
  - destruct (Hc b Hb) as [H1 H2].
    constructor; auto. now rewrite H2.
  - destruct (Hc b Hb) as [H1 H2].
    constructor; auto. now rewrite H2.
  - now constructor.
Qed.

Lemma sound_kept (s s' : State) (y : Adapton) :
  cache_kept s s' -> clean (node s y) = true -> sound s y -> sound s' y.
Proof.
  intros (K1 & K2 & K3) Hy [H|H].
  - left. now rewrite K1.
  - right. destruct (K3 y Hy) as (_ & Hr & Hin).
    rewrite K1, Hr. apply reads_agree_kept with s; auto.
    intros b Hb. destruct (K3 b Hb) as (? & ? & _). auto.
Qed.

Lemma reads_agree_set_result (rank : Adapton -> nat)
  (manual : Adapton -> bool) (s : State) (x y : Adapton) (w : value)
  (reg : list Adapton) (p : Prog) (v : value) :
  reads_below rank manual y reg p -> rank y <= rank x ->
  reads_agree s y p v -> reads_agree (set_result x w s) y p v.
Proof.
  intros Hp Hn H. revert reg Hp.
  induction H as [v|b k v Hb Hsub _ IH|b k v Hb Hsub _ IH|a b k v _ IH];
    intros reg Hp.
  - constructor.
  - inversion Hp as [|reg' b' k' Hrb Hm Hk| |]; subst.
    assert (Hne : Nat.eqb b x = false)
      by (apply Nat.eqb_neq; intros ->; lia).
    constructor.
    + now rewrite node_set_result, Hne.
    + rewrite node_set_result. now destruct (Nat.eqb y x).
    + rewrite node_set_result, Hne. apply IH with reg. apply Hk.
  - inversion Hp as [| |reg' b' k' Hrb Hm Hin Hk|]; subst.
    assert (Hne : Nat.eqb b x = false)
      by (apply Nat.eqb_neq; intros ->; lia).
    constructor.
    + now rewrite node_set_result, Hne.
    + rewrite node_set_result. now destruct (Nat.eqb y x).
    + rewrite node_set_result, Hne. apply IH with reg. apply Hk.
  - inversion Hp as [| | |reg' b' k' Hk]; subst.
    constructor. now apply IH with (b :: reg).
Qed.

Lemma sound_set_result (rank : Adapton -> nat) (manual : Adapton -> bool)
  (s : State) (x y : Adapton) (w : value) :
  stratified rank manual s -> rank y <= rank x -> y <> x ->
  sound s y -> sound (set_result x w s) y.
Proof.
  intros Hl Hr Hne [H|H]; apply Nat.eqb_neq in Hne.
  - left. now rewrite node_set_result, Hne.
  - destruct (Hl y) as [[E _]|E]; [left; now rewrite node_set_result, Hne|].
    right. rewrite node_set_result, Hne.
    now apply reads_agree_set_result with rank manual [].
Qed.

Lemma sound_set_context (c : option Adapton) (s : State) (y : Adapton) :
  sound s y -> sound (set_context c s) y.
Proof.
  intros [H|H]; [now left | right].
  apply reads_agree_kept with s; auto.
Qed.

Lemma sound_below_le (rank : Adapton -> nat) (n m : nat) (s : State) :
  m <= n -> sound_below rank n s -> sound_below rank m s.
Proof. intros Hle H y Hy. apply H. lia. Qed.

(** *** The from-scratch value does not depend on the caches *)

Lemma fresh_run_reads (rank : Adapton -> nat) (manual : Adapton -> bool)
  (x : Adapton) (e e' : Adapton -> option value) (s s' : State) :
  (forall b, rank b < rank x -> e' b = e b) ->
  forall reg p, reads_below rank manual x reg p ->
                fresh_run e' s' p = fresh_run e s p.
Proof.
  intros He reg p.
  induction 1 as [reg v|reg b k Hb Hm Hk IH|reg b k Hb Hm Hin Hk IH
                  |reg b k Hk IH]; cbn [fresh_run]; auto.
  - rewrite (He b Hb). destruct (e b); auto.
  - rewrite (He b Hb). destruct (e b); auto.
Qed.

Lemma fresh_stable (rank : Adapton -> nat) (manual : Adapton -> bool)
  (s s' : State) :
  stratified rank manual s ->
  (forall x, thunk (node s' x) = thunk (node s x)) ->
  refs_kept s s' ->
  forall f a, fresh f s' a = fresh f s a.
Proof.
  intros Hl Ht Hr. induction f as [|f IH]; intros a; [reflexivity|].
  cbn [fresh]. rewrite Ht. destruct (Hl a) as [[H _]|H].
  - rewrite H. cbn. now rewrite (Hr a H).
  - apply fresh_run_reads
      with (rank := rank) (manual := manual) (x := a) (reg := []); auto.
Qed.

Lemma reads_agree_fresh (rank : Adapton -> nat) (manual : Adapton -> bool)
  (s : State) (x : Adapton) :
  (forall b, rank b < rank x -> clean (node s b) = true ->
             fresh (rank x) s b = Some (result (node s b))) ->
  forall p v reg, reads_below rank manual x reg p -> reads_agree s x p v ->
                  fresh_run (fresh (rank x) s) s p = Some v.
Proof.
  intros Hb p v reg Hp H. revert reg Hp.
  induction H as [v|b k v Hcl Hsub _ IH|b k v Hcl Hsub _ IH|a b k v _ IH];
    intros reg Hp; cbn [fresh_run].
  - reflexivity.
  - inversion Hp as [|reg' b' k' Hrb Hm Hk| |]; subst.
    rewrite (Hb b Hrb Hcl). apply IH with reg. apply Hk.
  - inversion Hp as [| |reg' b' k' Hrb Hm Hin Hk|]; subst.
    rewrite (Hb b Hrb Hcl). apply IH with reg. apply Hk.
  - inversion Hp as [| | |reg' b' k' Hk]; subst.
    now apply IH with (b :: reg).
Qed.

Lemma sound_value (rank : Adapton -> nat) (manual : Adapton -> bool)
  (n : nat) (s : State) :
  stratified rank manual s -> sound_below rank n s ->
  forall x, rank x < n -> clean (node s x) = true ->
            fresh (S (rank x)) s x = Some (result (node s x)).
Proof.
  intros Hl Hc.
  assert (H : forall m x, rank x < m -> m <= n -> clean (node s x) = true ->
                          fresh (S (rank x)) s x = Some (result (node s x))).
  { induction m as [|m IH]; intros x Hx Hm Hcl; [lia|].
    cbn [fresh]. destruct (Hl x) as [[E _]|E].
    - rewrite E. reflexivity.
    - destruct (Hc x) as [G|G]; [lia | assumption | |].
      + rewrite G in E. now apply reads_below_not_ref in E.
      + apply reads_agree_fresh with (manual := manual) (reg := []); auto.
        intros b Hb Hbc.
        apply fresh_mono with (S (rank b)); [lia|].
        apply IH; [lia | lia | assumption]. }
  intros x Hx. apply (H n); auto.
Qed.

(** *** One read *)

Lemma sound_force_exit (s : State) (a : Adapton) (s1 : State) (y : Adapton) :
  sound s1 y -> sound (force_exit s a s1) y.
Proof.
  assert (Hn : forall x,
             thunk (node (force_exit s a s1) x) = thunk (node s1 x) /\
             clean (node (force_exit s a s1) x) = clean (node s1 x) /\
             result (node (force_exit s a s1) x) = result (node s1 x) /\
             (forall b, In b (sub (node s1 x)) ->
                        In b (sub (node (force_exit s a s1) x)))).
  { intros x. unfold force_exit.
    destruct (currentlyAdapting s) as [c|]; [|now auto].
    rewrite node_addEdge. cbn [thunk clean result sub].
    change (node (set_context (Some c) s1) x) with (node s1 x).
    repeat split.
    intros b Hb. destruct (Nat.eqb x c); [apply set_add_In|]; auto. }
  intros [H|H].
  - left. destruct (Hn y) as (-> & _). exact H.
  - right. destruct (Hn y) as (-> & _ & -> & Hin).
    apply reads_agree_kept with s1; auto.
    intros b Hb. destruct (Hn b) as (_ & -> & -> & _). auto.
Qed.

Lemma force_of_sound_compute (rank : Adapton -> nat)
  (manual : Adapton -> bool) (fuel : nat) (x : Adapton)
  (s : State) (v : value) (s1 : State) :
  stratified rank manual s ->
  adaptonCompute fuel x (set_context (Some x) s) = Done v s1 ->
  compute_sound rank manual x (set_context (Some x) s) v s1 ->
  force fuel x s = Done v (force_exit s x s1) /\
  force_sound rank x s v (force_exit s x s1).
Proof.
  intros Hl E (C1 & C2 & C3 & C4 & C5 & C6).
  split.
  { rewrite force_unfold, E. unfold force_exit.
    now destruct (currentlyAdapting s). }
  assert (Hn : forall y,
             clean (node (force_exit s x s1) y) = clean (node s1 y) /\
             result (node (force_exit s x s1) y) = result (node s1 y)).
  { intros y. unfold force_exit.
    destruct (currentlyAdapting s) as [c|]; [|now auto].
    rewrite node_addEdge. auto. }
  unfold force_sound.
  split; [|split; [|split; [|split; [|split; [|split]]]]].
  - rewrite <- C1. symmetry. now apply fresh_heap.
  - destruct (Hn x) as [-> _]. exact C2.
  - destruct (Hn x) as [_ ->]. exact C3.
  - now apply cache_kept_force_exit.
  - intros r Hr. destruct (Hn r) as [_ ->]. now apply C5.
  - intros y Hy Hy'. destruct (Hn y) as [Hc _]. rewrite Hc in Hy'.
    destruct (C6 y Hy Hy') as [Hr Hg]. split; [exact Hr|].
    apply sound_force_exit. apply Hg. right. now left.
  - intros c Hc. unfold force_exit. rewrite Hc, node_addEdge. cbn [sub].
    rewrite Nat.eqb_refl. apply set_add_In. now left.
Qed.

Lemma fresh_fields (s s' : State) :
  (forall a, thunk (node s' a) = thunk (node s a)) ->
  (forall a, result (node s' a) = result (node s a)) ->
  forall f a, fresh f s' a = fresh f s a.
Proof.
  intros Ht Hr. induction f as [|f IH]; intros a; [reflexivity|].
  cbn [fresh]. rewrite Ht. now apply fresh_run_heap.
Qed.

Section Level.

Variable rank : Adapton -> nat.
Variable manual : Adapton -> bool.
Variable x : Adapton.

(** The nodes of rank below that of [x] are read correctly. *)
Hypothesis force_below :
  forall b s, rank b < rank x -> stratified rank manual s ->
              sound_below rank (rank x) s ->
              exists fuel v s', force fuel b s = Done v s' /\
                                force_sound rank b s v s'.
Hypothesis compute_below :
  forall b s, rank b < rank x -> stratified rank manual s ->
              sound_below rank (rank x) s ->
              exists fuel v s', adaptonCompute fuel b s = Done v s' /\
                                compute_sound rank manual b s v s'.

Lemma sound_below_forced (b : Adapton) (s : State) (v : value)
  (s' : State) :
  sound_below rank (rank x) s -> force_sound rank b s v s' ->
  sound_below rank (rank x) s'.
Proof.
  intros Hc (_ & _ & _ & K & _ & New & _) y Hy Hcl.
  destruct (clean (node s y)) eqn:E.
  - apply sound_kept with s; auto.
  - now apply New.
Qed.

Lemma sound_below_computed (b : Adapton) (s : State) (v : value)
  (s' : State) :
  manual b = true ->
  sound_below rank (rank x) s -> compute_sound rank manual b s v s' ->
  sound_below rank (rank x) s'.
Proof.
  intros Hm Hc (_ & _ & _ & K & _ & New) y Hy Hcl.
  destruct (clean (node s y)) eqn:E.
  - apply sound_kept with s; auto.
  - apply New; auto.
Qed.

Lemma run_stratified (reg : list Adapton) (p : Prog) :
  reads_below rank manual x reg p ->
  forall s, stratified rank manual s -> sound_below rank (rank x) s ->
            exists fuel v s', exec fuel p s = Done v s' /\
                              run_sound rank manual x reg p s v s'.
Proof.
  induction 1 as [reg w|reg b k Hb Hm Hk IH|reg b k Hb Hm Hin Hk IH
                  |reg b k Hk IH]; intros s Hl Hc.
  - exists 0, w, s. split; [reflexivity|].
    unfold run_sound. split; [reflexivity|].
    split; [apply cache_kept_refl|]. split; [apply refs_kept_refl|].
    split; [intros y Hy Hy'; congruence|]. intros _ _ _. constructor.
  - (* adaptonForce(b) *)
    destruct (force_below b s Hb Hl Hc) as (f1 & vb & s1 & F & P).
    assert (Hc1 := sound_below_forced b s vb s1 Hc P).
    destruct P as (P1 & P2 & P3 & P4 & P5 & P6 & P7).
    assert (Ht1 : forall y, thunk (node s1 y) = thunk (node s y))
      by apply P4.
    assert (Hl1 : stratified rank manual s1)
      by (apply stratified_kept with s; auto).
    destruct (IH vb s1 Hl1 Hc1)
      as (f2 & v & s' & R & Q1 & Q2 & Q3 & Q4 & Q5).
    exists (Nat.max f1 f2), v, s'. split.
    { unfold exec. cbn [run]. fold (force (Nat.max f1 f2)).
      rewrite (force_mono f1 (Nat.max f1 f2) b s vb s1)
        by (lia || assumption).
      apply (exec_mono f2); [lia | assumption]. }
    assert (Hfr : forall f a, fresh f s1 a = fresh f s a)
      by (apply fresh_stable with rank manual; auto).
    unfold run_sound. split; [|split; [|split; [|split]]].
    + cbn [fresh_run].
      rewrite (fresh_mono (S (rank b)) (rank x) s b vb)
        by (lia || assumption).
      rewrite <- Q1. symmetry.
      apply fresh_run_reads
        with (rank := rank) (manual := manual) (x := x) (reg := reg); auto.
    + eapply cache_kept_trans; eauto.
    + eapply refs_kept_trans; eauto.
    + intros y Hy Hy'. destruct (clean (node s1 y)) eqn:E.
      * destruct (P6 y Hy E) as [Hr Hg]. split; [lia|].
        apply sound_kept with s1; auto.
      * now apply Q4.
    + intros Hcl Hreg Hctx.
      destruct P4 as (_ & Hcur & K). destruct (K x Hcl) as (Hcl1 & _ & Hin1).
      destruct Q2 as (_ & _ & K2).
      destruct (K2 b P2) as (Hb' & Hrb & _).
      destruct (K2 x Hcl1) as (_ & _ & Hin).
      constructor.
      * exact Hb'.
      * apply Hin. destruct Hctx as [Hctx|Hctx].
        -- now apply P7.
        -- apply Hin1, Hreg, Hm, Hctx.
      * rewrite Hrb, P3. apply Q5; [assumption| |].
        -- intros c Hc'. apply Hin1, Hreg, Hc'.
        -- destruct Hctx as [Hctx|Hctx]; [left; congruence | now right].
  - (* adaptonCompute(b), registered by hand *)
    destruct (compute_below b s Hb Hl Hc) as (f1 & vb & s1 & F & P).
    assert (Hc1 := sound_below_computed b s vb s1 Hm Hc P).
    destruct P as (P1 & P2 & P3 & P4 & P5 & P6).
    assert (Ht1 : forall y, thunk (node s1 y) = thunk (node s y))
      by apply P4.
    assert (Hl1 : stratified rank manual s1)
      by (apply stratified_kept with s; auto).
    destruct (IH vb s1 Hl1 Hc1)
      as (f2 & v & s' & R & Q1 & Q2 & Q3 & Q4 & Q5).
    exists (Nat.max f1 f2), v, s'. split.
    { unfold exec. cbn [run].
      rewrite (adaptonCompute_mono f1 (Nat.max f1 f2) b s vb s1)
        by (lia || assumption).
      apply (exec_mono f2); [lia | assumption]. }
    assert (Hfr : forall f a, fresh f s1 a = fresh f s a)
      by (apply fresh_stable with rank manual; auto).
    unfold run_sound. split; [|split; [|split; [|split]]].
    + cbn [fresh_run].
      rewrite (fresh_mono (S (rank b)) (rank x) s b vb)
        by (lia || assumption).
      rewrite <- Q1. symmetry.
      apply fresh_run_reads
        with (rank := rank) (manual := manual) (x := x) (reg := reg); auto.
    + eapply cache_kept_trans; eauto.
    + eapply refs_kept_trans; eauto.
    + intros y Hy Hy'. destruct (clean (node s1 y)) eqn:E.
      * destruct (P6 y Hy E) as [Hr Hg]. split; [lia|].
        apply sound_kept with s1; auto.
      * now apply Q4.
    + intros Hcl Hreg Hctx.
      destruct P4 as (_ & Hcur & K). destruct (K x Hcl) as (Hcl1 & _ & Hin1).
      destruct Q2 as (_ & _ & K2).
      destruct (K2 b P2) as (Hb' & Hrb & _).
      destruct (K2 x Hcl1) as (_ & _ & Hin2).
      constructor.
      * exact Hb'.
      * apply Hin2, Hin1, Hreg, Hin.
      * rewrite Hrb, P3. apply Q5; [assumption| |].
        -- intros c Hc'. apply Hin1, Hreg, Hc'.
        -- destruct Hctx as [Hctx|Hctx]; [left; congruence | now right].
  - (* addEdge(x, b) *)
    assert (K0 := cache_kept_addEdge x b s).
    assert (Ht0 : forall y, thunk (node (addEdge x b s) y) = thunk (node s y))
      by apply K0.
    assert (Hr0 : forall y, result (node (addEdge x b s) y)
                            = result (node s y))
      by (intros y; now rewrite node_addEdge).
    assert (Hc0 : forall y, clean (node (addEdge x b s) y)
                            = clean (node s y))
      by (intros y; now rewrite node_addEdge).
    assert (Hl0 : stratified rank manual (addEdge x b s))
      by (apply stratified_kept with s; auto).
    assert (Hs0 : sound_below rank (rank x) (addEdge x b s)).
    { intros y Hy Hy'. rewrite Hc0 in Hy'.
      apply sound_kept with s; auto. }
    destruct (IH (addEdge x b s) Hl0 Hs0)
      as (f & v & s' & R & Q1 & Q2 & Q3 & Q4 & Q5).
    exists f, v, s'. split; [exact R|].
    unfold run_sound. split; [|split; [|split; [|split]]].
    + cbn [fresh_run]. rewrite <- Q1. symmetry.
      apply fresh_run_heap; auto. intros a. now apply fresh_fields.
    + eapply cache_kept_trans; eauto.
    + intros r Hr. rewrite Q3 by (rewrite Ht0; exact Hr). apply Hr0.
    + intros y Hy. apply Q4. now rewrite Hc0.
    + intros Hcl Hreg Hctx. constructor. apply Q5.
      * now rewrite Hc0.
      * intros c Hc'. rewrite node_addEdge. cbn [sub].
        rewrite Nat.eqb_refl. apply set_add_In.
        destruct Hc' as [<-|Hc']; [now left | right; auto].
      * exact Hctx.
Qed.

End Level.

Lemma compute_sound_ref (rank : Adapton -> nat) (manual : Adapton -> bool)
  (x : Adapton) (s : State) :
  thunk (node s x) = ref_thunk x -> clean (node s x) = false ->
  exists v s', adaptonCompute 1 x s = Done v s' /\
               compute_sound rank manual x s v s'.
Proof.
  intros Hx Hcl.
  exists (result (node s x)),
         (set_result x (result (node s x)) (before_thunk x s)).
  assert (Hbt : clean (node (before_thunk x s) x) = true)
    by (rewrite node_before_thunk; cbn; now rewrite Nat.eqb_refl).
  split.
  { rewrite adaptonCompute_dirty by assumption. rewrite Hx.
    unfold exec, ref_thunk. cbn [run].
    rewrite node_before_thunk. cbn [result].
    rewrite adaptonCompute_clean
      by (rewrite node_set_result, Nat.eqb_refl; exact Hbt).
    rewrite node_set_result, Nat.eqb_refl. reflexivity. }
  unfold compute_sound. split; [|split; [|split; [|split; [|split]]]].
  - cbn [fresh]. rewrite Hx. reflexivity.
  - rewrite node_set_result, Nat.eqb_refl. exact Hbt.
  - rewrite node_set_result, Nat.eqb_refl. reflexivity.
  - apply cache_kept_recompute; [assumption | apply cache_kept_refl].
  - intros r _. rewrite node_set_result.
    destruct (Nat.eqb_spec r x) as [->|_]; cbn [with_result result];
      rewrite ?node_before_thunk; reflexivity.
  - intros y Hy Hy'. rewrite node_set_result in Hy'.
    destruct (Nat.eqb_spec y x) as [->|Hne].
    + split; [lia|]. intros _. left.
      rewrite node_set_result, Nat.eqb_refl. cbn [with_result thunk].
      rewrite node_before_thunk. exact Hx.
    + rewrite node_before_thunk in Hy'. cbn in Hy'.
      apply Nat.eqb_neq in Hne. rewrite Hne in Hy'. congruence.
Qed.

Lemma compute_stratified (rank : Adapton -> nat) (manual : Adapton -> bool)
  (n : nat) :
  forall x s, rank x < n -> stratified rank manual s ->
              sound_below rank n s ->
              exists fuel v s', adaptonCompute fuel x s = Done v s' /\
                                compute_sound rank manual x s v s'.
Proof.
  induction n as [|n IHn]; intros x s Hx Hl Hc; [lia|].
  destruct (Nat.eq_dec (rank x) n) as [Hrx|Hrx];
    [|apply IHn; [lia | assumption |
                  apply sound_below_le with (S n); auto]].
  assert (Hcompute : forall b s0,
             rank b < rank x -> stratified rank manual s0 ->
             sound_below rank (rank x) s0 ->
             exists fuel v s', adaptonCompute fuel b s0 = Done v s' /\
                               compute_sound rank manual b s0 v s').
  { intros b s0 Hb Hl0 Hc0. rewrite Hrx in Hb, Hc0. now apply IHn. }
  assert (Hforce : forall b s0,
             rank b < rank x -> stratified rank manual s0 ->
             sound_below rank (rank x) s0 ->
             exists fuel v s', force fuel b s0 = Done v s' /\
                               force_sound rank b s0 v s').
  { intros b s0 Hb Hl0 Hc0. rewrite Hrx in Hb, Hc0.
    destruct (IHn b (set_context (Some b) s0) Hb Hl0)
      as (f & v & s1 & E & P).
    { intros y Hy Hy'. apply sound_set_context. now apply Hc0. }
    exists f, v, (force_exit s0 b s1).
    now apply force_of_sound_compute with manual. }
  destruct (clean (node s x)) eqn:Hcl.
  - (* cached *)
    exists 0, (result (node s x)), s.
    split; [now apply adaptonCompute_clean|].
    unfold compute_sound.
    split; [|split; [|split; [|split; [|split]]]]; auto.
    + apply sound_value with manual (S n); auto.
    + apply cache_kept_refl.
    + apply refs_kept_refl.
    + intros y Hy Hy'. congruence.
  - destruct (Hl x) as [[Href _]|Hp].
    + (* a ref cell *)
      destruct (compute_sound_ref rank manual x s Href Hcl)
        as (v & s' & E & P).
      now exists 1, v, s'.
    + (* a thunk: run it *)
      destruct (frame_before_thunk x s) as (F1 & F2 & F3 & F4).
      assert (Kbt := cache_kept_before_thunk x s Hcl).
      assert (Hlbt : stratified rank manual (before_thunk x s))
        by (apply stratified_kept with s; auto).
      assert (Hcbt : sound_below rank (rank x) (before_thunk x s)).
      { intros y Hy Hy'.
        assert (Hne : Nat.eqb y x = false)
          by (apply Nat.eqb_neq; intros ->; lia).
        rewrite node_before_thunk in Hy'. cbn in Hy'. rewrite Hne in Hy'.
        apply sound_kept with s;
          [exact Kbt | exact Hy' | apply Hc; [lia | exact Hy']]. }
      destruct (run_stratified rank manual x Hforce Hcompute []
                               (thunk (node s x)) Hp
                               (before_thunk x s) Hlbt Hcbt)
        as (f & v & s3 & R & Q1 & Q2 & Q3 & Q4 & Q5).
      assert (Hxbt : clean (node (before_thunk x s) x) = true)
        by (rewrite node_before_thunk; cbn; now rewrite Nat.eqb_refl).
      assert (Hx3 : clean (node s3 x) = true).
      { destruct Q2 as (_ & _ & K). now apply K. }
      exists (S f), v, (set_result x v s3). split.
      { rewrite adaptonCompute_dirty by assumption. rewrite R.
        rewrite adaptonCompute_clean
          by (rewrite node_set_result, Nat.eqb_refl; exact Hx3).
        rewrite node_set_result, Nat.eqb_refl. reflexivity. }
      assert (Hl3 : stratified rank manual s3)
        by (apply stratified_kept with (before_thunk x s); auto;
            apply Q2).
      unfold compute_sound.
      split; [|split; [|split; [|split; [|split]]]].
      * cbn [fresh]. rewrite <- Q1. symmetry.
        apply fresh_run_heap.
        -- intros a. apply fresh_fields; auto.
           intros b. now rewrite node_before_thunk.
        -- intros b. now rewrite node_before_thunk.
      * rewrite node_set_result, Nat.eqb_refl. exact Hx3.
      * rewrite node_set_result, Nat.eqb_refl. reflexivity.
      * now apply cache_kept_recompute.
      * intros r Hr. rewrite node_set_result.
        destruct (Nat.eqb_spec r x) as [->|_].
        -- rewrite Hr in Hp. now apply reads_below_not_ref in Hp.
        -- rewrite Q3 by (rewrite F4; exact Hr).
           rewrite node_before_thunk. reflexivity.
      * intros y Hy Hy'. rewrite node_set_result in Hy'.
        destruct (Nat.eqb_spec y x) as [->|Hne].
        -- split; [lia|]. intros [Hyx|Hctx]; [congruence|].
           right. rewrite node_set_result, Nat.eqb_refl.
           cbn [with_result thunk result].
           destruct Q2 as (Ht3 & _). rewrite Ht3, F4.
           apply reads_agree_set_result with rank manual []; auto.
           apply Q5; [exact Hxbt | intros b [] |].
           destruct Hctx as [Hctx|Hctx]; [left; congruence | now right].
        -- assert (Hybt : clean (node (before_thunk x s) y) = false).
           { rewrite node_before_thunk. cbn.
             apply Nat.eqb_neq in Hne. now rewrite Hne. }
           destruct (Q4 y Hybt Hy') as [Hr Hg]. split; [lia|].
           intros _. apply sound_set_result with rank manual; auto. lia.
Qed.

(** *** Between two calls *)

Lemma coherent_below (rank : Adapton -> nat) (manual : Adapton -> bool)
  (n : nat) (s : State) :
  coherent rank manual s -> sound_below rank n s.
Proof. intros (_ & _ & _ & H) y _. apply H. Qed.

Lemma coherent_computes (rank : Adapton -> nat) (manual : Adapton -> bool)
  (s : State) (a : Adapton) :
  coherent rank manual s ->
  exists fuel v s', adaptonCompute fuel a s = Done v s' /\
                    compute_sound rank manual a s v s'.
Proof.
  intros Hs. apply compute_stratified with (S (rank a)); auto.
  - apply Hs.
  - now apply coherent_below with manual.
Qed.

Lemma coherent_forces (rank : Adapton -> nat) (manual : Adapton -> bool)
  (s : State) (a : Adapton) :
  coherent rank manual s ->
  exists fuel v s', force fuel a s = Done v s' /\ force_sound rank a s v s'.
Proof.
  intros Hs. assert (Hl : stratified rank manual s) by apply Hs.
  destruct (compute_stratified rank manual (S (rank a)) a
                               (set_context (Some a) s))
    as (f & v & s1 & E & P); auto.
  - intros y Hy Hy'. apply sound_set_context.
    now apply (coherent_below rank manual (S (rank a)) s Hs).
  - exists f, v, (force_exit s a s1).
    now apply force_of_sound_compute with manual.
Qed.

Lemma coherent_force (rank : Adapton -> nat) (manual : Adapton -> bool)
  (s : State) (a : Adapton) (fuel : nat) (v : value) (s' : State) :
  coherent rank manual s -> force fuel a s = Done v s' ->
  coherent rank manual s'.
Proof.
  intros Hs H.
  destruct (coherent_forces rank manual s a Hs) as (f0 & v0 & s0 & E & P).
  destruct (force_deterministic _ _ _ _ _ _ _ _ H E) as [-> ->].
  destruct Hs as (Hl & Hc & Hsym & Hg).
  destruct P as (_ & _ & _ & K & _ & New & _).
  split; [|split; [|split]].
  - apply stratified_kept with s; auto. apply K.
  - destruct K as (_ & -> & _). exact Hc.
  - assert (R := forcing_rule symmetric_rule f0 a s Logic.I Hsym).
    rewrite E in R. exact R.
  - intros y Hy. destruct (clean (node s y)) eqn:Ey.
    + apply sound_kept with s; auto.
    + now apply New.
Qed.

Lemma coherent_compute (rank : Adapton -> nat) (manual : Adapton -> bool)
  (s : State) (a : Adapton) (fuel : nat) (v : value) (s' : State) :
  coherent rank manual s ->
  manual a = true \/ clean (node s a) = true ->
  adaptonCompute fuel a s = Done v s' ->
  coherent rank manual s'.
Proof.
  intros Hs Ha H.
  destruct (coherent_computes rank manual s a Hs) as (f0 & v0 & s0 & E & P).
  destruct (compute_deterministic _ _ _ _ _ _ _ _ H E) as [-> ->].
  destruct Hs as (Hl & Hc & Hsym & Hg).
  destruct P as (_ & _ & _ & K & _ & New).
  split; [|split; [|split]].
  - apply stratified_kept with s; auto. apply K.
  - destruct K as (_ & -> & _). exact Hc.
  - assert (R := compute_rule symmetric_rule f0 a s Logic.I Hsym).
    rewrite E in R. exact R.
  - intros y Hy. destruct (clean (node s y)) eqn:Ey.
    + apply sound_kept with s; auto.
    + destruct (New y Ey Hy) as [_ Hsound]. apply Hsound.
      destruct (Nat.eq_dec y a) as [->|Hne]; [|now left].
      destruct Ha as [Ha|Ha]; [right; now right | congruence].
Qed.

Lemma coherent_set (rank : Adapton -> nat) (manual : Adapton -> bool)
  (s : State) (r : Adapton) (val : value) (fuel : nat) (s' : State) :
  coherent rank manual s ->
  adaptonRefSet fuel r val s = Some s' -> coherent rank manual s'.
Proof.
  intros (Hl & Hc & Hsym & Hg) H. unfold adaptonRefSet in H.
  apply adaptonDirty_dirtied in H.
  destruct H as ((D1 & D2 & D3 & D4) & Mono & _ & Roots & Up).
  set (s1 := set_result r val s) in *.
  assert (Hn1 : forall x, thunk (node s1 x) = thunk (node s x) /\
                          sub (node s1 x) = sub (node s x) /\
                          super (node s1 x) = super (node s x) /\
                          clean (node s1 x) = clean (node s x)).
  { intros x. unfold s1. rewrite node_set_result.
    now destruct (Nat.eqb x r). }
  assert (Hth : forall x, thunk (node s' x) = thunk (node s x)).
  { intros x. destruct (D4 x) as (-> & _). apply Hn1. }
  assert (Hsub : forall x, sub (node s' x) = sub (node s x)).
  { intros x. destruct (D4 x) as (_ & _ & -> & _). apply Hn1. }
  assert (Hsup : forall x, super (node s' x) = super (node s x)).
  { intros x. destruct (D4 x) as (_ & _ & _ & ->). apply Hn1. }
  split; [|split; [|split]].
  - apply stratified_kept with s; auto.
  - rewrite D2. exact Hc.
  - apply symmetric_ext with s; auto.
  - intros y Hy.
    assert (Hy1 : clean (node s1 y) = true) by now apply Mono.
    assert (Hys : clean (node s y) = true)
      by (destruct (Hn1 y) as (_ & _ & _ & <-); exact Hy1).
    assert (Hne : y <> r).
    { intros ->. rewrite Roots in Hy by now left. discriminate. }
    destruct (Hg y Hys) as [G|G]; [left; now rewrite Hth|].
    right. rewrite Hth.
    assert (Hres : result (node s' y) = result (node s y)).
    { destruct (D4 y) as (_ & -> & _). unfold s1.
      rewrite node_set_result. apply Nat.eqb_neq in Hne. now rewrite Hne. }
    rewrite Hres.
    assert (Hdeps : forall b, clean (node s b) = true ->
                              In b (sub (node s y)) ->
                              clean (node s' b) = true /\
                              result (node s' b) = result (node s b)).
    { intros b Hb Hin.
      assert (Hb' : clean (node s' b) = true).
      { destruct (clean (node s' b)) eqn:E; [reflexivity|].
        assert (Hb1 : clean (node s1 b) = true)
          by (destruct (Hn1 b) as (_ & _ & _ & ->); exact Hb).
        assert (Hyb : In y (super (node s1 b))).
        { destruct (Hn1 b) as (_ & _ & -> & _). now apply Hsym. }
        rewrite (Up b y Hb1 E Hyb) in Hy. discriminate. }
      split; [exact Hb'|].
      destruct (D4 b) as (_ & -> & _). unfold s1. rewrite node_set_result.
      destruct (Nat.eqb_spec b r) as [->|_]; [|reflexivity].
      rewrite Roots in Hb' by now left. discriminate. }
    clear - G Hdeps Hsub.
    induction G as [v|b k v Hb Hin _ IH|b k v Hb Hin _ IH|a b k v _ IH].
    + constructor.
    + destruct (Hdeps b Hb Hin) as [H1 H2].
      constructor; [exact H1 | now rewrite Hsub | now rewrite H2].
    + destruct (Hdeps b Hb Hin) as [H1 H2].
      constructor; [exact H1 | now rewrite Hsub | now rewrite H2].
    + now constructor.
Qed.

Lemma session_reachable (rank : Adapton -> nat) (manual : Adapton -> bool)
  (s : State) :
  session rank manual s -> reachable s.
Proof.
  induction 1 as [|s val _ IH Hm|s f _ IH Hf|s r val fuel s' _ IH Hr H
                  |s a fuel v s' _ IH Ha Hc H
                  |s a fuel v s' _ IH Ha Hc Hm H].
  - constructor.
  - now apply reach_step with s (OAdaptonRef val) 0.
  - now apply reach_step with s (OMakeAthunk f) 0.
  - now apply reach_step with s (ORefSet r val) fuel.
  - apply reach_step with s (OForce a) fuel; [assumption | now split |].
    cbn. now rewrite H.
  - apply reach_step with s (OCompute a) fuel; [assumption | now split |].
    cbn. now rewrite H.
Qed.

Lemma coherent_alloc (rank : Adapton -> nat) (manual : Adapton -> bool)
  (s : State) (n : Node) (s' : State) :
  well_formed s ->
  (forall x, node s' x = if Nat.eqb x (next s) then n else node s x) ->
  currentlyAdapting s' = currentlyAdapting s ->
  sub n = [] -> super n = [] ->
  (thunk n = ref_thunk (next s) /\ manual (next s) = true \/
   reads_below rank manual (next s) [] (thunk n) /\ clean n = false) ->
  coherent rank manual s -> coherent rank manual s'.
Proof.
  intros (_ & Hedges & _) Hn Hctx Hsub Hsup Hthunk (Hl & Hc & Hsym & Hg).
  assert (Hold : forall x y, In y (sub (node s x)) ->
                             Nat.eqb x (next s) = false /\
                             Nat.eqb y (next s) = false).
  { intros x y Hin. destruct (Hedges x y Hin) as [Hx Hy].
    split; apply Nat.eqb_neq; lia. }
  split; [|split; [|split]].
  - intros x. rewrite Hn.
    destruct (Nat.eqb_spec x (next s)) as [->|_]; [|apply Hl].
    destruct Hthunk as [H|[H _]]; [now left | now right].
  - now rewrite Hctx.
  - intros x y. rewrite !Hn.
    destruct (Nat.eqb_spec x (next s)) as [->|Hx],
             (Nat.eqb_spec y (next s)) as [->|Hy];
      rewrite ?Hsub, ?Hsup.
    + tauto.
    + split; [intros []|]. intros H. apply Hsym in H.
      destruct (Hold _ _ H) as [E _]. now rewrite Nat.eqb_refl in E.
    + split; [|intros []]. intros H.
      destruct (Hold _ _ H) as [_ E]. now rewrite Nat.eqb_refl in E.
    + apply Hsym.
  - intros y. rewrite Hn.
    destruct (Nat.eqb_spec y (next s)) as [->|Hy].
    + intros Hcl. destruct Hthunk as [[H _]|[_ H]]; [|congruence].
      left. now rewrite Hn, Nat.eqb_refl.
    + intros Hcl. destruct (Hg y Hcl) as [G|G].
      * left. rewrite Hn. apply Nat.eqb_neq in Hy. now rewrite Hy.
      * right. rewrite !Hn. apply Nat.eqb_neq in Hy. rewrite Hy.
        clear - G Hn Hold Hy.
        induction G as [v|b k v Hb Hin _ IH|b k v Hb Hin _ IH|a b k v _ IH].
        -- constructor.
        -- destruct (Hold _ _ Hin) as [_ Eb].
           constructor; rewrite !Hn, ?Eb, ?Hy; auto.
        -- destruct (Hold _ _ Hin) as [_ Eb].
           constructor; rewrite !Hn, ?Eb, ?Hy; auto.
        -- now constructor.
Qed.

Lemma coherent_init (rank : Adapton -> nat) (manual : Adapton -> bool) :
  coherent rank manual init.
Proof.
  unfold coherent, stratified, symmetric, init, node. cbn.
  split; [intros x; right; constructor|]. split; [reflexivity|].
  split; [tauto | discriminate].
Qed.

Lemma session_coherent (rank : Adapton -> nat) (manual : Adapton -> bool)
  (s : State) :
  session rank manual s -> coherent rank manual s.
Proof.
  induction 1 as [|s val Hs IH Hm|s f Hs IH Hf|s r val fuel s' Hs IH Hr' H
                  |s a fuel v s' Hs IH Ha Hc H
                  |s a fuel v s' Hs IH Ha Hc Hm H].
  - apply coherent_init.
  - apply coherent_alloc
      with s (mkNode (ref_thunk (next s)) val [] [] true); auto.
    + eapply reachable_well_formed, session_reachable; eauto.
    + intros x. apply node_adaptonRef.
  - apply coherent_alloc
      with s (mkNode (f (next s)) VUndefined [] [] false); auto.
    eapply reachable_well_formed, session_reachable; eauto.
  - now apply coherent_set with s r val fuel.
  - now apply coherent_force with s a fuel v.
  - now apply coherent_compute with s a fuel v.
Qed.

(** C1, as the code has it.  Take an acyclic dependency graph of ref
    cells and thunks in which every read of a thunk is registered as a
    dependency: by [adaptonForce] when the thunk is itself read through
    [adaptonForce], or by hand with [addEdge] before the read, as the
    demonstrations of the source do.  The nodes may be allocated at any
    time.  After any sequence of [adaptonRefSet] calls, on ref cells or
    on thunks, and of reads made with [adaptonForce] on any node or
    with [adaptonCompute] on a node that is clean or registers its
    reads by hand, [adaptonForce] and [adaptonCompute] on any node
    return, and the value they return is the value of the from-scratch
    evaluation of the node from the current ref values. *)
Theorem recompute_matches_fresh (rank : Adapton -> nat)
  (manual : Adapton -> bool) (s : State) :
  session rank manual s ->
  forall a,
    (exists fuel v s', force fuel a s = Done v s' /\
                       fresh (S (rank a)) s a = Some v) /\
    (exists fuel v s', adaptonCompute fuel a s = Done v s' /\
                       fresh (S (rank a)) s a = Some v) /\
    (forall fuel v s', force fuel a s = Done v s' ->
                       fresh (S (rank a)) s a = Some v) /\
    (forall fuel v s', adaptonCompute fuel a s = Done v s' ->
                       fresh (S (rank a)) s a = Some v).
Proof.
  intros Hsession a. assert (Hs := session_coherent rank manual s Hsession).
  destruct (coherent_forces rank manual s a Hs)
    as (f1 & v1 & s1 & E1 & P1 & _).
  destruct (coherent_computes rank manual s a Hs)
    as (f2 & v2 & s2 & E2 & P2 & _).
  split; [now exists f1, v1, s1|]. split; [now exists f2, v2, s2|]. split.
  - intros fuel v s' H.
    now destruct (force_deterministic _ _ _ _ _ _ _ _ H E1) as [-> _].
  - intros fuel v s' H.
    now destruct (compute_deterministic _ _ _ _ _ _ _ _ H E2) as [-> _].
Qed.

Lemma done_state_of (o : Outcome) (d : State) :
  returned o = true -> exists v, o = Done v (state_of o d).
Proof. destruct o as [v s|e s|]; try discriminate. now exists v. Defined.

Lemma some_state_or (o : option State) (d : State) :
  match o with Some _ => true | None => false end = true ->
  o = Some (state_or o d).
Proof. destruct o; [reflexivity | discriminate]. Defined.

Lemma ex_plus3_built : built (fun x => x) ex_plus3.
Proof.
  unfold ex_plus3.
  apply built_thunk
    with (thunk := fun _ : Adapton =>
                     Force 0 (fun x => Ret (num2 Z.add x (VNum 3)))).
  - apply built_ref. apply built_init.
  - cbn. constructor; [lia | intros v; constructor].
Defined.

Lemma ex_plus3_reset_served : served (fun x => x) ex_plus3_reset.
Proof.
  apply served_set
    with (s := ex_plus3_forced) (r := 0) (val := VNum 2) (fuel := 5).
  - destruct (done_state_of (force 3 1 ex_plus3) init) as [v Hv];
      [vm_compute; reflexivity|].
    apply served_force with (s := ex_plus3) (a := 1) (fuel := 3) (v := v).
    + apply served_built. exact ex_plus3_built.
    + exact Hv.
  - vm_compute. reflexivity.
  - apply some_state_or. vm_compute. reflexivity.
Defined.

(** A read that is not registered goes stale: node 1 of
    [ex_unregistered] read node 0 with [adaptonCompute] without adding
    the edge, node 0 was written, and node 1 still answers 8 where the
    from-scratch evaluation gives 5. *)
Lemma unregistered_read_goes_stale :
  answer (force 3 1 ex_unregistered) = Some (VNum 8) /\
  fresh 2 ex_unregistered 1 = Some (VNum 5).
Proof. split; vm_compute; reflexivity. Qed.

(** *** The demonstrations of the source are such sessions *)

Lemma ex_minus_session : session (fun x => x) (fun _ => true) ex_minus_reset.
Proof.
  apply session_set
    with (s := state_of (adaptonCompute 2 2 ex_minus) init) (r := 0)
         (val := VNum 2) (fuel := 3).
  - destruct (done_state_of (adaptonCompute 2 2 ex_minus) init) as [v Hv];
      [vm_compute; reflexivity|].
    apply session_compute with (s := ex_minus) (a := 2) (fuel := 2) (v := v).
    + unfold ex_minus.
      apply session_thunk
        with (thunk := fun a : Adapton =>
                         AddEdge a 0
                           (AddEdge a 1
                              (Compute 0 (fun x =>
                                 Compute 1 (fun y =>
                                   Ret (num2 Z.sub x y)))))).
      * apply session_ref; [|reflexivity].
        apply session_ref; [|reflexivity]. apply session_init.
      * cbn. apply rb_AddEdge, rb_AddEdge.
        apply rb_Compute; [lia | reflexivity | right; now left|].
        intros x. apply rb_Compute; [lia | reflexivity | now left|].
        intros y. apply rb_Ret.
    + vm_compute. lia.
    + intros x. destruct x as [|[|[|x]]]; vm_compute.
      * apply hb_GetResult; [lia | intros w; apply hb_Ret].
      * apply hb_GetResult; [lia | intros w; apply hb_Ret].
      * apply hb_AddEdge; [lia | lia |].
        apply hb_AddEdge; [lia | lia |].
        apply hb_Compute; [lia|]. intros w.
        apply hb_Compute; [lia|]. intros w'. apply hb_Ret.
      * apply hb_Ret.
    + now left.
    + exact Hv.
  - vm_compute. lia.
  - apply some_state_or. vm_compute. reflexivity.
Defined.

Lemma ex_plus3_closed : closed_heap ex_plus3.
Proof.
  intros x. destruct x as [|[|x]]; vm_compute.
  - apply hb_GetResult; [lia | intros w; apply hb_Ret].
  - apply hb_Force; [lia | intros w; apply hb_Ret].
  - apply hb_Ret.
Defined.

Lemma ex_plus3_reset_closed : closed_heap ex_plus3_reset.
Proof.
  intros x. destruct x as [|[|x]]; vm_compute.
  - apply hb_GetResult; [lia | intros w; apply hb_Ret].
  - apply hb_Force; [lia | intros w; apply hb_Ret].
  - apply hb_Ret.
Defined.

Lemma ex_sum_closed : closed_heap ex_sum.
Proof.
  intros x. destruct x as [|[|[|[|x]]]]; vm_compute.
  - apply hb_GetResult; [lia | intros w; apply hb_Ret].
  - apply hb_Force; [lia | intros w; apply hb_Ret].
  - apply hb_GetResult; [lia | intros w; apply hb_Ret].
  - apply hb_Force; [lia | intros w].
    apply hb_Force; [lia | intros w']. apply hb_Ret.
  - apply hb_Ret.
Defined.

Lemma ex_sum_session : session (fun x => x) refs_0_2 ex_sum_reset.
Proof.
  assert (S0 : session (fun x => x) refs_0_2 ex_plus3).
  { unfold ex_plus3.
    apply session_thunk
      with (thunk := fun _ : Adapton =>
                       Force 0 (fun x => Ret (num2 Z.add x (VNum 3)))).
    - apply session_ref; [apply session_init | reflexivity].
    - cbn. apply rb_Force; [lia | discriminate | intros v; apply rb_Ret]. }
  assert (S1 : session (fun x => x) refs_0_2 ex_plus3_forced).
  { destruct (done_state_of (force 3 1 ex_plus3) init) as [v Hv];
      [vm_compute; reflexivity|].
    apply session_force with (s := ex_plus3) (a := 1) (fuel := 3) (v := v);
      [exact S0 | vm_compute; lia | exact ex_plus3_closed | exact Hv]. }
  assert (S2 : session (fun x => x) refs_0_2 ex_plus3_reset).
  { apply session_set
      with (s := ex_plus3_forced) (r := 0) (val := VNum 2) (fuel := 5);
      [exact S1 | vm_compute; lia |].
    apply some_state_or. vm_compute. reflexivity. }
  assert (S3 : session (fun x => x) refs_0_2
                       (state_of (force 3 1 ex_plus3_reset) init)).
  { destruct (done_state_of (force 3 1 ex_plus3_reset) init) as [v Hv];
      [vm_compute; reflexivity|].
    apply session_force
      with (s := ex_plus3_reset) (a := 1) (fuel := 3) (v := v);
      [exact S2 | vm_compute; lia | exact ex_plus3_reset_closed | exact Hv]. }
  assert (S4 : session (fun x => x) refs_0_2 ex_sum).
  { unfold ex_sum.
    apply session_thunk
      with (thunk := fun _ : Adapton =>
                       Force 1 (fun x => Force 2 (fun y =>
                                                    Ret (num2 Z.add x y)))).
    - apply session_ref; [exact S3 | vm_compute; reflexivity].
    - assert (E : next (snd (adaptonRef (VNum 4)
                               (state_of (force 3 1 ex_plus3_reset) init)))
                  = 3) by (vm_compute; reflexivity).
      rewrite E.
      apply rb_Force; [lia | discriminate | intros v].
      apply rb_Force; [lia | discriminate | intros w]. apply rb_Ret. }
  unfold ex_sum_reset.
  apply session_set
    with (s := state_or (adaptonRefSet 5 0 (VNum 4)
                           (state_of (force 4 3 ex_sum) init)) init)
         (r := 2) (val := VNum 5) (fuel := 5).
  - apply session_set
      with (s := state_of (force 4 3 ex_sum) init)
           (r := 0) (val := VNum 4) (fuel := 5).
    + destruct (done_state_of (force 4 3 ex_sum) init) as [v Hv];
        [vm_compute; reflexivity|].
      apply session_force with (s := ex_sum) (a := 3) (fuel := 4) (v := v);
        [exact S4 | vm_compute; lia | exact ex_sum_closed | exact Hv].
    + vm_compute. lia.
    + apply some_state_or. vm_compute. reflexivity.
  - vm_compute. lia.
  - apply some_state_or. vm_compute. reflexivity.
Defined.

Lemma recompute_matches_fresh_witness :
  (session (fun x => x) (fun _ => true) ex_minus_reset /\
   exists fuel s',
     adaptonCompute fuel 2 ex_minus_reset = Done (VNum (-8)) s') /\
  (session (fun x => x) refs_0_2 ex_sum_reset /\
   exists fuel s', force fuel 3 ex_sum_reset = Done (VNum 12) s').
Proof.
  split; (split; [exact ex_minus_session || exact ex_sum_session|]).
  - destruct (recompute_matches_fresh (fun x => x) (fun _ => true)
                                      ex_minus_reset ex_minus_session 2)
      as (_ & (fuel & v & s' & H & Hv) & _).
    assert (E : fresh 3 ex_minus_reset 2 = Some (VNum (-8)))
      by (vm_compute; reflexivity).
    change (fresh 3 ex_minus_reset 2 = Some v) in Hv.
    rewrite E in Hv. injection Hv as <-. now exists fuel, s'.
  - destruct (recompute_matches_fresh (fun x => x) refs_0_2
                                      ex_sum_reset ex_sum_session 3)
      as ((fuel & v & s' & H & Hv) & _).
    assert (E : fresh 4 ex_sum_reset 3 = Some (VNum 12))
      by (vm_compute; reflexivity).
    change (fresh 4 ex_sum_reset 3 = Some v) in Hv.
    rewrite E in Hv. injection Hv as <-. now exists fuel, s'.
Defined.

(** The statement of the spec fails when an earlier read was made with
    [adaptonCompute] from the top level: the edge from the thunk to the
    ref cell it forced was not registered, so writing the cell leaves
    the thunk clean and the next read answers with the stale cache. *)
Lemma stale_after_compute_read :
  ~ (forall rank s,
        used rank s ->
        forall a fuel v s',
          adaptonCompute fuel a s = Done v s' ->
          fresh (S (rank a)) s a = Some v).
Proof.
  intros H.
  assert (U : used (fun x => x) ex_plus3_stale).
  { apply used_set
      with (s := ex_plus3_computed) (r := 0) (val := VNum 2) (fuel := 5).
    - destruct (done_state_of (adaptonCompute 2 1 ex_plus3) init) as [v Hv];
        [vm_compute; reflexivity|].
      apply used_compute with (s := ex_plus3) (a := 1) (fuel := 2) (v := v).
      + apply used_built. exact ex_plus3_built.
      + exact Hv.
    - vm_compute. reflexivity.
    - apply some_state_or. vm_compute. reflexivity. }
  assert (E : match adaptonCompute 0 1 ex_plus3_stale with
              | Done v _ => v
              | _ => VUndefined
              end = VNum 8) by (vm_compute; reflexivity).
  destruct (adaptonCompute 0 1 ex_plus3_stale) as [v s|e s|] eqn:F;
    try discriminate.
  assert (Hf := H (fun x => x) ex_plus3_stale U 1 0 v s F).
  assert (E5 : fresh 2 ex_plus3_stale 1 = Some (VNum 5))
    by (vm_compute; reflexivity).
  change (fresh 2 ex_plus3_stale 1 = Some v) in Hf.
  rewrite E5 in Hf. congruence.
Qed.

(** * Further properties of the engine *)

(** ** What a call that returns leaves behind *)

Lemma same_state_refl (s : State) : same_state s s.
Proof. unfold same_state. auto. Qed.

(** [adaptonCompute] returns through its first branch only. *)
Lemma compute_done_cached (fuel : nat) :
  forall a st v st',
    adaptonCompute fuel a st = Done v st' ->
    clean (node st' a) = true /\ result (node st' a) = v.
Proof.
  induction fuel as [|fuel IH]; intros a st v st' H.
  - cbn in H. destruct (clean (node st a)) eqn:E; [|discriminate].
    injection H as <- <-. auto.
  - destruct (clean (node st a)) eqn:E.
    + rewrite adaptonCompute_clean in H by assumption.
      injection H as <- <-. auto.
    + rewrite adaptonCompute_dirty in H by assumption.
      destruct (exec fuel (thunk (node st a)) (before_thunk a st))
        as [v0 s3|e s3|]; try discriminate.
      now apply IH with (set_result a v0 s3).
Qed.

(** X1.  Whenever [adaptonCompute] returns, the node is clean and caches the
    value returned, so that calling it again at once returns the same
    value and the same state, with any fuel: no thunk runs. *)
Theorem compute_settles_node (fuel : nat) (a : Adapton) (st : State)
  (v : value) (st' : State) :
  adaptonCompute fuel a st = Done v st' ->
  clean (node st' a) = true /\
  result (node st' a) = v /\
  forall fuel', adaptonCompute fuel' a st' = Done v st'.
Proof.
  intros H. destruct (compute_done_cached fuel a st v st' H) as [Hc Hr].
  split; [exact Hc|]. split; [exact Hr|].
  intros fuel'. rewrite adaptonCompute_clean by assumption. now rewrite Hr.
Qed.

Lemma compute_settles_node_witness :
  exists st',
    adaptonCompute 2 1 ex_plus3 = Done (VNum 8) st' /\
    clean (node st' 1) = true /\
    adaptonCompute 0 1 st' = Done (VNum 8) st'.
Proof.
  assert (E : answer (adaptonCompute 2 1 ex_plus3) = Some (VNum 8))
    by (vm_compute; reflexivity).
  destruct (adaptonCompute 2 1 ex_plus3) as [v s|e s|] eqn:F;
    try discriminate.
  injection E as ->. exists s. split; [reflexivity|].
  destruct (compute_settles_node 2 1 ex_plus3 (VNum 8) s F) as (H1 & _ & H3).
  split; [exact H1 | apply H3].
Defined.

(** ** Edges *)

Lemma set_add_present (x : Adapton) (s : list Adapton) :
  In x s -> set_add x s = s.
Proof.
  intros H. unfold set_add. apply set_has_In in H. now rewrite H.
Qed.

Lemma set_add_idem (x : Adapton) (s : list Adapton) :
  set_add x (set_add x s) = set_add x s.
Proof. apply set_add_present, set_add_In. now left. Qed.

Lemma set_delete_add (x : Adapton) (s : list Adapton) :
  ~ In x s -> set_delete x (set_add x s) = s.
Proof.
  intros H. unfold set_add.
  destruct (set_has x s) eqn:E; [apply set_has_In in E; contradiction|].
  unfold set_delete. rewrite filter_app. cbn [filter].
  rewrite Nat.eqb_refl. cbn [negb]. rewrite app_nil_r.
  now apply set_delete_absent.
Qed.

Lemma set_delete_idem (x : Adapton) (s : list Adapton) :
  set_delete x (set_delete x s) = set_delete x s.
Proof.
  apply set_delete_absent. rewrite set_delete_In. tauto.
Qed.

Lemma node_eta (n : Node) :
  mkNode (thunk n) (result n) (sub n) (super n) (clean n) = n.
Proof. now destruct n. Qed.

Lemma same_state_addEdge_present (a b : Adapton) (s : State) :
  In b (sub (node s a)) -> In a (super (node s b)) ->
  same_state s (addEdge a b s).
Proof.
  intros H1 H2. unfold same_state.
  split; [reflexivity|]. split; [reflexivity|]. split; [reflexivity|].
  intros x. rewrite node_addEdge.
  etransitivity; [|apply node_eta]. f_equal.
  - destruct (Nat.eqb_spec x a) as [->|_];
      [now apply set_add_present | reflexivity].
  - destruct (Nat.eqb_spec x b) as [->|_];
      [now apply set_add_present | reflexivity].
Qed.

(** X2.  [addEdge] adds the one edge, on both sides, and nothing else: no
    other edge appears or goes, and no flag, result or thunk moves.
    Adding an edge that is there changes nothing, so adding twice is
    adding once. *)
Theorem addEdge_idempotent (a b : Adapton) (s : State) :
  (forall x y, In y (sub (node (addEdge a b s) x)) <->
               In y (sub (node s x)) \/ (x = a /\ y = b)) /\
  (forall x y, In y (super (node (addEdge a b s) x)) <->
               In y (super (node s x)) \/ (x = b /\ y = a)) /\
  (forall x, thunk (node (addEdge a b s) x) = thunk (node s x) /\
             result (node (addEdge a b s) x) = result (node s x) /\
             clean (node (addEdge a b s) x) = clean (node s x)) /\
  same_state (addEdge a b s) (addEdge a b (addEdge a b s)) /\
  (In b (sub (node s a)) -> In a (super (node s b)) ->
   same_state s (addEdge a b s)).
Proof.
  split; [|split; [|split; [|split]]].
  - intros x y. rewrite node_addEdge. cbn [sub].
    destruct (Nat.eqb_spec x a) as [->|Hne]; rewrite ?set_add_In;
      intuition congruence.
  - intros x y. rewrite node_addEdge. cbn [super].
    destruct (Nat.eqb_spec x b) as [->|Hne]; rewrite ?set_add_In;
      intuition congruence.
  - intros x. rewrite node_addEdge. cbn. auto.
  - apply same_state_addEdge_present.
    + rewrite node_addEdge, Nat.eqb_refl. cbn [sub].
      apply set_add_In. now left.
    + rewrite node_addEdge, Nat.eqb_refl. cbn [super].
      apply set_add_In. now left.
  - apply same_state_addEdge_present.
Qed.

Lemma addEdge_idempotent_witness :
  same_state ex_stale_edge (addEdge 1 0 ex_stale_edge).
Proof.
  destruct (addEdge_idempotent 1 0 ex_stale_edge) as (_ & _ & _ & _ & H).
  apply H; vm_compute; now left.
Defined.

(** X3.  [deleteEdge] removes the one edge, from both sides, and nothing
    else.  Deleting an edge that is on neither side changes nothing, so
    deleting twice is deleting once. *)
Theorem deleteEdge_idempotent (a b : Adapton) (s : State) :
  (forall x y, In y (sub (node (deleteEdge a b s) x)) <->
               In y (sub (node s x)) /\ ~ (x = a /\ y = b)) /\
  (forall x y, In y (super (node (deleteEdge a b s) x)) <->
               In y (super (node s x)) /\ ~ (x = b /\ y = a)) /\
  (forall x, thunk (node (deleteEdge a b s) x) = thunk (node s x) /\
             result (node (deleteEdge a b s) x) = result (node s x) /\
             clean (node (deleteEdge a b s) x) = clean (node s x)) /\
  same_state (deleteEdge a b s) (deleteEdge a b (deleteEdge a b s)) /\
  (~ In b (sub (node s a)) -> ~ In a (super (node s b)) ->
   same_state s (deleteEdge a b s)).
Proof.
  split; [|split; [|split; [|split]]].
  - intros x y. rewrite node_deleteEdge. cbn [sub].
    destruct (Nat.eqb_spec x a) as [->|Hne]; rewrite ?set_delete_In;
      intuition congruence.
  - intros x y. rewrite node_deleteEdge. cbn [super].
    destruct (Nat.eqb_spec x b) as [->|Hne]; rewrite ?set_delete_In;
      intuition congruence.
  - intros x. rewrite node_deleteEdge. cbn. auto.
  - unfold same_state.
    split; [reflexivity|]. split; [reflexivity|]. split; [reflexivity|].
    intros x. rewrite (node_deleteEdge a b (deleteEdge a b s)).
    rewrite node_deleteEdge. cbn [thunk result sub super clean].
    destruct (Nat.eqb x a), (Nat.eqb x b);
      rewrite ?set_delete_idem; reflexivity.
  - intros H1 H2. unfold same_state.
    split; [reflexivity|]. split; [reflexivity|]. split; [reflexivity|].
    intros x. rewrite node_deleteEdge.
    etransitivity; [|apply node_eta]. f_equal.
    + destruct (Nat.eqb_spec x a) as [->|_];
        [now apply set_delete_absent | reflexivity].
    + destruct (Nat.eqb_spec x b) as [->|_];
        [now apply set_delete_absent | reflexivity].
Qed.

Lemma deleteEdge_idempotent_witness :
  same_state ex_plus3 (deleteEdge 1 0 ex_plus3).
Proof.
  destruct (deleteEdge_idempotent 1 0 ex_plus3) as (_ & _ & _ & _ & H).
  apply H; vm_compute; tauto.
Defined.

(** X4.  [deleteEdge] undoes [addEdge]: adding an edge that is on neither
    side and deleting it gives back every object as it was. *)
Theorem deleteEdge_undoes_addEdge (a b : Adapton) (s : State) :
  ~ In b (sub (node s a)) -> ~ In a (super (node s b)) ->
  same_state s (deleteEdge a b (addEdge a b s)).
Proof.
  intros H1 H2. unfold same_state.
  split; [reflexivity|]. split; [reflexivity|]. split; [reflexivity|].
  intros x. rewrite node_deleteEdge, node_addEdge.
  cbn [thunk result sub super clean].
  etransitivity; [|apply node_eta]. f_equal.
  - destruct (Nat.eqb_spec x a) as [->|_];
      [now apply set_delete_add | reflexivity].
  - destruct (Nat.eqb_spec x b) as [->|_];
      [now apply set_delete_add | reflexivity].
Qed.

Lemma deleteEdge_undoes_addEdge_witness :
  same_state ex_plus3 (deleteEdge 1 0 (addEdge 1 0 ex_plus3)).
Proof.
  apply (deleteEdge_undoes_addEdge 1 0 ex_plus3); vm_compute; tauto.
Defined.

Lemma force_done_inv (fuel : nat) (a : Adapton) (st : State) (v : value)
  (st' : State) :
  force fuel a st = Done v st' ->
  exists s1,
    adaptonCompute fuel a (set_context (Some a) st) = Done v s1 /\
    st' = force_exit st a s1.
Proof.
  intros H. rewrite force_unfold in H.
  destruct (adaptonCompute fuel a (set_context (Some a) st))
    as [v1 s1|e s1|]; try discriminate.
  exists s1. unfold force_exit.
  destruct (currentlyAdapting st); injection H as <- <-; auto.
Qed.

Lemma node_force_exit (st : State) (a : Adapton) (s1 : State) (x : Adapton) :
  thunk (node (force_exit st a s1) x) = thunk (node s1 x) /\
  result (node (force_exit st a s1) x) = result (node s1 x) /\
  clean (node (force_exit st a s1) x) = clean (node s1 x).
Proof.
  unfold force_exit. destruct (currentlyAdapting st) as [c|]; [|auto].
  rewrite node_addEdge. auto.
Qed.

Lemma context_force_exit (st : State) (a : Adapton) (s1 : State) :
  currentlyAdapting (force_exit st a s1) = currentlyAdapting st.
Proof.
  unfold force_exit. now destruct (currentlyAdapting st).
Qed.

Lemma force_done_cached (fuel : nat) (a : Adapton) (st : State) (v : value)
  (st' : State) :
  force fuel a st = Done v st' ->
  clean (node st' a) = true /\ result (node st' a) = v.
Proof.
  intros H. destruct (force_done_inv fuel a st v st' H) as (s1 & E & ->).
  destruct (compute_done_cached fuel a _ v s1 E) as [Hc Hr].
  destruct (node_force_exit st a s1 a) as (_ & Er & Ec).
  split; congruence.
Qed.

(** X5.  Whenever [adaptonForce] returns, the node is clean and caches the
    value returned.  Forcing it again at once from the same context
    returns the same value and changes nothing: no thunk runs, and the
    edge from the context is there already. *)
Theorem force_settles_node (fuel : nat) (a : Adapton) (st : State)
  (v : value) (st' : State) :
  force fuel a st = Done v st' ->
  clean (node st' a) = true /\
  result (node st' a) = v /\
  forall fuel', exists st'',
      force fuel' a st' = Done v st'' /\ same_state st' st''.
Proof.
  intros H. destruct (force_done_cached fuel a st v st' H) as [Hc' Hr'].
  destruct (force_done_inv fuel a st v st' H) as (s1 & E & ->).
  split; [exact Hc'|]. split; [exact Hr'|].
  intros fuel'. rewrite force_unfold.
  rewrite adaptonCompute_clean by exact Hc'.
  change (result (node (set_context (Some a) (force_exit st a s1)) a))
    with (result (node (force_exit st a s1) a)).
  rewrite Hr', context_force_exit.
  unfold force_exit. destruct (currentlyAdapting st) as [c|].
  - eexists. split; [reflexivity|].
    unfold same_state.
    split; [reflexivity|]. split; [reflexivity|]. split; [reflexivity|].
    intros x.
    apply (same_state_addEdge_present c a
             (addEdge c a (set_context (Some c) s1))).
    + rewrite node_addEdge, Nat.eqb_refl. cbn [sub].
      apply set_add_In. now left.
    + rewrite node_addEdge, Nat.eqb_refl. cbn [super].
      apply set_add_In. now left.
  - eexists. split; [reflexivity|]. unfold same_state. auto.
Qed.

Lemma force_settles_node_witness :
  exists st' st'',
    force 3 1 ex_plus3 = Done (VNum 8) st' /\
    force 0 1 st' = Done (VNum 8) st'' /\ same_state st' st''.
Proof.
  assert (E : answer (force 3 1 ex_plus3) = Some (VNum 8))
    by (vm_compute; reflexivity).
  destruct (force 3 1 ex_plus3) as [v s|e s|] eqn:F; try discriminate.
  injection E as ->.
  destruct (force_settles_node 3 1 ex_plus3 (VNum 8) s F) as (_ & _ & H).
  destruct (H 0) as (s' & H1 & H2).
  exists s, s'. auto.
Defined.

(** ** Dirtying twice, writing twice *)

Lemma adaptonDirty_dirty (fuel : nat) (a : Adapton) (st : State) :
  clean (node st a) = false -> adaptonDirty fuel a st = Some st.
Proof. intros H. destruct fuel; cbn; now rewrite H. Qed.

Lemma adaptonDirty_root (fuel : nat) (a : Adapton) (st st' : State) :
  adaptonDirty fuel a st = Some st' -> clean (node st' a) = false.
Proof.
  intros H. apply adaptonDirty_dirtied in H.
  destruct H as (_ & _ & _ & H & _). apply H. now left.
Qed.

(** X6.  Once [adaptonDirty] has returned the node is dirty, so a second
    call returns at its first line, with any fuel: dirtying twice is
    dirtying once. *)
Theorem dirty_twice_is_dirty_once (fuel : nat) (a : Adapton)
  (st st' : State) :
  adaptonDirty fuel a st = Some st' ->
  clean (node st' a) = false /\
  forall fuel', adaptonDirty fuel' a st' = Some st'.
Proof.
  intros H. assert (Ha := adaptonDirty_root fuel a st st' H).
  split; [exact Ha|]. intros fuel'. now apply adaptonDirty_dirty.
Qed.

Lemma dirty_twice_is_dirty_once_witness :
  exists st',
    adaptonDirty 3 0 ex_plus3_forced = Some st' /\
    clean (node st' 0) = false /\
    adaptonDirty 0 0 st' = Some st'.
Proof.
  assert (E : match adaptonDirty 3 0 ex_plus3_forced with
              | Some _ => true
              | None => false
              end = true) by (vm_compute; reflexivity).
  destruct (adaptonDirty 3 0 ex_plus3_forced) as [s|] eqn:F;
    try discriminate.
  exists s. split; [reflexivity|].
  destruct (dirty_twice_is_dirty_once 3 0 ex_plus3_forced s F) as [H1 H2].
  split; [exact H1 | apply H2].
Defined.

(** X7.  A write to a node that is dirty stores the value and propagates
    nothing.  That is the case of any write that follows another one
    with no read in between: the second [adaptonRefSet] only replaces
    the value, and needs no fuel. *)
Theorem ref_write_twice (fuel fuel' : nat) (a : Adapton) (v1 v2 : value)
  (st st1 : State) :
  adaptonRefSet fuel a v1 st = Some st1 ->
  adaptonRefSet fuel' a v2 st1 = Some (set_result a v2 st1) /\
  result (node (set_result a v2 st1) a) = v2 /\
  forall x, clean (node (set_result a v2 st1) x) = clean (node st1 x).
Proof.
  intros H. unfold adaptonRefSet in *.
  assert (Ha := adaptonDirty_root fuel a _ st1 H).
  split; [|split].
  - apply adaptonDirty_dirty. rewrite node_set_result, Nat.eqb_refl.
    exact Ha.
  - rewrite node_set_result, Nat.eqb_refl. reflexivity.
  - intros x. rewrite node_set_result. now destruct (Nat.eqb x a).
Qed.

Lemma ref_write_twice_witness :
  exists st1,
    adaptonRefSet 3 0 (VNum 2) ex_plus3_forced = Some st1 /\
    adaptonRefSet 0 0 (VNum 7) st1 = Some (set_result 0 (VNum 7) st1).
Proof.
  assert (E : match adaptonRefSet 3 0 (VNum 2) ex_plus3_forced with
              | Some _ => true
              | None => false
              end = true) by (vm_compute; reflexivity).
  destruct (adaptonRefSet 3 0 (VNum 2) ex_plus3_forced) as [s|] eqn:F;
    try discriminate.
  exists s. split; [reflexivity|].
  apply (ref_write_twice 3 0 0 (VNum 2) (VNum 7) ex_plus3_forced s F).
Defined.

(** ** Ref cells *)

(** X8.  [adaptonRef] allocates a new object and runs nothing.  The cell is
    clean and holds [val]: [adaptonCompute] returns [val] and the state
    as it is, with any fuel, and so does [adaptonForce] up to the edge
    it registers for the context; the thunk [self => self.result] is
    not invoked. *)
Theorem adaptonRef_reads_back (val : value) (st : State) :
  fst (adaptonRef val st) = next st /\
  next (snd (adaptonRef val st)) = S (next st) /\
  calls (snd (adaptonRef val st)) = calls st /\
  currentlyAdapting (snd (adaptonRef val st)) = currentlyAdapting st /\
  (forall x, x <> next st -> node (snd (adaptonRef val st)) x = node st x) /\
  (forall fuel,
      adaptonCompute fuel (next st) (snd (adaptonRef val st)) =
      Done val (snd (adaptonRef val st))) /\
  (forall fuel, exists st2,
        force fuel (next st) (snd (adaptonRef val st)) = Done val st2 /\
        calls st2 = calls st /\
        currentlyAdapting st2 = currentlyAdapting st /\
        clean (node st2 (next st)) = true /\
        result (node st2 (next st)) = val).
Proof.
  assert (Hn : node (snd (adaptonRef val st)) (next st) =
               mkNode (ref_thunk (next st)) val [] [] true)
    by (rewrite node_adaptonRef, Nat.eqb_refl; reflexivity).
  assert (Hc : forall fuel,
             adaptonCompute fuel (next st) (snd (adaptonRef val st)) =
             Done val (snd (adaptonRef val st))).
  { intros fuel. rewrite adaptonCompute_clean; rewrite Hn; reflexivity. }
  split; [reflexivity|]. split; [reflexivity|]. split; [reflexivity|].
  split; [reflexivity|]. split; [|split].
  - intros x Hx. rewrite node_adaptonRef.
    apply Nat.eqb_neq in Hx. now rewrite Hx.
  - exact Hc.
  - intros fuel. rewrite force_unfold.
    rewrite adaptonCompute_clean
      by (change (clean (node (snd (adaptonRef val st)) (next st)) = true);
          rewrite Hn; reflexivity).
    change (result (node (set_context (Some (next st))
                                      (snd (adaptonRef val st))) (next st)))
      with (result (node (snd (adaptonRef val st)) (next st))).
    rewrite Hn. cbn [result].
    change (currentlyAdapting (snd (adaptonRef val st)))
      with (currentlyAdapting st).
    destruct (currentlyAdapting st) as [c|] eqn:Ec.
    + eexists. split; [reflexivity|].
      split; [reflexivity|]. split; [reflexivity|].
      rewrite node_addEdge. cbn [clean result].
      change (node (set_context (Some c)
                      (set_context (Some (next st))
                                   (snd (adaptonRef val st)))) (next st))
        with (node (snd (adaptonRef val st)) (next st)).
      rewrite Hn. auto.
    + eexists. split; [reflexivity|].
      split; [reflexivity|]. split; [reflexivity|].
      change (node (set_context None
                      (set_context (Some (next st))
                                   (snd (adaptonRef val st)))) (next st))
        with (node (snd (adaptonRef val st)) (next st)).
      rewrite Hn. auto.
Qed.

Lemma adaptonRef_reads_back_witness :
  node (snd (adaptonRef (VNum 8) ex_plus3)) 1 = node ex_plus3 1.
Proof.
  destruct (adaptonRef_reads_back (VNum 8) ex_plus3)
    as (_ & _ & _ & _ & H & _).
  apply H. vm_compute. discriminate.
Defined.

(** X9.  A ref cell gives back what was last written to it.  After
    [adaptonRefSet] the cell is dirty and holds the value; the next
    [adaptonCompute] invokes the cell's own thunk, which reads
    [self.result], and no other thunk; it returns the value written and
    leaves the cell clean. *)
Theorem ref_write_then_read (fuel fuel' : nat) (r : Adapton) (val : value)
  (st st1 : State) :
  thunk (node st r) = ref_thunk r ->
  adaptonRefSet fuel r val st = Some st1 ->
  clean (node st1 r) = false /\
  result (node st1 r) = val /\
  exists st2,
    adaptonCompute (S fuel') r st1 = Done val st2 /\
    calls st2 = r :: calls st /\
    clean (node st2 r) = true /\
    result (node st2 r) = val /\
    forall x, x <> r ->
              clean (node st2 x) = clean (node st1 x) /\
              result (node st2 x) = result (node st1 x).
Proof.
  intros Hr H. unfold adaptonRefSet in H.
  assert (Ha := adaptonDirty_root fuel r _ st1 H).
  apply adaptonDirty_dirtied in H.
  destruct H as ((_ & _ & Hcalls & Hn) & _).
  destruct (Hn r) as (Ht & Hres & _).
  rewrite node_set_result, Nat.eqb_refl in Ht, Hres.
  cbn [with_result thunk result] in Ht, Hres.
  split; [exact Ha|]. split; [exact Hres|].
  rewrite adaptonCompute_dirty by exact Ha.
  rewrite Ht, Hr. unfold exec, ref_thunk. cbn [run].
  rewrite node_before_thunk. cbn [result]. rewrite Hres.
  rewrite adaptonCompute_clean
    by (rewrite node_set_result, Nat.eqb_refl, node_before_thunk;
        cbn; now rewrite Nat.eqb_refl).
  rewrite node_set_result, Nat.eqb_refl. cbn [with_result result].
  eexists. split; [reflexivity|]. split; [|split; [|split]].
  - change (calls (set_result r val (before_thunk r st1)))
      with (calls (before_thunk r st1)).
    destruct (frame_before_thunk r st1) as (_ & _ & -> & _).
    now rewrite Hcalls.
  - rewrite node_set_result, Nat.eqb_refl, node_before_thunk.
    cbn. now rewrite Nat.eqb_refl.
  - rewrite node_set_result, Nat.eqb_refl. reflexivity.
  - intros x Hx. apply Nat.eqb_neq in Hx.
    rewrite node_set_result, Hx, node_before_thunk. cbn [clean result].
    now rewrite Hx.
Qed.

Lemma ref_write_then_read_witness :
  exists st1 st2,
    adaptonRefSet 3 0 (VNum 2) ex_plus3_forced = Some st1 /\
    adaptonCompute 1 0 st1 = Done (VNum 2) st2 /\
    calls st2 = 0 :: calls ex_plus3_forced.
Proof.
  assert (E : match adaptonRefSet 3 0 (VNum 2) ex_plus3_forced with
              | Some _ => true
              | None => false
              end = true) by (vm_compute; reflexivity).
  destruct (adaptonRefSet 3 0 (VNum 2) ex_plus3_forced) as [s|] eqn:F;
    try discriminate.
  destruct (ref_write_then_read 3 0 0 (VNum 2) ex_plus3_forced s)
    as (_ & _ & s2 & H1 & H2 & _).
  - vm_compute. reflexivity.
  - exact F.
  - exists s, s2. auto.
Defined.

(** ** Which thunks a call runs *)

Lemma ran_once_refl (s : State) : ran_once s s.
Proof.
  split; [apply clean_kept_refl|]. exists []. split; [reflexivity|].
  split; [constructor | intros x []].
Qed.

Lemma ran_once_trans (s1 s2 s3 : State) :
  ran_once s1 s2 -> ran_once s2 s3 -> ran_once s1 s3.
Proof.
  intros (K1 & l1 & E1 & N1 & D1) (K2 & l2 & E2 & N2 & D2).
  split; [now apply clean_kept_trans with s2|].
  exists (l2 ++ l1). split; [now rewrite E2, E1, app_assoc|]. split.
  - apply NoDup_app; auto.
    intros x H2 H1. destruct (D1 x H1) as [_ Hc], (D2 x H2) as [Hd _].
    congruence.
  - intros x Hx. apply in_app_iff in Hx. destruct Hx as [H2|H1].
    + destruct (D2 x H2) as [Hd Hc]. split; [|exact Hc].
      destruct (clean (node s1 x)) eqn:E; [|reflexivity].
      destruct K1 as [_ K1]. destruct (K1 x E) as [Hc2 _]. congruence.
    + destruct (D1 x H1) as [Hd Hc]. split; [exact Hd|].
      destruct K2 as [_ K2]. now destruct (K2 x Hc).
Qed.

(** The relation looks at the flags, the cached results, the thunks and
    the call log only. *)
Lemma ran_once_ext (s0 s s' s0' : State) :
  (forall x, thunk (node s0 x) = thunk (node s x) /\
             result (node s0 x) = result (node s x) /\
             clean (node s0 x) = clean (node s x)) ->
  calls s0 = calls s ->
  (forall x, thunk (node s0' x) = thunk (node s' x) /\
             result (node s0' x) = result (node s' x) /\
             clean (node s0' x) = clean (node s' x)) ->
  calls s0' = calls s' ->
  ran_once s s' -> ran_once s0 s0'.
Proof.
  intros H0 C0 H0' C0' ((K1 & K2) & l & E & N & D). split; [split|].
  - intros x. destruct (H0 x) as (-> & _), (H0' x) as (-> & _). apply K1.
  - intros y. destruct (H0 y) as (_ & -> & ->), (H0' y) as (_ & -> & ->).
    apply K2.
  - exists l. rewrite C0, C0'. split; [exact E|]. split; [exact N|].
    intros x Hx. destruct (H0 x) as (_ & _ & ->), (H0' x) as (_ & _ & ->).
    now apply D.
Qed.

Lemma ran_once_enter (a : Adapton) (s s3 : State) :
  clean (node s a) = false ->
  ran_once (before_thunk a s) s3 ->
  clean_kept s s3 /\
  exists l, calls s3 = l ++ calls s /\
            NoDup l /\
            forall x, In x l -> clean (node s x) = false /\
                                clean (node s3 x) = true.
Proof.
  intros Ha (K & l & E & N & D).
  assert (Hb : clean (node (before_thunk a s) a) = true)
    by (rewrite node_before_thunk; cbn; now rewrite Nat.eqb_refl).
  split; [now apply clean_kept_raise with a|].
  exists (l ++ [a]). split; [|split].
  - destruct (frame_before_thunk a s) as (_ & _ & F & _).
    now rewrite E, F, <- app_assoc.
  - apply NoDup_app; auto.
    + constructor; [intros [] | constructor].
    + intros x Hx [E0|[]]. subst x.
      destruct (D a Hx) as [Hd _]. congruence.
  - intros x Hx. apply in_app_iff in Hx. destruct Hx as [Hx|[E0|[]]].
    + destruct (D x Hx) as [Hd Hc]. split; [|exact Hc].
      rewrite node_before_thunk in Hd. cbn [clean] in Hd.
      now destruct (Nat.eqb x a).
    + subst x. split; [exact Ha|]. destruct K as [_ K]. now destruct (K a Hb).
Qed.

Lemma ran_once_rule (A : OpKind -> bool) :
  A KDirty = false -> A KRefSet = false ->
  engine_rule (only A) any_node any_node (heap_only A) ran_once ran_once.
Proof.
  intros HD HR.
  constructor; unfold any_node; try solve [auto | tauto].
  - intros. apply ran_once_refl.
  - intros. apply ran_once_refl.
  - intros. eapply ran_once_trans; eauto.
  - intros. eapply ran_once_trans; eauto.
  - intros s1 s2 Hs ((H & _) & _). eapply heap_only_kept; eauto.
  - intros a k H. inversion H; auto.
  - intros a k H. inversion H; auto.
  - intros a k H. inversion H; auto.
  - intros a b k H. inversion H; subst. split; [assumption|].
    intros s _. apply ran_once_ext with s s; auto using ran_once_refl.
    intros x. now rewrite node_addEdge.
  - intros a b k H. inversion H; subst. split; [assumption|].
    intros s _. apply ran_once_ext with s s; auto using ran_once_refl.
    intros x. now rewrite node_deleteEdge.
  - intros a k H. inversion H; congruence.
  - intros a v k H. inversion H; congruence.
  - intros s a _ Hs _.
    apply heap_only_kept with s; [apply frame_before_thunk | exact Hs].
  - intros s a s3 v _ _ Ha H.
    destruct (ran_once_enter a s s3 Ha H) as (_ & l & E & N & D).
    split; [apply clean_kept_recompute; [exact Ha | apply H]|].
    exists l. split; [exact E|]. split; [exact N|].
    intros x Hx. destruct (D x Hx) as [Hd Hc]. split; [exact Hd|].
    rewrite node_set_result. now destruct (Nat.eqb x a).
  - intros s a s3 _ _ Ha H. now apply ran_once_enter with a.
  - intros s a s1 _ _ H _.
    apply ran_once_ext with (set_context (Some a) s) s1; auto.
    + intros x. apply node_force_exit.
    + unfold force_exit. now destruct (currentlyAdapting s).
  - intros body h k H. inversion H; subst.
    split; [assumption|]. split; [assumption|]. split; [assumption|].
    split; [|split].
    + intros s1 s2 Hs ((H' & _) & _). eapply heap_only_kept; eauto.
    + intros. eapply ran_once_trans; eauto.
    + intros. eapply ran_once_trans; eauto.
Qed.

(** X10.  Clean nodes are never recomputed.  In a heap whose thunks call
    neither [adaptonDirty] nor [adaptonRefSet], a call of
    [adaptonCompute] or [adaptonForce] that comes to an end, by a
    return or by an exception, has invoked each thunk at most once, and
    only thunks of nodes that were dirty when the call started; every
    node that was clean is still clean and has kept its cached
    result. *)
Theorem clean_nodes_are_not_recomputed (fuel : nat) (a : Adapton)
  (st st' : State) :
  heap_only no_dirtying st ->
  final (adaptonCompute fuel a st) = Some st' \/
  final (force fuel a st) = Some st' ->
  (exists l, calls st' = l ++ calls st /\
             NoDup l /\
             forall x, In x l -> clean (node st x) = false) /\
  (forall y, clean (node st y) = true ->
             clean (node st' y) = true /\
             result (node st' y) = result (node st y)).
Proof.
  intros Hs H.
  assert (R : ran_once st st').
  { destruct H as [H|H].
    - assert (R := compute_rule (ran_once_rule no_dirtying eq_refl eq_refl)
                                fuel a st Logic.I Hs).
      destruct (adaptonCompute fuel a st) as [v s|e s|]; cbn in *;
        try discriminate; now injection H as <-.
    - assert (R := forcing_rule (ran_once_rule no_dirtying eq_refl eq_refl)
                                fuel a st Logic.I Hs).
      destruct (force fuel a st) as [v s|e s|]; cbn in *;
        try discriminate; now injection H as <-. }
  destruct R as ((_ & K) & l & E & N & D). split; [|exact K].
  exists l. split; [exact E|]. split; [exact N|].
  intros x Hx. now destruct (D x Hx).
Qed.

Lemma ex_plus3_no_dirtying : heap_only no_dirtying ex_plus3.
Proof.
  intros x. destruct x as [|[|x]].
  - apply only_GetResult; [reflexivity|]. intros v. apply only_Ret.
  - apply only_Force; [reflexivity|]. intros v. apply only_Ret.
  - apply only_Ret.
Defined.

Lemma clean_nodes_are_not_recomputed_witness :
  exists st',
    final (force 3 1 ex_plus3) = Some st' /\
    clean (node st' 0) = true /\ result (node st' 0) = VNum 5.
Proof.
  assert (E : returned (force 3 1 ex_plus3) = true)
    by (vm_compute; reflexivity).
  destruct (force 3 1 ex_plus3) as [v s|e s|] eqn:F; try discriminate.
  exists s. split; [reflexivity|].
  apply (clean_nodes_are_not_recomputed 3 1 ex_plus3 s
           ex_plus3_no_dirtying).
  - right. rewrite F. reflexivity.
  - reflexivity.
Defined.

(** ** After an exception *)

(** X11.  An exception is not remembered.  In a heap whose thunks call
    neither [adaptonDirty] nor [adaptonRefSet], once [adaptonCompute]
    or [adaptonForce] on a node has thrown, the next [adaptonCompute]
    on the node returns the result cached before the failed run
    ([undefined] for a node never computed) and the next
    [adaptonForce] returns it too: neither throws again, and neither
    invokes a thunk. *)
Theorem throw_then_read_is_stale (fuel : nat) (a : Adapton) (st : State)
  (e : value) (st' : State) :
  heap_only no_dirtying st ->
  adaptonCompute fuel a st = Threw e st' \/ force fuel a st = Threw e st' ->
  (forall fuel', adaptonCompute fuel' a st' = Done (result (node st a)) st') /\
  (forall fuel', exists st'',
        force fuel' a st' = Done (result (node st a)) st'' /\
        calls st'' = calls st').
Proof.
  intros Hs H.
  assert (Hq : clean (node st' a) = true /\
               result (node st' a) = result (node st a)).
  { destruct H as [H|H].
    - now apply (quiet_compute_threw no_dirtying fuel a st e st'
                   eq_refl eq_refl Hs H).
    - rewrite force_unfold in H.
      destruct (adaptonCompute fuel a (set_context (Some a) st))
        as [v s1|e1 s1|] eqn:E; try discriminate.
      + destruct (currentlyAdapting st); discriminate.
      + injection H as <- <-.
        now apply (quiet_compute_threw no_dirtying fuel a
                     (set_context (Some a) st) e1 s1 eq_refl eq_refl Hs E). }
  destruct Hq as [Hc Hr]. split.
  - intros fuel'. rewrite adaptonCompute_clean by exact Hc. now rewrite Hr.
  - intros fuel'. rewrite force_unfold.
    rewrite adaptonCompute_clean by exact Hc.
    change (result (node (set_context (Some a) st') a))
      with (result (node st' a)).
    rewrite Hr. destruct (currentlyAdapting st') as [c|];
      eexists; (split; [reflexivity|]); reflexivity.
Qed.

Lemma ex_nested_throw_no_dirtying : heap_only no_dirtying ex_nested_throw.
Proof.
  intros x. destruct x as [|[|x]].
  - apply only_Force; [reflexivity|]. intros v. apply only_Ret.
  - apply only_Throw. reflexivity.
  - apply only_Ret.
Defined.

Lemma throw_then_read_is_stale_witness :
  exists st',
    adaptonCompute 1 1 ex_nested_throw = Threw (VNum 99) st' /\
    adaptonCompute 0 1 st' = Done VUndefined st'.
Proof.
  exists (before_thunk 1 ex_nested_throw).
  assert (F : adaptonCompute 1 1 ex_nested_throw =
              Threw (VNum 99) (before_thunk 1 ex_nested_throw))
    by reflexivity.
  split; [exact F|].
  apply (throw_then_read_is_stale 1 1 ex_nested_throw (VNum 99)
           (before_thunk 1 ex_nested_throw) ex_nested_throw_no_dirtying).
  now left.
Defined.

(** ** A thunk that reads its own node *)

(** X12.  The flag is set before the thunk runs, so a thunk that calls
    [adaptonCompute] on its own node does not recurse: the call returns
    the result cached before the run, and the thunk goes on with it.
    A node made with [self => adaptonCompute(self)] computes
    [undefined], with one invocation of the thunk. *)
Theorem self_compute_sees_previous :
  (forall fuel a st k,
      clean (node st a) = false ->
      thunk (node st a) = Compute a k ->
      adaptonCompute (S fuel) a st =
      match exec fuel (k (result (node st a))) (before_thunk a st) with
      | Done v st3 => adaptonCompute fuel a (set_result a v st3)
      | Threw e st3 => Threw e st3
      | OutOfFuel => OutOfFuel
      end) /\
  (forall fuel st,
      exists st2,
        adaptonCompute (S fuel) (next st) (snd (makeAthunk self_thunk st)) =
        Done VUndefined st2 /\
        calls st2 = next st :: calls st /\
        clean (node st2 (next st)) = true).
Proof.
  split.
  - intros fuel a st k Ha Hk.
    rewrite adaptonCompute_dirty by exact Ha.
    rewrite Hk. unfold exec at 1. cbn [run].
    rewrite adaptonCompute_clean
      by (rewrite node_before_thunk; cbn; now rewrite Nat.eqb_refl).
    rewrite node_before_thunk. cbn [result]. reflexivity.
  - intros fuel st.
    assert (Hn : node (snd (makeAthunk self_thunk st)) (next st) =
                 mkNode (self_thunk (next st)) VUndefined [] [] false)
      by (rewrite node_makeAthunk, Nat.eqb_refl; reflexivity).
    assert (Hcalls : calls (snd (makeAthunk self_thunk st)) = calls st)
      by reflexivity.
    revert Hn Hcalls. generalize (snd (makeAthunk self_thunk st)).
    generalize (next st). intros a s0 Hn Hcalls.
    rewrite adaptonCompute_dirty by (rewrite Hn; reflexivity).
    rewrite Hn. cbn [thunk]. unfold self_thunk, exec. cbn [run].
    rewrite adaptonCompute_clean
      by (rewrite node_before_thunk; cbn; now rewrite Nat.eqb_refl).
    rewrite node_before_thunk, Hn. cbn [result run].
    rewrite adaptonCompute_clean
      by (rewrite node_set_result, Nat.eqb_refl, node_before_thunk;
          cbn; now rewrite Nat.eqb_refl).
    rewrite node_set_result, Nat.eqb_refl. cbn [with_result result].
    eexists. split; [reflexivity|]. split.
    + change (calls (before_thunk a s0) = a :: calls st).
      destruct (frame_before_thunk a s0) as (_ & _ & -> & _).
      now rewrite Hcalls.
    + rewrite node_set_result, Nat.eqb_refl, node_before_thunk.
      cbn. now rewrite Nat.eqb_refl.
Qed.

Lemma self_compute_sees_previous_witness :
  adaptonCompute 1 0 (snd (makeAthunk self_thunk init)) =
  match exec 0 (Ret VUndefined)
             (before_thunk 0 (snd (makeAthunk self_thunk init))) with
  | Done v st3 => adaptonCompute 0 0 (set_result 0 v st3)
  | Threw e st3 => Threw e st3
  | OutOfFuel => OutOfFuel
  end.
Proof.
  apply (proj1 self_compute_sees_previous 0 0
           (snd (makeAthunk self_thunk init)) Ret); reflexivity.
Defined.

(** ** Writes in a graph built by forcing *)

Lemma dirty_upward_ext (s s' : State) :
  (forall x, super (node s' x) = super (node s x)) ->
  (forall x, clean (node s' x) = clean (node s x)) ->
  dirty_upward s -> dirty_upward s'.
Proof.
  intros H1 H2 H x y. rewrite H1, !H2. apply H.
Qed.

Lemma dirty_upward_before_thunk (a : Adapton) (s : State) :
  symmetric s -> dirty_upward s -> dirty_upward (before_thunk a s).
Proof.
  intros Hsym Hup x y Hin Hx.
  rewrite node_before_thunk in Hin, Hx. rewrite node_before_thunk.
  cbn [super clean] in *.
  destruct (Nat.eqb_spec x a) as [->|Hxa]; [discriminate|].
  destruct (Nat.eqb_spec y a) as [->|Hya].
  - exfalso. destruct (set_has x (sub (node s a))) eqn:E.
    + apply set_delete_In in Hin. tauto.
    + apply (Hsym a x) in Hin. apply set_has_In in Hin. congruence.
  - apply Hup with x; [|exact Hx].
    destruct (set_has x (sub (node s a)));
      [apply set_delete_In in Hin; tauto | exact Hin].
Qed.

Lemma dirty_upward_force_exit (s : State) (a : Adapton) (s1 : State) :
  dirty_upward s1 -> clean (node s1 a) = true ->
  dirty_upward (force_exit s a s1).
Proof.
  intros Hup Ha. unfold force_exit.
  destruct (currentlyAdapting s) as [c|]; [|exact Hup].
  intros x y Hin Hx. rewrite node_addEdge in Hin, Hx.
  rewrite node_addEdge. cbn [super clean] in *.
  change (node (set_context (Some c) s1)) with (node s1) in *.
  destruct (Nat.eqb_spec x a) as [->|Hxa]; [congruence|].
  now apply Hup with x.
Qed.

Lemma tracked_heap_kept (s s' : State) :
  tracked_kept s s' -> tracked_heap s -> tracked_heap s'.
Proof. intros (H & _) Hs x. rewrite H. apply Hs. Qed.

Lemma exec_dirty_upward (fuel : nat) :
  (forall a s v s',
      tracked_heap s -> symmetric s -> dirty_upward s ->
      adaptonCompute fuel a s = Done v s' -> dirty_upward s') ->
  forall p s v s',
    tracked_prog p ->
    tracked_heap s -> symmetric s -> dirty_upward s ->
    exec fuel p s = Done v s' -> dirty_upward s'.
Proof.
  intros IH p s v s' [Hp|[x ->]].
  - revert s v s'.
    induction Hp as [v0|e HA|a k HA Hk IHk|a k HA Hk IHk|a k HA Hk IHk
                     |a b k HA Hk IHk|a b k HA Hk IHk|a k HA Hk IHk
                     |a v0 k HA Hk IHk
                     |body h k HA Hb IHb Hh IHh Hk IHk];
      intros s v s' Ht Hsym Hup H; try discriminate HA.
    + cbn in H. now injection H as _ <-.
    + unfold exec in H. cbn [run] in H.
      change (adaptonForce (adaptonCompute fuel) a s) with (force fuel a s)
        in H.
      assert (Rt := forcing_rule tracked_rule fuel a s Logic.I Ht).
      assert (Rs := forcing_rule symmetric_rule fuel a s Logic.I Hsym).
      destruct (force fuel a s) as [v1 s1|e s1|] eqn:F; try discriminate.
      cbn in Rt, Rs.
      apply (IHk v1 s1 v s'); auto.
      * now apply tracked_heap_kept with s.
      * destruct (force_done_inv fuel a s v1 s1 F) as (s0 & E & ->).
        apply dirty_upward_force_exit.
        -- now apply (IH a (set_context (Some a) s) v1 s0).
        -- now destruct (compute_done_cached fuel a _ v1 s0 E).
  - intros Ht Hsym Hup H. unfold exec, ref_thunk in H. cbn [run] in H.
    now injection H as _ <-.
Qed.

Lemma compute_dirty_upward (fuel : nat) :
  forall a s v s',
    tracked_heap s -> symmetric s -> dirty_upward s ->
    adaptonCompute fuel a s = Done v s' -> dirty_upward s'.
Proof.
  induction fuel as [|fuel IH]; intros a s v s' Ht Hsym Hup H.
  - cbn in H. destruct (clean (node s a)); [|discriminate].
    now injection H as _ <-.
  - destruct (clean (node s a)) eqn:Ea.
    + rewrite adaptonCompute_clean in H by assumption.
      now injection H as _ <-.
    + rewrite adaptonCompute_dirty in H by assumption.
      assert (Htb : tracked_heap (before_thunk a s)).
      { intros x. destruct (frame_before_thunk a s) as (_ & _ & _ & ->).
        apply Ht. }
      assert (Hsb := symmetric_before_thunk a s Hsym).
      assert (Hub := dirty_upward_before_thunk a s Hsym Hup).
      assert (Rt := exec_rule tracked_rule fuel (thunk (node s a))
                              (before_thunk a s) (Ht a) Htb).
      assert (Rs := exec_rule symmetric_rule fuel (thunk (node s a))
                              (before_thunk a s) Logic.I Hsb).
      destruct (exec fuel (thunk (node s a)) (before_thunk a s))
        as [v0 s3|e s3|] eqn:E; try discriminate.
      cbn in Rt, Rs.
      assert (Hn : forall x,
                 thunk (node (set_result a v0 s3) x) = thunk (node s3 x) /\
                 sub (node (set_result a v0 s3) x) = sub (node s3 x) /\
                 super (node (set_result a v0 s3) x) = super (node s3 x) /\
                 clean (node (set_result a v0 s3) x) = clean (node s3 x)).
      { intros x. rewrite node_set_result. now destruct (Nat.eqb x a). }
      apply (IH a (set_result a v0 s3) v s'); auto.
      * intros x. destruct (Hn x) as (-> & _).
        now apply tracked_heap_kept with (before_thunk a s).
      * apply symmetric_ext with s3; auto; intros x; apply Hn.
      * apply dirty_upward_ext with s3; try (intros x; apply Hn).
        now apply (exec_dirty_upward fuel IH (thunk (node s a))
                     (before_thunk a s) v0 s3 (Ht a)).
Qed.

Lemma force_dirty_upward (fuel : nat) (a : Adapton) (s : State) (v : value)
  (s' : State) :
  tracked_heap s -> symmetric s -> dirty_upward s ->
  force fuel a s = Done v s' -> dirty_upward s'.
Proof.
  intros Ht Hsym Hup H.
  destruct (force_done_inv fuel a s v s' H) as (s0 & E & ->).
  apply dirty_upward_force_exit.
  - now apply (compute_dirty_upward fuel a (set_context (Some a) s) v s0).
  - now destruct (compute_done_cached fuel a _ v s0 E).
Qed.

Lemma served_dirty_upward (rank : Adapton -> nat) (s : State) :
  served rank s -> dirty_upward s.
Proof.
  induction 1 as [s Hb|s r val fuel s' Hs IH Hr H|s a fuel v s' Hs IH H].
  - destruct (built_pristine rank s Hb) as (_ & _ & He & _).
    intros x y Hin. destruct (He x) as [_ E]. rewrite E in Hin.
    contradiction.
  - unfold adaptonRefSet in H. apply adaptonDirty_dirtied in H.
    apply dirtied_upward with (set_result r val s) [r]; [|exact H].
    apply dirty_upward_ext with s; [| |exact IH];
      intros x; rewrite node_set_result; now destruct (Nat.eqb x r).
  - destruct (served_settled rank s Hs) as (Hl & _ & Hsym & _).
    apply force_dirty_upward with fuel a s v; auto.
    now apply layered_tracked with rank.
Qed.


Lemma ex_plus3_forced_served : served (fun x => x) ex_plus3_forced.
Proof.
  destruct (done_state_of (force 3 1 ex_plus3) init) as [v Hv];
    [vm_compute; reflexivity|].
  apply served_force with (s := ex_plus3) (a := 1) (fuel := 3) (v := v).
  - apply served_built. exact ex_plus3_built.
  - exact Hv.
Defined.


(** ** The program of the source *)

(** X14.  The program runs to its end and prints -2, -8, 8, 5, 9 and 12: the
    last four are the values its own messages announce as expected.  A
    call stack of depth four is enough. *)
Theorem main_prints_expected (fuel : nat) :
  main (4 + fuel) =
  Some [VNum (-2); VNum (-8); VNum 8; VNum 5; VNum 9; VNum 12].
Proof. vm_compute. reflexivity. Qed.

(** ** New thunks *)

Lemma compute_dirty_logs_first (fuel : nat) (a : Adapton) (st st' : State) :
  clean (node st a) = false ->
  final (adaptonCompute fuel a st) = Some st' ->
  exists l, calls st' = l ++ a :: calls st.
Proof.
  intros Ha H. destruct fuel as [|f].
  { cbn in H. rewrite Ha in H. discriminate. }
  rewrite adaptonCompute_dirty in H by assumption.
  destruct (frame_before_thunk a st) as (_ & _ & F3 & _).
  assert (R := exec_log f (thunk (node st a)) (before_thunk a st)).
  destruct (exec f (thunk (node st a)) (before_thunk a st))
    as [v s3|e s3|]; cbn in R; try discriminate.
  - destruct R as (_ & _ & (l & Hl) & _).
    destruct (final_calls _ _ _ (compute_log f a (set_result a v s3)) H)
      as [l' Hl'].
    exists (l' ++ l). rewrite Hl'.
    change (calls (set_result a v s3)) with (calls s3).
    now rewrite Hl, F3, app_assoc.
  - injection H as <-. destruct R as (_ & _ & (l & Hl) & _).
    exists l. now rewrite Hl, F3.
Qed.

Lemma force_dirty_logs_first (fuel : nat) (a : Adapton) (st st' : State) :
  clean (node st a) = false ->
  final (force fuel a st) = Some st' ->
  exists l, calls st' = l ++ a :: calls st.
Proof.
  intros Ha H. rewrite force_unfold in H.
  assert (K := compute_dirty_logs_first fuel a (set_context (Some a) st)).
  destruct (adaptonCompute fuel a (set_context (Some a) st))
    as [v s1|e s1|]; try discriminate.
  - destruct (K s1 Ha eq_refl) as [l Hl]. exists l.
    destruct (currentlyAdapting st); injection H as <-; exact Hl.
  - injection H as <-. now apply K.
Qed.

(** X15.  [makeAthunk] allocates a new object and runs nothing: the thunk is
    not invoked, no object that exists is touched.  The new node is
    dirty, without result and without edges, and its thunk is the
    client function applied to the node itself.  The first
    [adaptonCompute] or [adaptonForce] on it that comes to an end has
    invoked this thunk before any other.  [adapt] is the same
    function. *)
Theorem makeAthunk_is_lazy (f : Adapton -> Prog) (st : State) :
  adapt f st = makeAthunk f st /\
  fst (makeAthunk f st) = next st /\
  next (snd (makeAthunk f st)) = S (next st) /\
  calls (snd (makeAthunk f st)) = calls st /\
  currentlyAdapting (snd (makeAthunk f st)) = currentlyAdapting st /\
  (forall x, x <> next st -> node (snd (makeAthunk f st)) x = node st x) /\
  node (snd (makeAthunk f st)) (next st) =
  mkNode (f (next st)) VUndefined [] [] false /\
  (forall fuel st',
      final (adaptonCompute fuel (next st) (snd (makeAthunk f st)))
      = Some st' \/
      final (force fuel (next st) (snd (makeAthunk f st))) = Some st' ->
      exists l, calls st' = l ++ next st :: calls st).
Proof.
  assert (Hn : node (snd (makeAthunk f st)) (next st) =
               mkNode (f (next st)) VUndefined [] [] false)
    by (rewrite node_makeAthunk, Nat.eqb_refl; reflexivity).
  split; [reflexivity|]. split; [reflexivity|]. split; [reflexivity|].
  split; [reflexivity|]. split; [reflexivity|]. split; [|split].
  - intros x Hx. rewrite node_makeAthunk.
    apply Nat.eqb_neq in Hx. now rewrite Hx.
  - exact Hn.
  - intros fuel st' [H|H].
    + apply (compute_dirty_logs_first fuel (next st)
               (snd (makeAthunk f st)) st'); [|exact H].
      now rewrite Hn.
    + apply (force_dirty_logs_first fuel (next st)
               (snd (makeAthunk f st)) st'); [|exact H].
      now rewrite Hn.
Qed.

Lemma makeAthunk_is_lazy_witness :
  exists st' l,
    final (adaptonCompute 1 0 (snd (makeAthunk (fun _ => Ret (VNum 1)) init)))
    = Some st' /\
    calls st' = l ++ [0].
Proof.
  assert (E : returned (adaptonCompute 1 0
                          (snd (makeAthunk (fun _ => Ret (VNum 1)) init)))
              = true) by (vm_compute; reflexivity).
  destruct (makeAthunk_is_lazy (fun _ => Ret (VNum 1)) init)
    as (_ & _ & _ & _ & _ & _ & _ & H).
  destruct (adaptonCompute 1 0 (snd (makeAthunk (fun _ => Ret (VNum 1)) init)))
    as [v s|e s|] eqn:F; try discriminate.
  destruct (H 1 s) as [l Hl].
  - left. change (final (adaptonCompute 1 0
                     (snd (makeAthunk (fun _ => Ret (VNum 1)) init)))
                  = Some s).
    now rewrite F.
  - exists s, l. split; [reflexivity | exact Hl].
Defined.

(** ** The reader of a node is invalidated with it *)

Lemma dirty_reaches_dependent (fuel : nat) (b c : Adapton) (s s' : State) :
  clean (node s b) = true -> In c (super (node s b)) ->
  adaptonDirty fuel b s = Some s' -> clean (node s' c) = false.
Proof.
  intros Hb Hin H. assert (Hroot := adaptonDirty_root fuel b s s' H).
  apply adaptonDirty_dirtied in H. destruct H as (_ & _ & _ & _ & A4).
  now apply A4 with b.
Qed.

(** X16.  [adaptonForce] registers the node being computed as a reader of
    the node forced, so that the next write to the node forced, or the
    next [adaptonDirty] on it, leaves the reader dirty.  The same holds
    for an edge added by hand with [addEdge] to a node that is clean. *)
Theorem reader_is_invalidated (fuel fuel' : nat) (b c : Adapton)
  (val : value) (st : State) (v : value) (st' st'' : State) :
  (currentlyAdapting st = Some c /\ force fuel b st = Done v st') \/
  (clean (node st b) = true /\ st' = addEdge c b st) ->
  adaptonRefSet fuel' b val st' = Some st'' \/
  adaptonDirty fuel' b st' = Some st'' ->
  clean (node st'' b) = false /\ clean (node st'' c) = false.
Proof.
  intros H0 H.
  assert (Hb : clean (node st' b) = true /\ In c (super (node st' b))).
  { destruct H0 as [[Hc F]|[Hb ->]].
    - destruct (force_done_cached fuel b st v st' F) as [Hb _].
      split; [exact Hb|].
      destruct (force_done_inv fuel b st v st' F) as (s1 & _ & ->).
      unfold force_exit. rewrite Hc, node_addEdge, Nat.eqb_refl.
      cbn [super]. apply set_add_In. now left.
    - rewrite node_addEdge, Nat.eqb_refl. cbn [clean super].
      split; [exact Hb | apply set_add_In; now left]. }
  destruct Hb as [Hb Hin].
  assert (D : adaptonDirty fuel' b st' = Some st'' \/
              adaptonDirty fuel' b (set_result b val st') = Some st'')
    by (destruct H as [H|H]; [right; exact H | left; exact H]).
  destruct D as [D|D].
  - split; [now apply adaptonDirty_root with fuel' st'|].
    now apply dirty_reaches_dependent with fuel' b st'.
  - split; [now apply adaptonDirty_root with fuel' (set_result b val st')|].
    apply dirty_reaches_dependent with fuel' b (set_result b val st');
      auto; rewrite node_set_result, Nat.eqb_refl; assumption.
Qed.

Lemma reader_is_invalidated_witness :
  exists st' st'',
    force 1 0 (set_context (Some 1) ex_plus3_forced) = Done (VNum 5) st' /\
    adaptonDirty 3 0 st' = Some st'' /\
    clean (node st'' 1) = false.
Proof.
  assert (Ev : answer (force 1 0 (set_context (Some 1) ex_plus3_forced)) =
               Some (VNum 5)) by (vm_compute; reflexivity).
  assert (E : match force 1 0 (set_context (Some 1) ex_plus3_forced) with
              | Done _ s =>
                match adaptonDirty 3 0 s with
                | Some _ => true
                | None => false
                end
              | _ => false
              end = true) by (vm_compute; reflexivity).
  destruct (force 1 0 (set_context (Some 1) ex_plus3_forced))
    as [v s|e s|] eqn:F; try discriminate.
  injection Ev as ->.
  destruct (adaptonDirty 3 0 s) as [s''|] eqn:G; try discriminate.
  exists s, s''. split; [reflexivity|]. split; [exact G|].
  apply (reader_is_invalidated 1 3 0 1 VUndefined
           (set_context (Some 1) ex_plus3_forced) (VNum 5) s s'').
  - left. split; [reflexivity | exact F].
  - right. exact G.
Defined.

(** ** Termination *)

Lemma allocated_at_ext (N : nat) (s s' : State) :
  (forall x, thunk (node s' x) = thunk (node s x)) ->
  (forall x, clean (node s' x) = true -> clean (node s x) = true) ->
  allocated_at N s -> allocated_at N s'.
Proof.
  intros H1 H2 (Hb & Hc). split.
  - intros x Hx. apply Hb. now apply H2.
  - intros x. rewrite H1. apply Hc.
Qed.

Lemma allocated_at_dirty (N : nat) (fuel : nat) (a : Adapton)
  (s s' : State) :
  adaptonDirty fuel a s = Some s' -> allocated_at N s -> allocated_at N s'.
Proof.
  intros H. apply adaptonDirty_dirtied in H.
  destruct H as ((_ & _ & _ & Hn) & Hmono & _).
  apply allocated_at_ext; [|exact Hmono]. intros x. apply Hn.
Qed.

Lemma allocated_at_set_result (N : nat) (a : Adapton) (v : value)
  (s : State) :
  allocated_at N s -> allocated_at N (set_result a v s).
Proof.
  apply allocated_at_ext; intros x; rewrite node_set_result;
    now destruct (Nat.eqb x a).
Qed.

Lemma allocated_rule (N : nat) :
  engine_rule (handles_below N) (fun a => a < N) (fun a => a < N)
              (allocated_at N)
              (fun _ s' => allocated_at N s')
              (fun _ s' => allocated_at N s').
Proof.
  constructor; try solve [auto].
  - intros s a (_ & H). apply H.
  - intros a k H. inversion H; auto.
  - intros a k H. inversion H; auto.
  - intros a k H. inversion H; auto.
  - intros a b k H. inversion H; subst. split; [assumption|].
    intros s. apply allocated_at_ext; intros x; now rewrite node_addEdge.
  - intros a b k H. inversion H; subst. split; [assumption|].
    intros s. apply allocated_at_ext; intros x; now rewrite node_deleteEdge.
  - intros a k H. inversion H; subst. split; [assumption|].
    intros fuel s s' Hs Hd. now apply allocated_at_dirty with fuel a s.
  - intros a v k H. inversion H; subst. split; [assumption|].
    intros fuel s s' Hs Hd.
    apply allocated_at_dirty with fuel a (set_result a v s); auto.
    now apply allocated_at_set_result.
  - intros s a Ha (Hb & Hc) _. split.
    + intros x. rewrite node_before_thunk. cbn [clean].
      destruct (Nat.eqb_spec x a) as [->|_]; [auto | apply Hb].
    + intros x. destruct (frame_before_thunk a s) as (_ & _ & _ & ->).
      apply Hc.
  - intros s a s3 v _ _ _. apply allocated_at_set_result.
  - intros s a s1 _ _ Hs1 _.
    apply allocated_at_ext with s1; auto; intros x;
      destruct (node_force_exit s a s1 x) as (Ht & _ & Hc);
      [exact Ht | now rewrite Hc].
  - intros body h k H. inversion H; subst.
    split; [assumption|]. split; [assumption|]. split; [assumption|].
    split; [|split]; intros; assumption.
Qed.

Lemma final_next (o : Outcome) (s s' : State) :
  related frame_threw frame_threw s o -> final o = Some s' ->
  next s' = next s.
Proof.
  destruct o as [v s1|e s1|]; cbn; intros R H; try discriminate;
    injection H as <-; apply R.
Qed.

Lemma final_allocated (N : nat) (o : Outcome) (s s' : State) :
  related (fun _ s' => allocated_at N s') (fun _ s' => allocated_at N s')
          s o ->
  final o = Some s' -> allocated_at N s'.
Proof.
  destruct o as [v s1|e s1|]; cbn; intros R H; try discriminate;
    now injection H as <-.
Qed.

Lemma clean_below_le (N N' : nat) (s : State) :
  N <= N' -> clean_below N s -> clean_below N' s.
Proof. intros Hle H x Hx. apply H in Hx. lia. Qed.

Lemma clean_below_makeAthunk (f : Adapton -> Prog) (s : State) :
  clean_below (next s) s ->
  clean_below (next (snd (makeAthunk f s))) (snd (makeAthunk f s)).
Proof.
  intros Hs x. rewrite node_makeAthunk.
  change (next (snd (makeAthunk f s))) with (S (next s)).
  destruct (Nat.eqb x (next s)); [discriminate|].
  intros Hx. apply Hs in Hx. lia.
Qed.

Lemma clean_below_adaptonRef (v : value) (s : State) :
  clean_below (next s) s ->
  clean_below (next (snd (adaptonRef v s))) (snd (adaptonRef v s)).
Proof.
  intros Hs x. rewrite node_adaptonRef.
  change (next (snd (adaptonRef v s))) with (S (next s)).
  destruct (Nat.eqb_spec x (next s)) as [->|_]; [lia|].
  intros Hx. apply Hs in Hx. lia.
Qed.

Lemma clean_below_edges (s s' : State) :
  next s' = next s ->
  (forall x, clean (node s' x) = clean (node s x)) ->
  clean_below (next s) s -> clean_below (next s') s'.
Proof. intros -> H Hs x. rewrite H. apply Hs. Qed.

Lemma apply_op_clean_below (fuel : nat) (op : Op) (s s' : State) :
  clean_below (next s) s -> op_ok s op -> apply_op fuel op s = Some s' ->
  clean_below (next s') s'.
Proof.
  intros Hs Hop H.
  destruct op as [f|v|a b|a b|a|a|a v|a]; cbn [apply_op op_ok] in H, Hop.
  - injection H as <-. now apply clean_below_makeAthunk.
  - injection H as <-. now apply clean_below_adaptonRef.
  - injection H as <-.
    apply (clean_below_edges s (addEdge a b s)); auto.
    intros x. now rewrite node_addEdge.
  - injection H as <-.
    apply (clean_below_edges s (deleteEdge a b s)); auto.
    intros x. now rewrite node_deleteEdge.
  - destruct Hop as [Ha Hc].
    assert (R := compute_rule (allocated_rule (next s)) fuel a s Ha
                              (conj Hs Hc)).
    rewrite (final_next _ s s' (compute_log fuel a s) H).
    apply (final_allocated (next s) _ s s' R H).
  - assert (D := H). apply adaptonDirty_dirtied in D.
    destruct D as ((-> & _) & Hmono & _).
    intros x Hx. apply Hs. now apply Hmono.
  - unfold adaptonRefSet in H. assert (D := H).
    apply adaptonDirty_dirtied in D.
    destruct D as ((-> & _) & Hmono & _).
    intros x Hx. apply Hmono in Hx.
    rewrite node_set_result in Hx. apply Hs.
    now destruct (Nat.eqb x a).
  - destruct Hop as [Ha Hc].
    assert (R := forcing_rule (allocated_rule (next s)) fuel a s Ha
                              (conj Hs Hc)).
    rewrite (final_next _ s s' (force_log fuel a s) H).
    apply (final_allocated (next s) _ s s' R H).
Qed.

Lemma reachable_clean_below (s : State) :
  reachable s -> clean_below (next s) s.
Proof.
  induction 1 as [|s op fuel s' _ IH Hop H].
  - intros x. discriminate.
  - eapply apply_op_clean_below; eauto.
Qed.

(** X17.  [adaptonDirty] and [adaptonRefSet] return on every heap a client
    can build, cycles and edges added by hand included: a stack as deep
    as the number of objects is enough. *)
Theorem dirty_returns_on_every_heap (s : State) (a : Adapton) (val : value)
  (fuel : nat) :
  reachable s -> next s <= fuel ->
  (exists s', adaptonDirty fuel a s = Some s') /\
  (exists s', adaptonRefSet fuel a val s = Some s').
Proof.
  intros Hs Hle. assert (Hb := reachable_clean_below s Hs). split.
  - apply adaptonDirty_total with (next s); auto.
    assert (H := count_clean_bound (next s) s). lia.
  - unfold adaptonRefSet. apply adaptonDirty_total with (next s).
    + intros x. rewrite node_set_result. intros Hx. apply Hb.
      now destruct (Nat.eqb x a).
    + assert (H := count_clean_bound (next s) (set_result a val s)). lia.
Qed.

Lemma dirty_returns_on_every_heap_witness :
  exists s', adaptonRefSet 2 0 (VNum 2) ex_plus3_forced = Some s'.
Proof.
  apply (dirty_returns_on_every_heap ex_plus3_forced 0 (VNum 2) 2).
  - exact ex_plus3_forced_reachable.
  - vm_compute. auto.
Defined.

Lemma count_dirty_le (N : nat) (s s' : State) :
  (forall x, clean (node s x) = true -> clean (node s' x) = true) ->
  count_dirty N s' <= count_dirty N s.
Proof.
  intros H. unfold count_dirty. apply filter_mono_le.
  intros x Hx. destruct (clean (node s x)) eqn:E; [|reflexivity].
  rewrite (H x E) in Hx. discriminate.
Qed.

Lemma count_dirty_lt (N : nat) (s s' : State) (a : Adapton) :
  (forall x, clean (node s x) = true -> clean (node s' x) = true) ->
  a < N -> clean (node s a) = false -> clean (node s' a) = true ->
  count_dirty N s' < count_dirty N s.
Proof.
  intros H Ha Hd Hc. unfold count_dirty. apply filter_mono_lt with a.
  - intros x Hx. destruct (clean (node s x)) eqn:E; [|reflexivity].
    rewrite (H x E) in Hx. discriminate.
  - apply in_seq. lia.
  - now rewrite Hd.
  - now rewrite Hc.
Qed.

Lemma count_dirty_bound (N : nat) (s : State) : count_dirty N s <= N.
Proof.
  unfold count_dirty.
  rewrite <- (length_seq N 0) at 2. apply List.filter_length_le.
Qed.

Lemma quiet_at_kept (N : nat) (s s' : State) :
  (forall x, thunk (node s' x) = thunk (node s x)) ->
  quiet_at N s -> quiet_at N s'.
Proof.
  intros H (H1 & H2). split; intros x; rewrite H; auto.
Qed.

Lemma exec_total (N fuel : nat) :
  (forall a s, a < N -> quiet_at N s -> count_dirty N s <= fuel ->
               returned_or_threw (adaptonCompute fuel a s) = true) ->
  forall p s,
    handles_below N p -> only no_dirtying p ->
    quiet_at N s -> count_dirty N s <= fuel ->
    returned_or_threw (exec fuel p s) = true.
Proof.
  intros HT p.
  induction p as [v|e|a k IH|a k IH|a k IH|a b k IH|a b k IH|a k IH|a v k IH
                 |body IHb h IHh k IH];
    intros s Hh Ho Hq Hc; unfold exec; cbn [run];
    inversion Hh; inversion Ho; subst; try discriminate.
  - reflexivity.
  - reflexivity.
  - now apply IH.
  - assert (T := HT a s H1 Hq Hc).
    assert (R := compute_rule (no_dirtying_rule no_dirtying eq_refl eq_refl)
                              fuel a s Logic.I (proj2 Hq)).
    destruct (adaptonCompute fuel a s) as [v s1|e s1|];
      [|reflexivity|discriminate].
    destruct R as [R1 R2]. apply IH; auto.
    + now apply quiet_at_kept with s.
    + assert (Hle := count_dirty_le N s s1 (fun x Hx => proj1 (R2 x Hx))).
      lia.
  - assert (T := HT a (set_context (Some a) s) H1 Hq Hc).
    assert (R := forcing_rule (no_dirtying_rule no_dirtying eq_refl eq_refl)
                              fuel a s Logic.I (proj2 Hq)).
    change (adaptonForce (adaptonCompute fuel) a s) with (force fuel a s).
    assert (T' : returned_or_threw (force fuel a s) = true).
    { rewrite force_unfold.
      destruct (adaptonCompute fuel a (set_context (Some a) s));
        [now destruct (currentlyAdapting s) | reflexivity | discriminate]. }
    destruct (force fuel a s) as [v s1|e s1|];
      [|reflexivity|discriminate].
    destruct R as [R1 R2]. apply IH; auto.
    + now apply quiet_at_kept with s.
    + assert (Hle := count_dirty_le N s s1 (fun x Hx => proj1 (R2 x Hx))).
      lia.
  - apply IH; auto.
    + apply quiet_at_kept with s; auto. intros x. now rewrite node_addEdge.
    + assert (Hle := count_dirty_le N s (addEdge a b s)).
      rewrite Hle; auto. intros x. now rewrite node_addEdge.
  - apply IH; auto.
    + apply quiet_at_kept with s; auto. intros x. now rewrite node_deleteEdge.
    + assert (Hle := count_dirty_le N s (deleteEdge a b s)).
      rewrite Hle; auto. intros x. now rewrite node_deleteEdge.
  - pose (Rule := no_dirtying_rule no_dirtying eq_refl eq_refl).
    fold (exec fuel body s).
    assert (Tb : returned_or_threw (exec fuel body s) = true)
      by (apply IHb; auto).
    assert (Rb := exec_rule Rule fuel body s ltac:(assumption) (proj2 Hq)).
    destruct (exec fuel body s) as [v1 s1|e1 s1|]; [| |discriminate].
    + destruct Rb as [R1 R2]. apply IH; auto.
      * now apply quiet_at_kept with s.
      * assert (Hle := count_dirty_le N s s1 (fun x Hx => proj1 (R2 x Hx))).
        lia.
    + destruct Rb as [R1 R2].
      assert (Hq1 : quiet_at N s1) by now apply quiet_at_kept with s.
      assert (Hc1 : count_dirty N s1 <= fuel).
      { assert (Hle := count_dirty_le N s s1 (fun x Hx => proj1 (R2 x Hx))).
        lia. }
      fold (exec fuel (h e1) s1).
      assert (Th : returned_or_threw (exec fuel (h e1) s1) = true)
        by (apply IHh; auto).
      assert (Rh := exec_rule Rule fuel (h e1) s1 ltac:(auto) (proj2 Hq1)).
      destruct (exec fuel (h e1) s1) as [v2 s2|e2 s2|];
        [|reflexivity|discriminate].
      destruct Rh as [R3 R4]. apply IH; auto.
      * now apply quiet_at_kept with s1.
      * assert (Hle := count_dirty_le N s1 s2
                         (fun x Hx => proj1 (R4 x Hx))).
        lia.
Qed.

Lemma compute_total (N fuel : nat) :
  forall a s, a < N -> quiet_at N s -> count_dirty N s <= fuel ->
              returned_or_threw (adaptonCompute fuel a s) = true.
Proof.
  induction fuel as [|f IH]; intros a s Ha Hq Hc;
    destruct (clean (node s a)) eqn:E;
    try (rewrite adaptonCompute_clean by assumption; reflexivity).
  - exfalso.
    assert (H := count_dirty_lt N s (set_clean a true s) a).
    rewrite node_set_clean, Nat.eqb_refl in H.
    assert (count_dirty N (set_clean a true s) < count_dirty N s); [|lia].
    apply H; auto. intros x Hx. rewrite node_set_clean.
    now destruct (Nat.eqb x a).
  - rewrite adaptonCompute_dirty by assumption.
    assert (Hcb : clean (node (before_thunk a s) a) = true)
      by (rewrite node_before_thunk; cbn; now rewrite Nat.eqb_refl).
    assert (Hqb : quiet_at N (before_thunk a s))
      by (apply quiet_at_kept with s; [apply frame_before_thunk | exact Hq]).
    assert (Hlt : count_dirty N (before_thunk a s) < count_dirty N s).
    { apply count_dirty_lt with a; auto.
      intros x Hx. rewrite node_before_thunk. cbn [clean].
      now destruct (Nat.eqb x a). }
    assert (T := exec_total N f IH (thunk (node s a)) (before_thunk a s)
                            (proj1 Hq a) (proj2 Hq a) Hqb).
    assert (R := exec_rule (no_dirtying_rule no_dirtying eq_refl eq_refl) f
                           (thunk (node s a)) (before_thunk a s)
                           (proj2 Hq a) (proj2 Hqb)).
    destruct (exec f (thunk (node s a)) (before_thunk a s)) as [v s3|e s3|].
    + rewrite adaptonCompute_clean; [reflexivity|].
      rewrite node_set_result, Nat.eqb_refl. cbn.
      destruct R as [_ R]. now destruct (R a Hcb).
    + reflexivity.
    + apply T. lia.
Qed.

(** X18.  Reads come to an end when no thunk dirties or allocates.  The
    thunks here are computations as [Prog] has them: they call neither
    [makeAthunk] nor [adaptonRef], so the objects of the heap are those
    that exist when the read starts; they may catch exceptions.  In a
    heap whose thunks refer to objects that exist and call neither
    [adaptonDirty] nor [adaptonRefSet], [adaptonCompute] and
    [adaptonForce] on an object that exists return or throw, whatever
    the edges and however the thunks read one another: a stack as deep
    as the number of objects is enough.  (A thunk that allocated a new
    thunk and read it on every run would not come to an end.) *)
Theorem reads_end_without_dirtying (a : Adapton) (s : State) (fuel : nat) :
  closed_heap s -> heap_only no_dirtying s ->
  a < next s -> next s <= fuel ->
  (exists s', final (adaptonCompute fuel a s) = Some s') /\
  (exists s', final (force fuel a s) = Some s').
Proof.
  intros Hc Hq Ha Hle.
  assert (Hb := count_dirty_bound (next s)).
  assert (T : forall s0, quiet_at (next s) s0 ->
                         returned_or_threw (adaptonCompute fuel a s0) = true).
  { intros s0 H0. apply compute_total with (next s); auto.
    specialize (Hb s0). lia. }
  split.
  - specialize (T s (conj Hc Hq)).
    destruct (adaptonCompute fuel a s) as [v s1|e s1|];
      [now exists s1 | now exists s1 | discriminate].
  - rewrite force_unfold. specialize (T (set_context (Some a) s) (conj Hc Hq)).
    destruct (adaptonCompute fuel a (set_context (Some a) s))
      as [v s1|e s1|]; [|now exists s1 | discriminate].
    destruct (currentlyAdapting s); eexists; reflexivity.
Qed.

Lemma ex_nested_throw_closed : closed_heap ex_nested_throw.
Proof.
  intros x. destruct x as [|[|x]]; cbn.
  - constructor; [lia | intros v; constructor].
  - constructor.
  - constructor.
Defined.

Lemma reads_end_without_dirtying_witness :
  exists s', final (force 2 0 ex_nested_throw) = Some s'.
Proof.
  apply (reads_end_without_dirtying 0 ex_nested_throw 2).
  - exact ex_nested_throw_closed.
  - exact ex_nested_throw_no_dirtying.
  - vm_compute. auto.
  - vm_compute. auto.
Defined.

(** ** What a read after a write runs again *)

Lemma final_ran_once (o : Outcome) (s s' : State) :
  related ran_once ran_once s o -> final o = Some s' -> ran_once s s'.
Proof.
  destruct o as [v s1|e s1|]; cbn; intros R H; try discriminate;
    now injection H as <-.
Qed.

(** X19.  A read after a write runs again only what the write invalidated.
    In a heap whose thunks call neither [adaptonDirty] nor
    [adaptonRefSet], after [adaptonRefSet] on a cell, a call of
    [adaptonCompute] or [adaptonForce] invokes only thunks of nodes that
    were dirty before the write or that depend on the cell through
    nodes that were clean, and each at most once. *)
Theorem write_reruns_only_dependents (fuel fuel' : nat) (r a : Adapton)
  (val : value) (s s1 s2 : State) :
  heap_only no_dirtying s ->
  adaptonRefSet fuel r val s = Some s1 ->
  final (adaptonCompute fuel' a s1) = Some s2 \/
  final (force fuel' a s1) = Some s2 ->
  exists l, calls s2 = l ++ calls s /\
            NoDup l /\
            forall x, In x l ->
                      clean (node s x) = false \/ clean_path s r x.
Proof.
  intros Hs Hw H. unfold adaptonRefSet in Hw.
  apply adaptonDirty_dirtied in Hw.
  destruct Hw as ((_ & _ & Hcalls & Hn) & _ & Hpath & _).
  assert (Hn0 : forall x,
             thunk (node (set_result r val s) x) = thunk (node s x) /\
             super (node (set_result r val s) x) = super (node s x) /\
             clean (node (set_result r val s) x) = clean (node s x)).
  { intros x. rewrite node_set_result. now destruct (Nat.eqb x r). }
  assert (Hs1 : heap_only no_dirtying s1).
  { apply heap_only_kept with s; [|exact Hs].
    intros x. destruct (Hn x) as (-> & _). apply Hn0. }
  assert (R : ran_once s1 s2).
  { destruct H as [H|H].
    - apply (final_ran_once (adaptonCompute fuel' a s1)); [|exact H].
      now apply (compute_rule (ran_once_rule no_dirtying eq_refl eq_refl)).
    - apply (final_ran_once (force fuel' a s1)); [|exact H].
      now apply (forcing_rule (ran_once_rule no_dirtying eq_refl eq_refl)). }
  destruct R as (_ & l & E & N & D).
  exists l. split; [now rewrite E, Hcalls|]. split; [exact N|].
  intros x Hx. destruct (D x Hx) as [Hd _].
  destruct (clean (node s x)) eqn:Ex; [right | now left].
  assert (Ex' : clean (node (set_result r val s) x) = true)
    by (destruct (Hn0 x) as (_ & _ & ->); exact Ex).
  destruct (Hpath x Ex' Hd) as (r0 & [<-|[]] & Hp).
  apply clean_path_lift with (set_result r val s); auto.
  - intros y. apply Hn0.
  - intros y Hy. destruct (Hn0 y) as (_ & _ & <-). exact Hy.
Qed.

Lemma ex_plus3_forced_no_dirtying : heap_only no_dirtying ex_plus3_forced.
Proof.
  apply heap_only_kept with ex_plus3; [|exact ex_plus3_no_dirtying].
  assert (R := force_log 3 1 ex_plus3).
  destruct (done_state_of (force 3 1 ex_plus3) init) as [v Hv];
    [vm_compute; reflexivity|].
  rewrite Hv in R. destruct R as (_ & R & _). exact R.
Defined.

Lemma write_reruns_only_dependents_witness :
  exists s1 s2 l,
    adaptonRefSet 3 0 (VNum 2) ex_plus3_forced = Some s1 /\
    final (force 3 1 s1) = Some s2 /\
    calls s2 = l ++ calls ex_plus3_forced /\ NoDup l.
Proof.
  assert (E : match adaptonRefSet 3 0 (VNum 2) ex_plus3_forced with
              | Some s => returned (force 3 1 s)
              | None => false
              end = true) by (vm_compute; reflexivity).
  destruct (adaptonRefSet 3 0 (VNum 2) ex_plus3_forced) as [s1|] eqn:F;
    try discriminate.
  destruct (force 3 1 s1) as [v s2|e s2|] eqn:G; try discriminate.
  destruct (write_reruns_only_dependents 3 3 0 1 (VNum 2)
              ex_plus3_forced s1 s2 ex_plus3_forced_no_dirtying F)
    as (l & H1 & H2 & _).
  - right. rewrite G. reflexivity.
  - exists s1, s2, l. split; [reflexivity|].
    split; [now rewrite G | auto].
Defined.

(** ** The caches between two calls *)


